(** * FleetStream backend: the event pipeline

    A shallow embedding of the Go backend:
    - [services.SlidingWindow] and [services.AnomalyDetector],
    - [kafka.Consumer.validateEvent] and [kafka.Consumer.processMessage],
    - the broadcast case of [websocket.Hub.Run].

    Go's [float64] is the kernel's binary64 [float]: comparisons and
    arithmetic are the IEEE 754 ones, NaN and infinities included.
    Go's [int] values of this code are slice lengths, indexes and small
    counters; they are [nat] here, and an index out of range is a run-time
    panic, modelled by [None]. *)

From Stdlib Require Import ZArith Floats Uint63.
From stdpp Require Import gmap strings list fin_maps.

Set Warnings "-inexact-float,-register-all,-clear-no-such-hyp".
Local Open Scope string_scope.
Local Open Scope nat_scope.
Local Open Scope list_scope.

(** ** models *)

(** What [encoding/json] stores in an [interface{}]. *)
Inductive JSONValue :=
| JNull
| JBool (b : bool)
| JNumber (f : float)
| JString (s : string)
| JArray (l : list JSONValue)
| JObject (l : list (string * JSONValue)).

(** [time.Time] as decoded from JSON: an instant, in nanoseconds since the
    Unix epoch (no monotonic clock reading). *)
Definition Time := Z.

Record SensorEvent := {
  Timestamp : Time;
  MachineID : string;
  ConveyorSpeed : float;
  Temperature : float;
  RobotArmAngle : float;
  Status : string;
  EventType : string;
  AdditionalData : gmap string JSONValue
}.

(** A call [fmt.Sprintf(format, args...)], kept as the format and its
    arguments: the text is a function of both. *)
Inductive fmtArg :=
| ArgF (f : float)
| ArgS (s : string)
| ArgD (n : nat).

Record Message := Sprintf { format : string; args : list fmtArg }.

(** [models.Alert]. The detector fills [AlertType], [Severity] and
    [Message]; every other field keeps its zero value. *)
Record Alert := {
  AlertType : string;
  Severity : string;
  AlertMessage : Message
}.

Record AnomalyThresholds := {
  ConveyorSpeedMin : float;
  ConveyorSpeedMax : float;
  TemperatureMin : float;
  TemperatureMax : float;
  RobotAngleMin : float;
  RobotAngleMax : float
}.

(** ** services.SlidingWindow *)

(** [events] is the backing array of the Go slice ([nil] slots are [None]);
    its length is fixed by [make]. *)
Record SlidingWindow := {
  events : list (option SensorEvent);
  maxSize : nat;
  position : nat;
  full : bool
}.

Definition NewSlidingWindow (maxSize : nat) : SlidingWindow :=
  {| events := replicate maxSize None;
     maxSize := maxSize;
     position := 0;
     full := false |}.

(** [Add]: the store [sw.events[sw.position] = event] panics when the index
    is out of range, and [% sw.maxSize] panics when [maxSize] is zero. *)
Definition Add (sw : SlidingWindow) (event : SensorEvent) : option SlidingWindow :=
  if decide (position sw < length (events sw)) then
    if decide (maxSize sw = 0) then None
    else
      let position' := (position sw + 1) mod maxSize sw in
      Some {| events := <[position sw := Some event]> (events sw);
              maxSize := maxSize sw;
              position := position';
              full := if negb (full sw) && bool_decide (position' = 0)
                      then true else full sw |}
  else None.

(** A slice handed out by the window. In Go a slice is a view of a backing
    array: [sw.events[lo:hi]] shares the window's own array, so a later
    [Add] is visible through it; the result of [make] is an array of its
    own. *)
Inductive Slice :=
| Shared (lo hi : nat)
| Fresh (elems : list (option SensorEvent)).

(** The elements seen through a slice, given the window's current array. *)
Definition view (sw : SlidingWindow) (s : Slice) : list (option SensorEvent) :=
  match s with
  | Shared lo hi => take (hi - lo) (drop lo (events sw))
  | Fresh elems => elems
  end.

Definition len (s : Slice) : nat :=
  match s with
  | Shared lo hi => hi - lo
  | Fresh elems => length elems
  end.

(** [s[k:]] for [k <= len(s)]. *)
Definition slice_from (s : Slice) (k : nat) : Slice :=
  match s with
  | Shared lo hi => Shared (lo + k) hi
  | Fresh elems => Fresh (drop k elems)
  end.

(** [GetEvents]: below capacity the result is [sw.events[:sw.position]];
    once full it is a new array filled by the loop. *)
Definition GetEvents (sw : SlidingWindow) : option Slice :=
  if negb (full sw) then
    if decide (position sw ≤ length (events sw)) then Some (Shared 0 (position sw))
    else None
  else
    result ← mapM (λ i, events sw !! ((position sw + i) mod maxSize sw))
                  (seq 0 (maxSize sw));
    Some (Fresh result).

Definition GetRecentEvents (sw : SlidingWindow) (n : nat) : option Slice :=
  events ← GetEvents sw;
  if decide (len events ≤ n) then Some events
  else Some (slice_from events (len events - n)).

(** *** Representation invariant and abstraction *)

(** The last [n] elements of a list. *)
Definition lastn {A} (n : nat) (l : list A) : list A := drop (length l - n) l.

(** The slots currently holding an event, oldest first. *)
Definition held (sw : SlidingWindow) : list (option SensorEvent) :=
  if full sw then drop (position sw) (events sw) ++ take (position sw) (events sw)
  else take (position sw) (events sw).

Record wf_window (sw : SlidingWindow) : Prop := {
  wf_length : length (events sw) = maxSize sw;
  wf_capacity : 0 < maxSize sw;
  wf_position : position sw < maxSize sw;
  wf_held : Forall is_Some (held sw)
}.

(** The events of the window, oldest first. *)
Definition contents (sw : SlidingWindow) : list SensorEvent :=
  omap id (held sw).

(** [n] successive calls of [Add]. *)
Fixpoint AddAll (sw : SlidingWindow) (evs : list SensorEvent) : option SlidingWindow :=
  match evs with
  | [] => Some sw
  | e :: evs' => sw' ← Add sw e; AddAll sw' evs'
  end.

(** ** Binary64 and [time]: the library functions the code calls *)

(** Go's conversion [float64(n)] of a signed integer with [|n| < 2^63]. *)
Definition of_int64 (n : Z) : float :=
  if (n <? 0)%Z then (- of_uint63 (Uint63.of_Z (- n)))%float
  else of_uint63 (Uint63.of_Z n).

(** A float that is not strictly positive: the test [0 < x] fails. *)
Definition not_pos (x : spec_float) : bool :=
  match x with
  | S754_finite false _ _ | S754_infinity false => false
  | _ => true
  end.

(** A [time.Duration] is a signed 64-bit count of nanoseconds. *)
Definition minDuration : Z := (- 2 ^ 63)%Z.
Definition maxDuration : Z := (2 ^ 63 - 1)%Z.
Definition Second : Z := 1000000000%Z.

(** [t.Sub(u)]: the difference, saturated to the range of a [Duration]. *)
Definition Sub (t u : Time) : Z :=
  if (t - u <? minDuration)%Z then minDuration
  else if (maxDuration <? t - u)%Z then maxDuration
  else (t - u)%Z.

(** [d.Seconds()]: [float64(d / Second) + float64(d % Second) / 1e9], with
    Go's truncated division. *)
Definition Seconds (d : Z) : float :=
  let sec := Z.quot d Second in
  let nsec := Z.rem d Second in
  (of_int64 sec + of_int64 nsec / 1e9)%float.

(** ** services.AnomalyDetector *)

(** [alertCallback] records whether a callback is installed ([nil] is
    [false]). The callback is the detector's only output: each function
    below returns the alerts it hands to the callback, in call order. The
    mutex is not modelled: [AnalyzeEvent] holds it from start to end. *)
Record AnomalyDetector := {
  thresholds : AnomalyThresholds;
  slidingWindow : gmap string SlidingWindow;
  alertCallback : bool
}.

Definition NewAnomalyDetector (alertCallback : bool) : AnomalyDetector :=
  {| thresholds := {| ConveyorSpeedMin := 0.1; ConveyorSpeedMax := 3.5;
                      TemperatureMin := 15.0; TemperatureMax := 85.0;
                      RobotAngleMin := 0.0; RobotAngleMax := 180.0 |};
     slidingWindow := ∅;
     alertCallback := alertCallback |}.

(** [if ad.alertCallback != nil { ad.alertCallback(alert) }] *)
Definition callback (ad : AnomalyDetector) (alert : Alert) : list Alert :=
  if alertCallback ad then [alert] else [].

Definition detectThresholdViolations (ad : AnomalyDetector) (event : SensorEvent)
  : list Alert :=
  let th := thresholds ad in
  let alerts : list Alert := [] in
  (* Check conveyor speed *)
  let alerts :=
    if (ConveyorSpeed event <? ConveyorSpeedMin th)%float then
      alerts ++ [ {| AlertType := "conveyor_speed_low"; Severity := "high";
                     AlertMessage :=
                       Sprintf "Conveyor speed below minimum threshold: %.2f m/s (min: %.2f)"
                               [ArgF (ConveyorSpeed event); ArgF (ConveyorSpeedMin th)] |} ]
    else if (ConveyorSpeedMax th <? ConveyorSpeed event)%float then
      alerts ++ [ {| AlertType := "conveyor_speed_high"; Severity := "high";
                     AlertMessage :=
                       Sprintf "Conveyor speed above maximum threshold: %.2f m/s (max: %.2f)"
                               [ArgF (ConveyorSpeed event); ArgF (ConveyorSpeedMax th)] |} ]
    else alerts in
  (* Check temperature *)
  let alerts :=
    if (Temperature event <? TemperatureMin th)%float then
      alerts ++ [ {| AlertType := "temperature_low"; Severity := "medium";
                     AlertMessage :=
                       Sprintf "Temperature below minimum threshold: %.1f°C (min: %.1f)"
                               [ArgF (Temperature event); ArgF (TemperatureMin th)] |} ]
    else if (TemperatureMax th <? Temperature event)%float then
      alerts ++ [ {| AlertType := "temperature_high"; Severity := "high";
                     AlertMessage :=
                       Sprintf "Temperature above maximum threshold: %.1f°C (max: %.1f)"
                               [ArgF (Temperature event); ArgF (TemperatureMax th)] |} ]
    else alerts in
  (* Check robot arm angle *)
  let alerts :=
    if (RobotArmAngle event <? RobotAngleMin th)%float
       || (RobotAngleMax th <? RobotArmAngle event)%float then
      alerts ++ [ {| AlertType := "robot_angle_invalid"; Severity := "medium";
                     AlertMessage :=
                       Sprintf "Robot arm angle out of valid range: %.1f° (range: %.1f-%.1f)"
                               [ArgF (RobotArmAngle event); ArgF (RobotAngleMin th);
                                ArgF (RobotAngleMax th)] |} ]
    else alerts in
  (* Process status-based alerts *)
  let alerts :=
    if String.eqb (Status event) "fault" then
      let severity := "high" in
      let message := Sprintf "Machine fault detected: %s" [ArgS (EventType event)] in
      let message :=
        match AdditionalData event !! "description" with
        | Some (JString faultDesc) => Sprintf "Machine fault: %s" [ArgS faultDesc]
        | _ => message
        end in
      alerts ++ [ {| AlertType := EventType event; Severity := severity;
                     AlertMessage := message |} ]
    else if String.eqb (Status event) "warning" then
      alerts ++ [ {| AlertType := EventType event; Severity := "medium";
                     AlertMessage :=
                       Sprintf "Warning condition: %s" [ArgS (EventType event)] |} ]
    else alerts in
  (* Send alerts *)
  flat_map (callback ad) alerts.

(** The checks below receive the events a slice points to. Every element
    of the slice is read by [detectSpeedInstability] and by the loop of
    [detectPatternAnomalies], so a [nil] element panics in either; the
    elements are dereferenced once, where the slice is passed on. *)
Definition deref (elems : list (option SensorEvent)) : option (list SensorEvent) :=
  mapM id elems.

Definition detectRapidTemperatureChange (events : list SensorEvent) : option bool :=
  if length events <? 5 then Some false
  else
    newest ← events !! (length events - 1);
    oldest ← events !! (length events - 5);
    (* Calculate temperature change rate over last 5 events *)
    let tempChange := (Temperature newest - Temperature oldest)%float in
    let timeSpan := Seconds (Sub (Timestamp newest) (Timestamp oldest)) in
    if (0 <? timeSpan)%float then
      let changeRate := (tempChange / timeSpan)%float in
      Some ((2.0 <? changeRate)%float || (changeRate <? -2.0)%float)
    else Some false.

Definition detectSpeedInstability (events : list SensorEvent) : bool :=
  if length events <? 5 then false
  else
    let n := of_int64 (Z.of_nat (length events)) in
    let '(sum, sumSquares) :=
      foldl (λ (acc : float * float) event,
               ((acc.1 + ConveyorSpeed event)%float,
                (acc.2 + ConveyorSpeed event * ConveyorSpeed event)%float))
            (0%float, 0%float) events in
    let mean := (sum / n)%float in
    let variance := (sumSquares / n - mean * mean)%float in
    let stdDev := (variance * variance)%float in (* Simplified calculation *)
    (0.5 <? stdDev)%float.

Definition detectTrendAnomalies (ad : AnomalyDetector) (event : SensorEvent)
    (window : SlidingWindow) : option (list Alert) :=
  recentEvents ← GetRecentEvents window 10;
  if len recentEvents <? 5 then Some [] (* Not enough data *)
  else
    recent ← deref (view window recentEvents);
    rapid ← detectRapidTemperatureChange recent;
    let sent1 :=
      if (rapid : bool) then
        callback ad {| AlertType := "rapid_temperature_change"; Severity := "medium";
                       AlertMessage :=
                         Sprintf "Rapid temperature change detected on machine %s"
                                 [ArgS (MachineID event)] |}
      else [] in
    let sent2 :=
      if detectSpeedInstability recent then
        callback ad {| AlertType := "speed_instability"; Severity := "medium";
                       AlertMessage :=
                         Sprintf "Conveyor speed instability detected on machine %s"
                                 [ArgS (MachineID event)] |}
      else [] in
    Some (sent1 ++ sent2).

Definition detectPatternAnomalies (ad : AnomalyDetector) (event : SensorEvent)
    (window : SlidingWindow) : option (list Alert) :=
  recentEvents ← GetRecentEvents window 20;
  if len recentEvents <? 10 then Some []
  else
    recent ← deref (view window recentEvents);
    (* Check for repeated faults *)
    let faultCount :=
      foldl (λ faultCount e,
               if String.eqb (Status e) "fault" then faultCount + 1 else faultCount)
            0 recent in
    if 3 <=? faultCount then
      Some (callback ad
              {| AlertType := "repeated_faults"; Severity := "high";
                 AlertMessage :=
                   Sprintf "Multiple faults detected in recent history (%d faults in last 20 events)"
                           [ArgD faultCount] |})
    else Some [].

Definition AnalyzeEvent (ad : AnomalyDetector) (event : SensorEvent)
  : option (AnomalyDetector * list Alert) :=
  (* Get or create sliding window for this machine *)
  let window :=
    match slidingWindow ad !! MachineID event with
    | Some window => window
    | None => NewSlidingWindow 50 (* Keep last 50 events *)
    end in
  (* Add event to sliding window *)
  window ← Add window event;
  let ad := {| thresholds := thresholds ad;
               slidingWindow := <[MachineID event := window]> (slidingWindow ad);
               alertCallback := alertCallback ad |} in
  (* Perform anomaly detection *)
  let sent1 := detectThresholdViolations ad event in
  sent2 ← detectTrendAnomalies ad event window;
  sent3 ← detectPatternAnomalies ad event window;
  Some (ad, sent1 ++ sent2 ++ sent3).

(** ** services.AnomalyDetector: thresholds and statistics *)

(** [UpdateThresholds] and [GetThresholds]; the log line is not modelled. *)
Definition UpdateThresholds (ad : AnomalyDetector) (thresholds : AnomalyThresholds)
  : AnomalyDetector :=
  {| thresholds := thresholds;
     slidingWindow := slidingWindow ad;
     alertCallback := alertCallback ad |}.

Definition GetThresholds (ad : AnomalyDetector) : AnomalyThresholds := thresholds ad.

(** The map [GetMachineStats] returns, one field per key. *)
Record MachineStats := {
  event_count : nat;
  avg_temperature : float;
  avg_conveyor_speed : float;
  avg_robot_arm_angle : float;
  fault_rate : float;
  last_event_time : Time
}.

(** The four accumulators of the loop of [GetMachineStats]. *)
Record StatsSums := {
  avgTemp : float;
  avgSpeed : float;
  avgAngle : float;
  faultCount : nat
}.

(** [GetMachineStats]: the outer [None] is a panic, [Some None] is the
    [nil] map returned for a machine without window or without events. *)
Definition GetMachineStats (ad : AnomalyDetector) (machineID : string)
  : option (option MachineStats) :=
  match slidingWindow ad !! machineID with
  | None => Some None
  | Some window =>
      events ← GetEvents window;
      if len events =? 0 then Some None
      else
        events ← deref (view window events);
        let sums :=
          foldl (λ (s : StatsSums) event,
                   {| avgTemp := (avgTemp s + Temperature event)%float;
                      avgSpeed := (avgSpeed s + ConveyorSpeed event)%float;
                      avgAngle := (avgAngle s + RobotArmAngle event)%float;
                      faultCount := if String.eqb (Status event) "fault"
                                    then faultCount s + 1 else faultCount s |})
                {| avgTemp := 0; avgSpeed := 0; avgAngle := 0; faultCount := 0 |}
                events in
        let n := of_int64 (Z.of_nat (length events)) in
        newest ← events !! (length events - 1);
        Some (Some {| event_count := length events;
                      avg_temperature := (avgTemp sums / n)%float;
                      avg_conveyor_speed := (avgSpeed sums / n)%float;
                      avg_robot_arm_angle := (avgAngle sums / n)%float;
                      fault_rate :=
                        (of_int64 (Z.of_nat (faultCount sums)) / n)%float;
                      last_event_time := Timestamp newest |})
  end.

(** ** Channels *)

(** A buffered channel: the queued values, oldest first, the capacity given
    to [make] and whether [close] was called. *)
Record chan (A : Type) := Chan { buf : list A; cap : nat; closed : bool }.
Arguments Chan {A}.
Arguments buf {A}.
Arguments cap {A}.
Arguments closed {A}.

Inductive sendResult (A : Type) :=
| Sent (ch : chan A)
| WouldBlock
| SendPanic.
Arguments Sent {A}.
Arguments WouldBlock {A}.
Arguments SendPanic {A}.

(** [select { case ch <- v: ...; default: ... }]: the send proceeds when
    the buffer has room, the [default] branch runs when it has none, and a
    send on a closed channel panics. *)
Definition trySend {A} (ch : chan A) (v : A) : sendResult A :=
  if closed ch then SendPanic
  else if length (buf ch) <? cap ch then
    Sent {| buf := buf ch ++ [v]; cap := cap ch; closed := closed ch |}
  else WouldBlock.

(** [close(ch)] panics on a channel that is closed already. *)
Definition close {A} (ch : chan A) : option (chan A) :=
  if closed ch then None
  else Some {| buf := buf ch; cap := cap ch; closed := true |}.

(** ** kafka.Consumer *)

Inductive error :=
| Errorf (format : string) (args : list fmtArg)
| Wrapf (format : string) (err : error).

Record Consumer := {
  eventChannel : chan SensorEvent;
  errorChannel : chan error
}.

(** [validStatuses], a [map[string]bool]; a missing key reads [false]. *)
Definition validStatuses : gmap string bool :=
  {[ "ok" := true; "warning" := true; "fault" := true ]}.

Definition validateEvent (event : SensorEvent) : option error :=
  if String.eqb (MachineID event) "" then
    Some (Errorf "machine_id is required" [])
  else if String.eqb (Status event) "" then
    Some (Errorf "status is required" [])
  else if String.eqb (EventType event) "" then
    Some (Errorf "event_type is required" [])
  (* Validate status values *)
  else if negb (default false (validStatuses !! Status event)) then
    Some (Errorf "invalid status: %s" [ArgS (Status event)])
  (* Validate sensor values are within reasonable bounds *)
  else if (ConveyorSpeed event <? 0)%float || (10 <? ConveyorSpeed event)%float then
    Some (Errorf "conveyor speed out of range: %f" [ArgF (ConveyorSpeed event)])
  else if (Temperature event <? -50)%float || (200 <? Temperature event)%float then
    Some (Errorf "temperature out of range: %f" [ArgF (Temperature event)])
  else if (RobotArmAngle event <? 0)%float || (360 <? RobotArmAngle event)%float then
    Some (Errorf "robot arm angle out of range: %f" [ArgF (RobotArmAngle event)])
  else None.

(** [processMessage], given the decoder [json.Unmarshal] of the standard
    library: [inl err] when the payload does not decode. Log lines are not
    modelled; [None] is a panic. *)
Definition processMessage (json_Unmarshal : string → error + SensorEvent)
    (c : Consumer) (Value : string) : option Consumer :=
  (* Parse the sensor event *)
  match json_Unmarshal Value with
  | inl err =>
      match trySend (errorChannel c) (Wrapf "failed to unmarshal message: %v" err) with
      | Sent ch => Some {| eventChannel := eventChannel c; errorChannel := ch |}
      | WouldBlock => Some c (* Error channel full, dropping unmarshal error *)
      | SendPanic => None
      end
  | inr event =>
      (* Validate the event *)
      match validateEvent event with
      | Some err =>
          match trySend (errorChannel c) (Wrapf "invalid event: %v" err) with
          | Sent ch => Some {| eventChannel := eventChannel c; errorChannel := ch |}
          | WouldBlock => Some c (* Error channel full, dropping validation error *)
          | SendPanic => None
          end
      | None =>
          (* Send event to processing channel *)
          match trySend (eventChannel c) event with
          | Sent ch => Some {| eventChannel := ch; errorChannel := errorChannel c |}
          | WouldBlock => Some c (* Event channel full, dropping event *)
          | SendPanic => None
          end
      end
  end.

(** ** websocket.Hub *)

(** A [*Client] is the address of a client. [Hub.clients] is keyed by it;
    [mailboxes] is the part of the heap the hub touches: the [send] channel
    of every client allocated so far, registered or not. *)
Definition ClientPtr := nat.

Record Hub := {
  clients : gmap ClientPtr bool;
  mailboxes : gmap ClientPtr (chan string)
}.

(** One iteration of the [range] loop of the broadcast case:
    [select { case client.send <- message: default: close(client.send);
    delete(h.clients, client) }]. A key deleted before the loop reaches it
    is not visited. *)
Definition deliver (message : string) (h : Hub) (client : ClientPtr) : option Hub :=
  match clients h !! client with
  | None => Some h
  | Some _ =>
      send ← mailboxes h !! client;
      match trySend send message with
      | Sent send' =>
          Some {| clients := clients h;
                  mailboxes := <[client := send']> (mailboxes h) |}
      | WouldBlock =>
          send' ← close send;
          Some {| clients := delete client (clients h);
                  mailboxes := <[client := send']> (mailboxes h) |}
      | SendPanic => None
      end
  end.

(** The broadcast case of [Hub.Run] for one [message]. [order] is the order
    in which [range h.clients] yields the keys: Go leaves it unspecified,
    so it is a parameter, some enumeration of the registered clients. *)
Fixpoint broadcast (message : string) (order : list ClientPtr) (h : Hub) : option Hub :=
  match order with
  | [] => Some h
  | client :: order' => h' ← deliver message h client; broadcast message order' h'
  end.

(** [order] enumerates the keys of [h.clients], each once. *)
Definition range_order (h : Hub) (order : list ClientPtr) : Prop :=
  NoDup order ∧ ∀ client, client ∈ order ↔ is_Some (clients h !! client).

(** The hub's invariant: a registered client has a mailbox, and that
    channel is open. *)
Definition hub_ok (h : Hub) : Prop :=
  ∀ client, is_Some (clients h !! client) →
    ∃ send, mailboxes h !! client = Some send ∧ closed send = false.

(** *** The other cases of [Hub.Run], and the clients *)

Definition NewHub : Hub := {| clients := ∅; mailboxes := ∅ |}.

(** The register case. [welcome] is the result of [json.Marshal] on the
    welcome message, [None] when it fails: nothing is sent then. *)
Definition register (welcome : option string) (h : Hub) (client : ClientPtr)
  : option Hub :=
  let h := {| clients := <[client := true]> (clients h); mailboxes := mailboxes h |} in
  match welcome with
  | None => Some h
  | Some msg =>
      send ← mailboxes h !! client;
      match trySend send msg with
      | Sent send' =>
          Some {| clients := clients h;
                  mailboxes := <[client := send']> (mailboxes h) |}
      | WouldBlock =>
          send' ← close send;
          Some {| clients := delete client (clients h);
                  mailboxes := <[client := send']> (mailboxes h) |}
      | SendPanic => None
      end
  end.

(** The unregister case: [delete] and [close] for a registered client,
    nothing for any other. *)
Definition unregister (h : Hub) (client : ClientPtr) : option Hub :=
  match clients h !! client with
  | Some _ =>
      send ← mailboxes h !! client;
      send' ← close send;
      Some {| clients := delete client (clients h);
              mailboxes := <[client := send']> (mailboxes h) |}
  | None => Some h
  end.

Definition GetClientCount (h : Hub) : nat := size (clients h).

(** [HandleWebSocket] once the upgrade succeeded: a client is allocated at
    the address [client] with a mailbox of capacity 256, and registered. *)
Definition HandleWebSocket (welcome : option string) (h : Hub) (client : ClientPtr)
  : option Hub :=
  register welcome
           {| clients := clients h;
              mailboxes := <[client := Chan [] 256 false]> (mailboxes h) |}
           client.

(** [writePump] takes the oldest message of its client's mailbox. *)
Definition receive (h : Hub) (client : ClientPtr) : option (string * Hub) :=
  send ← mailboxes h !! client;
  match buf send with
  | [] => None
  | message :: rest =>
      Some (message,
            {| clients := clients h;
               mailboxes := <[client := {| buf := rest; cap := cap send;
                                           closed := closed send |}]>
                              (mailboxes h) |})
  end.

(** [Client.subscribe], [Client.unsubscribe] and [Client.isSubscribed] on
    the [subscribed] map of a client. *)
Definition subscribe (subscribed : gmap string bool) (topics : list string)
  : gmap string bool :=
  foldl (λ subscribed topic, <[topic := true]> subscribed) subscribed topics.

Definition unsubscribe (subscribed : gmap string bool) (topics : list string)
  : gmap string bool :=
  foldl (λ subscribed topic, delete topic subscribed) subscribed topics.

Definition isSubscribed (subscribed : gmap string bool) (topic : string) : bool :=
  default false (subscribed !! topic).

(** [Client.handleMessage], given [json.Unmarshal] on the message (its
    [Type] and [Data]) and on the topics of a subscription, and the result
    [pong] of [json.Marshal] on the answer to a ping. It works on the
    client's [subscribed] map and on its [send] channel, which the hub
    shares. *)
Definition handleMessage
    (json_Unmarshal : string → error + (string * string))
    (json_Unmarshal_Topics : string → error + list string)
    (pong : error + string)
    (h : Hub) (client : ClientPtr) (subscribed : gmap string bool) (message : string)
  : option (Hub * gmap string bool) :=
  match json_Unmarshal message with
  | inl _ => Some (h, subscribed) (* Failed to unmarshal client message *)
  | inr (msgType, msgData) =>
      if String.eqb msgType "subscribe" then
        match json_Unmarshal_Topics msgData with
        | inr Topics => Some (h, subscribe subscribed Topics)
        | inl _ => Some (h, subscribed)
        end
      else if String.eqb msgType "unsubscribe" then
        match json_Unmarshal_Topics msgData with
        | inr Topics => Some (h, unsubscribe subscribed Topics)
        | inl _ => Some (h, subscribed)
        end
      else if String.eqb msgType "ping" then
        match pong with
        | inr pongBytes =>
            send ← mailboxes h !! client;
            match trySend send pongBytes with
            | Sent send' =>
                Some ({| clients := clients h;
                         mailboxes := <[client := send']> (mailboxes h) |},
                      subscribed)
            | WouldBlock => Some (h, subscribed) (* Failed to send pong *)
            | SendPanic => None
            end
        | inl _ => Some (h, subscribed)
        end
      else Some (h, subscribed) (* Unknown message type *)
  end.

(** What the hub and its clients do, one step at a time. *)
Inductive hub_step : Hub → Hub → Prop :=
| step_connect h client welcome h' :
    mailboxes h !! client = None →
    HandleWebSocket welcome h client = Some h' →
    hub_step h h'
| step_unregister h client h' :
    unregister h client = Some h' →
    hub_step h h'
| step_broadcast h message order h' :
    range_order h order →
    broadcast message order h = Some h' →
    hub_step h h'
| step_receive h client message h' :
    receive h client = Some (message, h') →
    hub_step h h'
| step_message h client json_Unmarshal json_Unmarshal_Topics pong subscribed
               message h' subscribed' :
    handleMessage json_Unmarshal json_Unmarshal_Topics pong h client subscribed message
    = Some (h', subscribed') →
    hub_step h h'.

(** ** The loop of [Consumer.Start] and the reader of its channels *)

(** The consumer [NewConsumer] returns once the client is created and
    subscribed to its topics. *)
Definition NewConsumer : Consumer :=
  {| eventChannel := Chan [] 100 false; errorChannel := Chan [] 10 false |}.

(** What [ReadMessage] returns: the timeout error, another error, or a
    message with its payload. *)
Inductive readResult :=
| ErrTimedOut
| ReadError (err : error)
| KafkaMessage (Value : string).

(** One turn of the [default] case of the loop of [Start]. *)
Definition poll (json_Unmarshal : string → error + SensorEvent) (c : Consumer)
    (r : readResult) : option Consumer :=
  match r with
  | ErrTimedOut => Some c (* Timeout is normal, continue polling *)
  | ReadError err =>
      match trySend (errorChannel c) (Wrapf "consumer error: %v" err) with
      | Sent ch => Some {| eventChannel := eventChannel c; errorChannel := ch |}
      | WouldBlock => Some c (* Error channel full, dropping error *)
      | SendPanic => None
      end
  | KafkaMessage Value => processMessage json_Unmarshal c Value
  end.

(** The consumer with what happened so far: the results of [ReadMessage],
    and the events the loop of [main] has received from the event channel. *)
Record pipeline := {
  polled : list readResult;
  consumer : Consumer;
  taken : list SensorEvent
}.

(** A step is a turn of the loop of [Start], or a receive of the loop of
    [main] on the event channel or on the error channel; a receive takes
    the oldest value queued. *)
Inductive pipeline_step (json_Unmarshal : string → error + SensorEvent)
  : pipeline → pipeline → Prop :=
| step_poll p r c' :
    poll json_Unmarshal (consumer p) r = Some c' →
    pipeline_step json_Unmarshal p
      {| polled := polled p ++ [r]; consumer := c'; taken := taken p |}
| step_event p event rest :
    buf (eventChannel (consumer p)) = event :: rest →
    pipeline_step json_Unmarshal p
      {| polled := polled p;
         consumer :=
           {| eventChannel := {| buf := rest; cap := cap (eventChannel (consumer p));
                                 closed := closed (eventChannel (consumer p)) |};
              errorChannel := errorChannel (consumer p) |};
         taken := taken p ++ [event] |}
| step_error p err rest :
    buf (errorChannel (consumer p)) = err :: rest →
    pipeline_step json_Unmarshal p
      {| polled := polled p;
         consumer :=
           {| eventChannel := eventChannel (consumer p);
              errorChannel := {| buf := rest; cap := cap (errorChannel (consumer p));
                                 closed := closed (errorChannel (consumer p)) |} |};
         taken := taken p |}.

(** ** main: the loop that processes the events *)

(** The calls the loop makes on the database and on the hub. *)
Inductive call :=
| InsertEvent (event : SensorEvent)
| InsertAlert (alert : Alert)
| BroadcastAlert (alert : Alert)
| BroadcastEvent (event : SensorEvent).

(** The [alertCallback] of [main]: the alert is stored, then broadcast
    whether or not it was stored. *)
Definition main_alertCallback (alert : Alert) : list call :=
  [InsertAlert alert; BroadcastAlert alert].

(** The event case of the loop, for one value received: [None] is the
    [nil] a closed channel yields, [stored] tells whether [db.InsertEvent]
    returned without error. The detector is the one [main] creates, with
    [alertCallback] installed: the callback runs once for each alert
    [AnalyzeEvent] hands to it. *)
Definition handleEvent (ad : AnomalyDetector) (event : option SensorEvent)
    (stored : bool) : option (AnomalyDetector * list call) :=
  match event with
  | Some event =>
      (* Store event in database *)
      if stored then
        (* Analyze for anomalies *)
        r ← AnalyzeEvent ad event;
        (* Broadcast to WebSocket clients *)
        Some (r.1, [InsertEvent event] ++ flat_map main_alertCallback r.2
                   ++ [BroadcastEvent event])
      else Some (ad, [InsertEvent event])
  | None => Some (ad, [])
  end.

Fixpoint processEvents (ad : AnomalyDetector)
    (received : list (option SensorEvent * bool))
  : option (AnomalyDetector * list call) :=
  match received with
  | [] => Some (ad, [])
  | (event, stored) :: received' =>
      r ← handleEvent ad event stored;
      r' ← processEvents r.1 received';
      Some (r'.1, r.2 ++ r'.2)
  end.

(** ** database and handlers *)

(** [int64] arithmetic wraps around. *)
Definition int64 (n : Z) : Z := ((n + 2 ^ 63) mod 2 ^ 64 - 2 ^ 63)%Z.

(** Go's conversion [float64(n)] of any [int64]: [of_int64], and [-2^63]
    for the least one. *)
Definition float64 (n : Z) : float :=
  if (n =? - 2 ^ 63)%Z then (-9223372036854775808)%float else of_int64 n.

Record EventStats := {
  TotalEvents : Z;
  FaultEvents : Z;
  WarningEvents : Z;
  AvgTemperature : float;
  AvgConveyorSpeed : float;
  UptimePercent : float;
  LastEventTime : option Time (* [None] is the zero [time.Time] *)
}.

(** The row the query of [DB.GetEventStats] yields, in the order of its
    columns; the last one is a [sql.NullTime]. *)
Definition statsRow : Type := Z * Z * Z * float * float * option Time.

(** [DB.GetEventStats], given the outcome of [QueryRow(...).Scan(...)]; the
    three counts of a row are [int64] values. *)
Definition DB_GetEventStats (scan : error + statsRow) : error + EventStats :=
  match scan with
  | inl err => inl (Wrapf "failed to get event stats: %v" err)
  | inr (total_events, fault_events, warning_events, avg_temperature,
         avg_conveyor_speed, last_event_time) =>
      let stats :=
        {| TotalEvents := total_events; FaultEvents := fault_events;
           WarningEvents := warning_events; AvgTemperature := avg_temperature;
           AvgConveyorSpeed := avg_conveyor_speed; UptimePercent := 0;
           LastEventTime := last_event_time |} in
      (* Calculate uptime percentage *)
      if (0 <? TotalEvents stats)%Z then
        let uptimeEvents := int64 (TotalEvents stats - FaultEvents stats) in
        inr {| TotalEvents := TotalEvents stats; FaultEvents := FaultEvents stats;
               WarningEvents := WarningEvents stats;
               AvgTemperature := AvgTemperature stats;
               AvgConveyorSpeed := AvgConveyorSpeed stats;
               UptimePercent :=
                 (float64 uptimeEvents / float64 (TotalEvents stats) * 100)%float;
               LastEventTime := LastEventTime stats |}
      else inr stats
  end.

(** The limit and the offset [Handler.GetEvents] passes to the database,
    from the query parameters [limit] and [offset] (the empty string when
    absent). [Atoi] is [strconv.Atoi], [None] when it returns an error. *)
Definition GetEvents_paging (Atoi : string → option Z) (l o : string) : Z * Z :=
  let limit := 50%Z in (* default *)
  let offset := 0%Z in (* default *)
  let limit :=
    if negb (String.eqb l "") then
      match Atoi l with
      | Some parsedLimit =>
          if (0 <? parsedLimit)%Z && (parsedLimit <=? 1000)%Z then parsedLimit
          else limit
      | None => limit
      end
    else limit in
  let offset :=
    if negb (String.eqb o "") then
      match Atoi o with
      | Some parsedOffset => if (0 <=? parsedOffset)%Z then parsedOffset else offset
      | None => offset
      end
    else offset in
  (limit, offset).

(** The health report of [Handler.GetSystemHealth], without its time
    stamp. *)
Record health := {
  health_status : string;
  connected_clients : nat;
  database_status : string;
  total_events_1h : Z;
  fault_events_1h : Z;
  warning_events_1h : Z;
  uptime_percent : float;
  health_thresholds : AnomalyThresholds
}.

(** [Handler.GetSystemHealth], given the outcome of the query of
    [GetEventStats]. The error of [GetEventStats] is discarded: its [nil]
    statistics are dereferenced, which panics ([None]). *)
Definition GetSystemHealth (h : Hub) (ad : AnomalyDetector) (scan : error + statsRow)
  : option health :=
  stats ← match DB_GetEventStats scan with
          | inr stats => Some stats
          | inl _ => None
          end;
  let status := "healthy" in
  (* Determine overall health status *)
  let status := if (UptimePercent stats <? 95.0)%float then "degraded" else status in
  let status := if (UptimePercent stats <? 90.0)%float then "unhealthy" else status in
  Some {| health_status := status;
          connected_clients := GetClientCount h;
          database_status := "connected";
          total_events_1h := TotalEvents stats;
          fault_events_1h := FaultEvents stats;
          warning_events_1h := WarningEvents stats;
          uptime_percent := UptimePercent stats;
          health_thresholds := GetThresholds ad |}.

(** The answers of [Handler.UpdateAnomalyThresholds]: status 400 with an
    error and, for a body that does not bind, its details; status 200 with
    a message and the thresholds. *)
Inductive thresholdsResponse :=
| StatusBadRequest (message : string) (details : option error)
| StatusOK (message : string) (thresholds : AnomalyThresholds).

(** [Handler.UpdateAnomalyThresholds], given [ShouldBindJSON] on the
    request; it returns the detector with the answer. *)
Definition UpdateAnomalyThresholds
    (ShouldBindJSON : string → error + AnomalyThresholds)
    (ad : AnomalyDetector) (request : string)
  : AnomalyDetector * thresholdsResponse :=
  match ShouldBindJSON request with
  | inl err => (ad, StatusBadRequest "Invalid threshold data" (Some err))
  | inr thresholds =>
      (* Validate thresholds *)
      if (ConveyorSpeedMin thresholds <? 0)%float
         || (ConveyorSpeedMax thresholds <=? ConveyorSpeedMin thresholds)%float then
        (ad, StatusBadRequest "Invalid conveyor speed thresholds" None)
      else if (TemperatureMax thresholds <=? TemperatureMin thresholds)%float then
        (ad, StatusBadRequest "Invalid temperature thresholds" None)
      else
        (UpdateThresholds ad thresholds,
         StatusOK "Anomaly thresholds updated successfully" thresholds)
  end.

(** ** The dashboard of the frontend *)

Module Dashboard.

(** [SensorEvent] as the frontend declares it: a [number] is a binary64,
    an optional field is [None] when absent. *)
Record SensorEvent := {
  id : option float;
  timestamp : string;
  machine_id : string;
  sensor_type : option string;
  conveyor_speed : float;
  temperature : float;
  robot_arm_angle : float;
  status : string;
  event_type : option string;
  raw_data : option (gmap string JSONValue);
  additional_data : option (gmap string JSONValue);
  created_at : option string
}.

Record ChartDataPoint := {
  point_timestamp : string;
  point_conveyor_speed : float;
  point_temperature : float;
  point_robot_arm_angle : float;
  point_status : string
}.

(** The updates of the [events] and [newAlerts] states: the function given
    to the setter, applied to the previous state. *)
Definition handleNewEvent (prev : list SensorEvent) (event : SensorEvent)
  : list SensorEvent :=
  (* Add new event to the beginning of the list *)
  let newEvents := event :: prev in
  (* Keep only last 100 events for performance *)
  take 100 newEvents.

Definition handleNewAlert {Alert : Type} (prev : list Alert) (alert : Alert)
  : list Alert :=
  alert :: take 4 prev. (* Keep only 5 most recent *)

(** [!selectedMachine || event.machine_id === selectedMachine]: the empty
    string is the only string that is falsy. *)
Definition selected (selectedMachine : string) (event : SensorEvent) : Prop :=
  selectedMachine = "" ∨ machine_id event = selectedMachine.

(** The object the [map] of [chartData] builds from an event. *)
Definition point (event : SensorEvent) : ChartDataPoint :=
  {| point_timestamp := timestamp event;
     point_conveyor_speed := conveyor_speed event;
     point_temperature := temperature event;
     point_robot_arm_angle := robot_arm_angle event;
     point_status := status event |}.

Definition chartData (events : list SensorEvent) (selectedMachine : string)
  : list ChartDataPoint :=
  reverse (* Show chronological order *)
    (take 50 (* Last 50 points for performance *)
       (point <$> filter (selected selectedMachine) events)).

(** [filteredEvents[0] || null]: an event is an object, never falsy. *)
Definition latestEvent (events : list SensorEvent) (selectedMachine : string)
  : option SensorEvent :=
  let filteredEvents :=
    if bool_decide (selectedMachine = "") then events
    else filter (λ e, machine_id e = selectedMachine) events in
  filteredEvents !! 0.

End Dashboard.

(** ** Vocabulary of the statements *)

(** Every window of the detector satisfies the window invariant. *)
Definition wf_detector (ad : AnomalyDetector) : Prop :=
  ∀ id w, slidingWindow ad !! id = Some w → wf_window w.

(** The window [AnalyzeEvent] uses for a machine: the stored one, or a new
    one of capacity 50. *)
Definition window_of (ad : AnomalyDetector) (id : string) : SlidingWindow :=
  match slidingWindow ad !! id with
  | Some window => window
  | None => NewSlidingWindow 50
  end.

(** The events of [event]'s machine held once [event] is inserted, oldest
    first: what the trend and pattern checks see. *)
Definition history (ad : AnomalyDetector) (event : SensorEvent) : list SensorEvent :=
  let w := window_of ad (MachineID event) in
  lastn (maxSize w) (contents w ++ [event]).

(** The alerts of the trend and pattern checks. *)
Definition rapid_temperature_change (machine : string) : Alert :=
  {| AlertType := "rapid_temperature_change"; Severity := "medium";
     AlertMessage := Sprintf "Rapid temperature change detected on machine %s"
                             [ArgS machine] |}.

Definition speed_instability (machine : string) : Alert :=
  {| AlertType := "speed_instability"; Severity := "medium";
     AlertMessage := Sprintf "Conveyor speed instability detected on machine %s"
                             [ArgS machine] |}.

Definition repeated_faults (faultCount : nat) : Alert :=
  {| AlertType := "repeated_faults"; Severity := "high";
     AlertMessage :=
       Sprintf "Multiple faults detected in recent history (%d faults in last 20 events)"
               [ArgD faultCount] |}.

(** The number of events with status [fault]. *)
Definition faults (l : list SensorEvent) : nat :=
  length (filter (λ e, Status e = "fault") l).

(** [AnalyzeEvent] on one event after the other, with the alerts of each. *)
Fixpoint AnalyzeAll (ad : AnomalyDetector) (evs : list SensorEvent)
  : option (AnomalyDetector * list (list Alert)) :=
  match evs with
  | [] => Some (ad, [])
  | e :: evs' =>
      r ← AnalyzeEvent ad e;
      r' ← AnalyzeAll r.1 evs';
      Some (r'.1, r.2 :: r'.2)
  end.

(** The detector once [event] is inserted and [w] is its machine's window. *)
Definition inserted (ad : AnomalyDetector) (event : SensorEvent) (w : SlidingWindow)
  : AnomalyDetector :=
  {| thresholds := thresholds ad;
     slidingWindow := <[MachineID event := w]> (slidingWindow ad);
     alertCallback := alertCallback ad |}.

(** The detector and the window reached from new ones by a run of events. *)
Definition detector_after (evs : list SensorEvent) : AnomalyDetector :=
  match AnalyzeAll (NewAnomalyDetector true) evs with
  | Some r => r.1
  | None => NewAnomalyDetector true
  end.

Definition window_after (evs : list SensorEvent) : SlidingWindow :=
  match AddAll (NewSlidingWindow 50) evs with
  | Some w => w
  | None => NewSlidingWindow 50
  end.

(** The state of a detector that has analysed [past], event after event. *)
Definition holds_last_50 (ad : AnomalyDetector) (past : list SensorEvent) : Prop :=
  ∀ id,
    match slidingWindow ad !! id with
    | Some w =>
        wf_window w ∧ maxSize w = 50 ∧
        contents w = lastn 50 (filter (λ ev, MachineID ev = id) past) ∧
        contents w ≠ []
    | None => filter (λ ev, MachineID ev = id) past = []
    end.

(** The invariant of the hub: a registered client has an open mailbox, an
    unregistered one a closed mailbox, and no mailbox holds more than its
    capacity. *)
Definition hub_inv (h : Hub) : Prop :=
  hub_ok h ∧
  (∀ client send, mailboxes h !! client = Some send →
                  clients h !! client = None → closed send = true) ∧
  (∀ client send, mailboxes h !! client = Some send →
                  length (buf send) ≤ cap send).

(** A value offered to a channel by a non-blocking send: queued last when
    there is room, dropped when there is none. *)
Definition offered {A} (ch : chan A) (v : A) (ch' : chan A) : Prop :=
  (length (buf ch) < cap ch →
   ch' = {| buf := buf ch ++ [v]; cap := cap ch; closed := closed ch |}) ∧
  (cap ch ≤ length (buf ch) → ch' = ch).

(** The validity of an event in the words of the specification: machine
    and event type non-empty, a status among ok, warning and fault, and
    each quantity within its sanity range. *)
Definition within (lo hi v : float) : Prop :=
  (lo <=? v)%float = true ∧ (v <=? hi)%float = true.

Definition valid_event (event : SensorEvent) : Prop :=
  MachineID event ≠ "" ∧ EventType event ≠ "" ∧
  Status event ∈ ["ok"; "warning"; "fault"] ∧
  within 0 10 (ConveyorSpeed event) ∧
  within (-50) 200 (Temperature event) ∧
  within 0 360 (RobotArmAngle event).

(** The numbers of a decoded event: JSON has no literal for NaN. *)
Definition decoded_numbers (event : SensorEvent) : Prop :=
  is_nan (ConveyorSpeed event) = false ∧
  is_nan (Temperature event) = false ∧
  is_nan (RobotArmAngle event) = false.

(** The effect of one broadcast on a client, from hub [h] to hub [h']. *)
Definition delivered (message : string) (h h' : Hub) (client : ClientPtr) : Prop :=
  match clients h !! client, mailboxes h !! client with
  | Some registered, Some send =>
      if length (buf send) <? cap send then
        clients h' !! client = Some registered ∧
        mailboxes h' !! client
        = Some {| buf := buf send ++ [message]; cap := cap send; closed := false |}
      else
        clients h' !! client = None ∧
        mailboxes h' !! client
        = Some {| buf := buf send; cap := cap send; closed := true |}
  | _, _ =>
      clients h' !! client = clients h !! client ∧
      mailboxes h' !! client = mailboxes h !! client
  end.

(** The events among [polled] that decode and pass [validateEvent], in
    arrival order. *)
Definition accepted (json_Unmarshal : string → error + SensorEvent)
    (polled : list readResult) : list SensorEvent :=
  omap (λ r, match r with
             | KafkaMessage Value =>
                 match json_Unmarshal Value with
                 | inr event =>
                     match validateEvent event with
                     | None => Some event
                     | Some _ => None
                     end
                 | inl _ => None
                 end
             | _ => None
             end) polled.

(** The events among [received] the database stored, and the events and
    alerts among the calls of the loop of [main]. *)
Definition stored_events (received : list (option SensorEvent * bool))
  : list SensorEvent :=
  omap (λ r : option SensorEvent * bool, if r.2 then r.1 else None) received.

Definition broadcast_events (calls : list call) : list SensorEvent :=
  omap (λ c, match c with BroadcastEvent event => Some event | _ => None end) calls.

Definition broadcast_alerts (calls : list call) : list Alert :=
  omap (λ c, match c with BroadcastAlert alert => Some alert | _ => None end) calls.

Definition inserted_alerts (calls : list call) : list Alert :=
  omap (λ c, match c with InsertAlert alert => Some alert | _ => None end) calls.

(** ** Sample inputs *)

Definition reading (ts : Z) (temperature speed : float) (status : string)
  : SensorEvent :=
  {| Timestamp := ts; MachineID := "m1"; ConveyorSpeed := speed;
     Temperature := temperature; RobotArmAngle := 90; Status := status;
     EventType := "reading"; AdditionalData := ∅ |}.

Definition e1 : SensorEvent := reading 1 20 1 "ok".
Definition e2 : SensorEvent := reading 2 21 1 "ok".
Definition e3 : SensorEvent := reading 3 22 1 "ok".

(** Four readings, [step] nanoseconds apart, with the temperature rising
    from 20 to 31.25 degrees, and the fifth one at 35 degrees. *)
Definition rising4 (step : Z) : list SensorEvent :=
  [reading 0 20 1 "ok"; reading step 23.75 1 "ok";
   reading (2 * step) 27.5 1 "ok"; reading (3 * step) 31.25 1 "ok"].
Definition rising5 (step : Z) : SensorEvent := reading (4 * step) 35 1 "ok".

(** Nineteen readings with three faults among them, nineteen with two, and
    a twentieth reading. *)
Definition quiet (n : nat) : list SensorEvent := replicate n (reading 0 20 1 "ok").
Definition faulty : SensorEvent := reading 0 20 1 "fault".
Definition three_faults : list SensorEvent :=
  quiet 2 ++ [faulty] ++ quiet 6 ++ [faulty] ++ quiet 6 ++ [faulty] ++ quiet 2.
Definition two_faults : list SensorEvent :=
  quiet 2 ++ [faulty] ++ quiet 6 ++ [faulty] ++ quiet 9.
Definition twentieth : SensorEvent := reading 0 20 1 "ok".

(** Readings that differ in speed only. *)
Definition at_speed (speed : float) : SensorEvent := reading 0 20 speed "ok".

(** Three subscribers: a slow one with a mailbox of capacity 1, and two
    with the capacity 256 that [HandleWebSocket] gives. *)
Definition three_subscribers : Hub :=
  {| clients := {[ 1 := true; 2 := true; 3 := true ]};
     mailboxes := {[ 1 := Chan [] 1 false; 2 := Chan [] 256 false;
                     3 := Chan ["connected"] 256 false ]} |}.

(** The default thresholds with the two angle bounds exchanged. *)
Definition exchanged_angles : AnomalyThresholds :=
  {| ConveyorSpeedMin := 0.1; ConveyorSpeedMax := 3.5;
     TemperatureMin := 15.0; TemperatureMax := 85.0;
     RobotAngleMin := 180.0; RobotAngleMax := 0.0 |}.

(** An event as the dashboard receives it. *)
Definition shown : Dashboard.SensorEvent :=
  {| Dashboard.id := None; Dashboard.timestamp := "2024-01-01T00:00:00Z";
     Dashboard.machine_id := "m1"; Dashboard.sensor_type := None;
     Dashboard.conveyor_speed := 1; Dashboard.temperature := 20;
     Dashboard.robot_arm_angle := 90; Dashboard.status := "ok";
     Dashboard.event_type := None; Dashboard.raw_data := None;
     Dashboard.additional_data := None; Dashboard.created_at := None |}.

Definition one_subscriber : Hub :=
  {| clients := {[ 7 := true ]};
     mailboxes := {[ 7 := Chan ["connected"] 256 false ]} |}.

(** ** The sliding window: lemmas *)

Section window.
Implicit Types (sw : SlidingWindow) (e : SensorEvent).

Lemma lastn_all {A} (n : nat) (l : list A) : length l ≤ n → lastn n l = l.
Proof. intros H. unfold lastn. by replace (length l - n) with 0 by lia. Qed.

Lemma length_lastn {A} (n : nat) (l : list A) : length (lastn n l) = n `min` length l.
Proof. unfold lastn. rewrite length_drop. lia. Qed.

Lemma lastn_snoc {A} (n : nat) (l : list A) (x : A) :
  lastn (S n) (l ++ [x]) = lastn n l ++ [x].
Proof.
  unfold lastn. rewrite length_app. simpl.
  replace (length l + 1 - S n) with (length l - n) by lia.
  rewrite drop_app_le by lia. done.
Qed.

Lemma NewSlidingWindow_wf (c : nat) : 0 < c → wf_window (NewSlidingWindow c).
Proof.
  intros Hc. split; simpl; [by rewrite length_replicate | done | done |].
  unfold held. simpl. constructor.
Qed.

Lemma length_held sw :
  wf_window sw →
  length (held sw) = if full sw then maxSize sw else position sw.
Proof.
  intros [Hl Hc Hp _]. unfold held. destruct (full sw).
  - rewrite length_app, length_drop, length_take. lia.
  - rewrite length_take. lia.
Qed.

Lemma held_contents sw : wf_window sw → held sw = Some <$> contents sw.
Proof.
  intros [_ _ _ H]. unfold contents. induction H as [|x l [y ->] _ IH]; simpl.
  - done.
  - by f_equal.
Qed.

(** [Add] never fails on a well-formed window, keeps it well formed and
    drops the oldest event when the window is full. *)
Lemma Add_held sw e :
  wf_window sw →
  ∃ sw', Add sw e = Some sw' ∧ wf_window sw' ∧ maxSize sw' = maxSize sw ∧
         held sw' = lastn (maxSize sw) (held sw ++ [Some e]).
Proof.
  intros Hwf. pose proof (length_held sw Hwf) as Hlen.
  destruct Hwf as [Hl Hc Hp Hh]. unfold Add.
  rewrite decide_True by lia. rewrite decide_False by lia.
  eexists. split; [done|].
  assert (Hheld : held {| events := <[position sw:=Some e]> (events sw);
                        maxSize := maxSize sw;
                        position := (position sw + 1) mod maxSize sw;
                        full := if negb (full sw) &&
                                   bool_decide ((position sw + 1) mod maxSize sw = 0)
                                then true else full sw |}
                  = lastn (maxSize sw) (held sw ++ [Some e])).
  { unfold held in *. simpl.
    destruct (decide (position sw + 1 = maxSize sw)) as [Heq|Hne].
    - (* the write fills the last slot: the position wraps to 0 *)
      assert ((position sw + 1) mod maxSize sw = 0) as ->
        by (rewrite Heq; apply Nat.Div0.mod_same).
      replace (if negb (full sw) && bool_decide (0 = 0) then true else full sw)
        with true by (by destruct (full sw)).
      rewrite drop_0, take_0, app_nil_r.
      assert (Hsplit : <[position sw:=Some e]> (events sw)
                       = take (position sw) (events sw) ++ [Some e]).
      { rewrite <- (take_drop (position sw) (events sw)) at 1.
        rewrite insert_app_r_alt by (rewrite length_take; lia).
        rewrite length_take. replace (position sw - _) with 0 by lia.
        destruct (drop (position sw) (events sw)) as [|x [|y t]] eqn:Hd;
          apply (f_equal length) in Hd; rewrite length_drop in Hd; simpl in Hd;
          [lia | done | lia]. }
      rewrite Hsplit. destruct (full sw).
      + unfold lastn. rewrite !length_app, length_drop, length_take. simpl.
        replace (_ - maxSize sw) with 1 by lia.
        destruct (drop (position sw) (events sw)) as [|x [|y t]] eqn:Hd;
          apply (f_equal length) in Hd; rewrite length_drop in Hd; simpl in Hd;
          [lia | done | lia].
      + rewrite lastn_all; [done|]. rewrite length_app, length_take. simpl. lia.
    - rewrite Nat.mod_small by lia.
      replace (bool_decide (position sw + 1 = 0)) with false
        by (symmetry; apply bool_decide_eq_false; lia).
      rewrite andb_false_r. destruct (full sw).
      + rewrite drop_insert_lt by lia.
        replace (position sw + 1) with (S (position sw)) by lia.
        rewrite (take_S_r _ _ (Some e)) by (apply list_lookup_insert_eq; lia).
        rewrite take_insert_ge by lia.
        unfold lastn. rewrite !length_app, length_drop, length_take. simpl.
        replace (_ - maxSize sw) with 1 by lia.
        replace (drop (S (position sw)) (events sw))
          with (drop 1 (drop (position sw) (events sw)))
          by (rewrite drop_drop; f_equal; lia).
        destruct (drop (position sw) (events sw)) as [|x t] eqn:Hd;
          [apply (f_equal length) in Hd; rewrite length_drop in Hd; simpl in Hd; lia|].
        simpl. rewrite drop_0. by rewrite <- app_assoc.
      + replace (position sw + 1) with (S (position sw)) by lia.
        rewrite (take_S_r _ _ (Some e)) by (apply list_lookup_insert_eq; lia).
        rewrite take_insert_ge by lia.
        rewrite lastn_all; [done|]. rewrite length_app, length_take. simpl. lia. }
  split; [|split; [done | exact Hheld]].
  split; simpl.
  - by rewrite length_insert.
  - done.
  - apply Nat.mod_upper_bound. lia.
  - rewrite Hheld. unfold lastn. apply Forall_drop, Forall_app. split; [done|].
    repeat constructor. by eexists.
Qed.

Lemma lastn_app_lastn {A} (c : nat) (l k : list A) :
  lastn c (lastn c l ++ k) = lastn c (l ++ k).
Proof.
  unfold lastn. rewrite !length_app, length_drop.
  rewrite !drop_app, drop_drop, length_drop. f_equal; f_equal; lia.
Qed.

Lemma AddAll_held sw (evs : list SensorEvent) :
  wf_window sw →
  ∃ sw', AddAll sw evs = Some sw' ∧ wf_window sw' ∧ maxSize sw' = maxSize sw ∧
         held sw' = lastn (maxSize sw) (held sw ++ (Some <$> evs)).
Proof.
  revert sw. induction evs as [|e evs IH]; intros sw Hwf; simpl.
  - exists sw. split; [done|]. split; [done|]. split; [done|].
    rewrite app_nil_r, lastn_all; [done|].
    rewrite (length_held sw Hwf). destruct Hwf. destruct (full sw); lia.
  - destruct (Add_held sw e Hwf) as (sw1 & -> & Hwf1 & Hc1 & Hh1). simpl.
    destruct (IH sw1 Hwf1) as (sw' & -> & Hwf' & Hc' & Hh').
    exists sw'. split; [done|]. split; [done|]. split; [congruence|].
    rewrite Hh', Hh1, Hc1, lastn_app_lastn, <- app_assoc. done.
Qed.

(** The loop of [GetEvents] on a full window reads the slots in the order
    [position, position+1, ..., maxSize-1, 0, ..., position-1]. *)
Lemma GetEvents_loop (l : list (option SensorEvent)) (p : nat) :
  p < length l →
  mapM (λ i, l !! ((p + i) mod length l)) (seq 0 (length l))
  = Some (drop p l ++ take p l).
Proof.
  intros Hp. apply mapM_Some, Forall2_same_length_lookup_2.
  - rewrite length_seq, length_app, length_drop, length_take. lia.
  - intros i x y Hx Hy. apply lookup_seq in Hx as [-> Hi]. simpl.
    rewrite <- Hy. destruct (decide (i < length l - p)) as [Hlt|Hge].
    + rewrite Nat.mod_small by lia.
      rewrite lookup_app_l by (rewrite length_drop; lia).
      by rewrite lookup_drop.
    + rewrite lookup_app_r by (rewrite length_drop; lia).
      rewrite length_drop, lookup_take_lt by lia.
      f_equal. symmetry. apply (Nat.mod_unique _ _ 1); lia.
Qed.

Lemma GetEvents_view sw :
  wf_window sw →
  ∃ s, GetEvents sw = Some s ∧ view sw s = held sw ∧ len s = length (held sw).
Proof.
  intros Hwf. pose proof (length_held sw Hwf) as Hlen.
  destruct Hwf as [Hl Hc Hp Hh]. unfold GetEvents, held in *.
  destruct (full sw); simpl.
  - rewrite <- Hl, GetEvents_loop by lia. simpl. eexists. by repeat split.
  - rewrite decide_True by lia. eexists. split; [done|]. simpl.
    rewrite Nat.sub_0_r, length_take. split; [done | lia].
Qed.

Lemma GetRecentEvents_view sw (n : nat) :
  wf_window sw →
  ∃ s, GetRecentEvents sw n = Some s ∧ view sw s = lastn n (held sw) ∧
       len s = length (view sw s).
Proof.
  intros Hwf. destruct (GetEvents_view sw Hwf) as (s & Hs & Hv & Hlen).
  unfold GetRecentEvents. rewrite Hs. simpl. case_decide as Hn.
  - exists s. split; [done|]. rewrite Hv, lastn_all by lia. split; [done | congruence].
  - eexists. split; [done|]. clear Hs.
    destruct s as [lo hi | elems]; simpl in *.
    + assert (Hle : hi - lo ≤ length (drop lo (events sw))).
      { rewrite <- Hv in Hlen. rewrite length_take in Hlen. lia. }
      rewrite length_take. split.
      * unfold lastn. rewrite <- Hlen, <- Hv.
        replace (drop (lo + (hi - lo - n)) (events sw))
          with (drop (hi - lo - n) (drop lo (events sw))) by apply drop_drop.
        rewrite take_drop_commute. do 2 f_equal. lia.
      * rewrite length_drop in *. lia.
    + by subst elems.
Qed.
End window.

(** ** Binary64 facts used by the checks *)

Section binary64.
Local Open Scope float_scope.

Lemma SFcompare_antisym (x y : spec_float) :
  SFcompare y x = option_map CompOpp (SFcompare x y).
Proof.
  destruct x as [sx|sx| |sx mx e1], y as [sy|sy| |sy my e2]; simpl;
    try done; try (by destruct sx); try (by destruct sy);
    try (by destruct sx, sy).
  change (Pos.compare_cont Eq my mx) with (my ?= mx)%positive.
  change (Pos.compare_cont Eq mx my) with (mx ?= my)%positive.
  rewrite (Z.compare_antisym e1 e2), (Pos.compare_antisym mx my).
  destruct sx, sy; simpl; try done;
    destruct (e1 ?= e2)%Z; simpl; try done;
    by rewrite ?CompOpp_involutive.
Qed.

Lemma SFcompare_not_nan (x y : spec_float) :
  x ≠ S754_nan → y ≠ S754_nan → is_Some (SFcompare x y).
Proof. destruct x, y; simpl; intros; by eauto. Qed.

Lemma is_nan_false (x : float) : is_nan x = false → Prim2SF x ≠ S754_nan.
Proof.
  unfold is_nan. rewrite FloatAxioms.eqb_spec. intros H Hn. rewrite Hn in H. done.
Qed.

(** [a <= b] excludes [b < a], for every pair of floats. *)
Lemma leb_ltb_false (a b : float) : (a <=? b) = true → (b <? a) = false.
Proof.
  rewrite FloatAxioms.leb_spec, FloatAxioms.ltb_spec. unfold SFleb, SFltb.
  rewrite (SFcompare_antisym (Prim2SF a) (Prim2SF b)).
  by destruct (SFcompare (Prim2SF a) (Prim2SF b)) as [[]|].
Qed.

(** Away from NaN the order is total: [a <= b] is the negation of [b < a]. *)
Lemma leb_negb_ltb (a b : float) :
  is_nan a = false → is_nan b = false → (a <=? b) = negb (b <? a).
Proof.
  intros Ha%is_nan_false Hb%is_nan_false.
  rewrite FloatAxioms.leb_spec, FloatAxioms.ltb_spec. unfold SFleb, SFltb.
  rewrite (SFcompare_antisym (Prim2SF a) (Prim2SF b)).
  destruct (SFcompare_not_nan _ _ Ha Hb) as [c ->]. by destruct c.
Qed.

Lemma SFltb_abs (m0 : positive) (e0 : Z) (x : spec_float) :
  SFltb (S754_finite false m0 e0) (SFabs x)
  = SFltb (S754_finite false m0 e0) x || SFltb x (S754_finite true m0 e0).
Proof.
  unfold SFltb. destruct x as [s|s| |s m e]; simpl; try done.
  - by destruct s.
  - destruct s; simpl; [|by rewrite orb_false_r].
    change (Pos.compare_cont Eq m m0) with (m ?= m0)%positive.
    change (Pos.compare_cont Eq m0 m) with (m0 ?= m)%positive.
    rewrite (Z.compare_antisym e0 e), (Pos.compare_antisym m0 m).
    destruct (e0 ?= e)%Z; simpl; try done.
    by destruct (m0 ?= m)%positive.
Qed.

(** [|r| > 2] is the disjunction the source writes: [r > 2 || r < -2]. *)
Lemma abs_gt_two (r : float) : (2 <? abs r) = (2 <? r) || (r <? -2).
Proof.
  rewrite !FloatAxioms.ltb_spec, FloatAxioms.abs_spec.
  change (Prim2SF 2) with (S754_finite false 4503599627370496 (-51)).
  change (Prim2SF (-2)) with (S754_finite true 4503599627370496 (-51)).
  apply SFltb_abs.
Qed.

(** *** Signs: rounding never flips a sign *)

Lemma not_pos_binary_round_aux (mx ex : Z) (lx : location) :
  not_pos (binary_round_aux prec emax true mx ex lx) = true.
Proof.
  unfold binary_round_aux.
  destruct (shr_fexp prec emax mx ex lx) as [mrs' e'].
  destruct (shr_fexp prec emax _ e' loc_Exact) as [mrs'' e''].
  destruct (shr_m mrs''); [done | | done].
  by destruct (_ <=? _)%Z.
Qed.

Lemma not_pos_opp_binary_round_aux (mx ex : Z) (lx : location) :
  not_pos (SFopp (binary_round_aux prec emax false mx ex lx)) = true.
Proof.
  unfold binary_round_aux.
  destruct (shr_fexp prec emax mx ex lx) as [mrs' e'].
  destruct (shr_fexp prec emax _ e' loc_Exact) as [mrs'' e''].
  destruct (shr_m mrs''); [done | | done].
  by destruct (_ <=? _)%Z.
Qed.

Lemma not_pos_of_int64 (n : Z) : (n ≤ 0)%Z → not_pos (Prim2SF (of_int64 n)) = true.
Proof.
  intros Hn. unfold of_int64. destruct (n <? 0)%Z eqn:Hlt.
  - rewrite FloatAxioms.opp_spec, FloatAxioms.of_uint63_spec. unfold binary_normalize.
    pose proof (Uint63.to_Z_bounded (Uint63.of_Z (- n))) as Hb.
    destruct (Uint63.to_Z (Uint63.of_Z (- n))) as [|p|p]; [done | | lia].
    unfold binary_round. destruct (shl_align _ _ _) as [mz ez].
    apply not_pos_opp_binary_round_aux.
  - assert (n = 0%Z) as -> by lia. done.
Qed.

Lemma not_pos_div (x : spec_float) (m : positive) (e : Z) :
  not_pos x = true → not_pos (SF64div x (S754_finite false m e)) = true.
Proof.
  destruct x as [s|[]| |[] mx ex]; simpl; try done.
  intros _. destruct (SFdiv_core_binary _ _ _ _ _ _) as [[mz ez] lz].
  apply not_pos_binary_round_aux.
Qed.

Lemma not_pos_add (x y : spec_float) :
  not_pos x = true → not_pos y = true → not_pos (SF64add x y) = true.
Proof.
  destruct x as [sx|[]| |[] mx ex], y as [sy|[]| |[] my ey]; simpl; try done;
    try (by destruct sx); try (by destruct sx, sy).
  intros _ _. unfold binary_round. destruct (shl_align _ _ _) as [mz ez].
  apply not_pos_binary_round_aux.
Qed.

Lemma not_pos_ltb (x : float) : not_pos (Prim2SF x) = true → (0 <? x) = false.
Proof.
  rewrite FloatAxioms.ltb_spec. change (Prim2SF 0) with (S754_zero false).
  unfold SFltb. by destruct (Prim2SF x) as [s|[]| |[] m e].
Qed.
End binary64.

(** ** Durations *)

Section durations.
Local Open Scope Z_scope.

Lemma Sub_nonpos (t u : Time) : t ≤ u → Sub t u ≤ 0.
Proof. unfold Sub, minDuration, maxDuration. intros. repeat case_match; lia. Qed.

(** A duration that is not positive has a number of seconds that is not
    positive either: the test [timeSpan > 0] fails. *)
Lemma Seconds_nonpos (d : Z) : d ≤ 0 → (0 <? Seconds d)%float = false.
Proof.
  intros Hd. apply not_pos_ltb. unfold Seconds.
  rewrite FloatAxioms.add_spec, FloatAxioms.div_spec.
  change (Prim2SF 1e9) with (S754_finite false 8388608000000000 (-23)).
  apply not_pos_add.
  - apply not_pos_of_int64. unfold Second.
    apply Z.quot_le_upper_bound; lia.
  - apply not_pos_div, not_pos_of_int64. unfold Second.
    pose proof (Z.rem_nonpos d 1000000000). lia.
Qed.
End durations.


(** ** The sliding window: what a snapshot holds *)

(** C2. After [n] calls of [Add] on a new window of capacity [c > 0], no
    call fails, [GetEvents] returns exactly [min n c] events: the [min n c]
    most recently added, oldest first; the backing array keeps its [c]
    slots. *)
Theorem GetEvents_most_recent (c : nat) (evs : list SensorEvent) :
  0 < c →
  ∃ sw s, AddAll (NewSlidingWindow c) evs = Some sw ∧
          GetEvents sw = Some s ∧
          view sw s = Some <$> lastn (length evs `min` c) evs ∧
          len s = length evs `min` c ∧
          length (events sw) = c.
Proof.
  intros Hc.
  destruct (AddAll_held (NewSlidingWindow c) evs (NewSlidingWindow_wf c Hc))
    as (sw & Hsw & Hwf & Hmax & Hheld).
  destruct (GetEvents_view sw Hwf) as (s & Hs & Hview & Hlen).
  exists sw, s. split; [done|]. split; [done|].
  assert (Hh : held sw = Some <$> lastn (length evs `min` c) evs).
  { rewrite Hheld. simpl. unfold lastn. rewrite fmap_drop, length_fmap.
    f_equal. lia. }
  split; [congruence|]. split.
  - rewrite Hlen, Hh, length_fmap, length_lastn. lia.
  - destruct Hwf as [-> _ _ _]. by rewrite Hmax.
Qed.

Lemma GetEvents_most_recent_witness :
  ∃ sw s, AddAll (NewSlidingWindow 2) [e1; e2; e3] = Some sw ∧
          GetEvents sw = Some s ∧
          view sw s = Some <$> lastn (3 `min` 2) [e1; e2; e3] ∧
          len s = 3 `min` 2 ∧
          length (events sw) = 2.
Proof. apply (GetEvents_most_recent 2 [e1; e2; e3]). lia. Defined.

(** C9. The snapshot of a window that is not full yet is a slice of the
    window's own array. On the detector's window of capacity 50: take the
    snapshot after one [Add]; fifty calls of [Add] later the same slice
    holds the event added last, and no longer the one it held. *)
Theorem GetEvents_snapshot_aliased :
  ∃ sw s sw',
    Add (NewSlidingWindow 50) e1 = Some sw ∧
    GetEvents sw = Some s ∧
    view sw s = [Some e1] ∧
    AddAll sw (replicate 49 e2 ++ [e3]) = Some sw' ∧
    view sw' s = [Some e3].
Proof.
  eexists. eexists. eexists.
  split; [vm_compute; reflexivity|].
  split; [vm_compute; reflexivity|].
  split; [vm_compute; reflexivity|].
  split; vm_compute; reflexivity.
Qed.

(** The sibling path: the snapshot of a full window is an array of its own,
    and no later [Add] shows through it. *)
Lemma GetEvents_full_independent (sw sw' : SlidingWindow) (s : Slice) :
  full sw = true → GetEvents sw = Some s → view sw' s = view sw s.
Proof.
  unfold GetEvents. intros ->. simpl. intros H.
  destruct (mapM _ _); simplify_eq/=. done.
Qed.

(** ** The detector: how one analysis runs *)

Section detector.
Implicit Types (ad : AnomalyDetector) (e : SensorEvent) (w : SlidingWindow).

Lemma deref_Some (l : list SensorEvent) : deref (Some <$> l) = Some l.
Proof.
  unfold deref. apply mapM_Some. induction l; simpl; by constructor.
Qed.

Lemma contents_held w (l : list SensorEvent) : held w = Some <$> l → contents w = l.
Proof.
  unfold contents. intros ->. induction l; simpl; [done | by f_equal].
Qed.

Lemma lookup_lastn {A} (n j : nat) (l : list A) :
  1 ≤ j ≤ n `min` length l →
  lastn n l !! (length (lastn n l) - j) = l !! (length l - j).
Proof.
  intros Hj. rewrite length_lastn. unfold lastn. rewrite lookup_drop. f_equal. lia.
Qed.

Lemma window_of_wf ad (id : string) : wf_detector ad → wf_window (window_of ad id).
Proof.
  intros Hwf. unfold window_of. destruct (slidingWindow ad !! id) eqn:Hw.
  - by eapply Hwf.
  - apply NewSlidingWindow_wf. lia.
Qed.

(** Inserting the event never fails; the window then holds [history]. *)
Lemma Add_history ad e :
  wf_window (window_of ad (MachineID e)) →
  ∃ w, Add (window_of ad (MachineID e)) e = Some w ∧ wf_window w ∧
       contents w = history ad e.
Proof.
  intros Hw.
  destruct (Add_held _ e Hw) as (w & Hadd & Hwf' & _ & Hheld).
  exists w. split; [done|]. split; [done|]. apply contents_held.
  rewrite Hheld, (held_contents _ Hw). unfold history, lastn.
  change [Some e] with (Some <$> [e]).
  by rewrite <- fmap_app, fmap_drop, !length_fmap.
Qed.

(** What the checks read: the last [n] events of the window. *)
Lemma GetRecentEvents_contents w (n : nat) :
  wf_window w →
  ∃ s, GetRecentEvents w n = Some s ∧
       len s = length (lastn n (contents w)) ∧
       deref (view w s) = Some (lastn n (contents w)).
Proof.
  intros Hwf. destruct (GetRecentEvents_view w n Hwf) as (s & Hs & Hv & Hlen).
  exists s. split; [done|].
  assert (Hview : view w s = Some <$> lastn n (contents w)).
  { rewrite Hv, (held_contents w Hwf). unfold lastn.
    by rewrite fmap_drop, length_fmap. }
  split.
  - by rewrite Hlen, Hview, length_fmap.
  - rewrite Hview. apply deref_Some.
Qed.

Lemma detectRapidTemperatureChange_run (l : list SensorEvent) (newest oldest : SensorEvent) :
  5 ≤ length l →
  l !! (length l - 1) = Some newest →
  l !! (length l - 5) = Some oldest →
  detectRapidTemperatureChange l
  = Some (let span := Seconds (Sub (Timestamp newest) (Timestamp oldest)) in
          let rate := ((Temperature newest - Temperature oldest) / span)%float in
          (0 <? span)%float && (2 <? abs rate)%float).
Proof.
  intros Hlen Hn Ho. unfold detectRapidTemperatureChange.
  replace (length l <? 5) with false by (symmetry; apply Nat.ltb_ge; lia).
  rewrite Hn, Ho. simpl. rewrite abs_gt_two.
  by destruct (0 <? _)%float.
Qed.

Lemma detectTrendAnomalies_short ad e w :
  wf_window w → length (contents w) < 5 → detectTrendAnomalies ad e w = Some [].
Proof.
  intros Hwf Hlen. unfold detectTrendAnomalies.
  destruct (GetRecentEvents_contents w 10 Hwf) as (s & -> & Hs & _). simpl.
  rewrite Hs, length_lastn.
  by replace (10 `min` length (contents w) <? 5) with true
    by (symmetry; apply Nat.ltb_lt; lia).
Qed.

Lemma detectTrendAnomalies_run ad e w (newest oldest : SensorEvent) :
  wf_window w →
  5 ≤ length (contents w) →
  contents w !! (length (contents w) - 1) = Some newest →
  contents w !! (length (contents w) - 5) = Some oldest →
  detectTrendAnomalies ad e w
  = Some ((let span := Seconds (Sub (Timestamp newest) (Timestamp oldest)) in
           let rate := ((Temperature newest - Temperature oldest) / span)%float in
           if (0 <? span)%float && (2 <? abs rate)%float
           then callback ad (rapid_temperature_change (MachineID e)) else [])
          ++ (if detectSpeedInstability (lastn 10 (contents w))
              then callback ad (speed_instability (MachineID e)) else [])).
Proof.
  intros Hwf Hlen Hn Ho. unfold detectTrendAnomalies.
  destruct (GetRecentEvents_contents w 10 Hwf) as (s & -> & Hs & Hd). simpl.
  rewrite Hs, length_lastn.
  replace (10 `min` length (contents w) <? 5) with false
    by (symmetry; apply Nat.ltb_ge; lia).
  rewrite Hd. simpl.
  rewrite (detectRapidTemperatureChange_run _ newest oldest).
  - done.
  - rewrite length_lastn. lia.
  - rewrite lookup_lastn by lia. done.
  - rewrite lookup_lastn by lia. done.
Qed.

Lemma faultCount_faults (l : list SensorEvent) (k : nat) :
  foldl (λ faultCount e,
           if String.eqb (Status e) "fault" then faultCount + 1 else faultCount) k l
  = k + faults l.
Proof.
  unfold faults. revert k. induction l as [|x l IH]; intros k; simpl; [lia|].
  rewrite IH, filter_cons. destruct (String.eqb_spec (Status x) "fault") as [Heq|Hne].
  - rewrite decide_True by done. simpl. lia.
  - rewrite decide_False by done. lia.
Qed.

Lemma detectPatternAnomalies_short ad e w :
  wf_window w → length (lastn 20 (contents w)) < 10 →
  detectPatternAnomalies ad e w = Some [].
Proof.
  intros Hwf Hlen. unfold detectPatternAnomalies.
  destruct (GetRecentEvents_contents w 20 Hwf) as (s & -> & Hs & _). simpl.
  rewrite Hs.
  by replace (length (lastn 20 (contents w)) <? 10) with true
    by (symmetry; apply Nat.ltb_lt; lia).
Qed.

Lemma detectPatternAnomalies_run ad e w :
  wf_window w → 10 ≤ length (lastn 20 (contents w)) →
  detectPatternAnomalies ad e w
  = Some (if decide (3 ≤ faults (lastn 20 (contents w)))
          then callback ad (repeated_faults (faults (lastn 20 (contents w))))
          else []).
Proof.
  intros Hwf Hlen. unfold detectPatternAnomalies.
  destruct (GetRecentEvents_contents w 20 Hwf) as (s & -> & Hs & Hd). simpl.
  rewrite Hs.
  replace (length (lastn 20 (contents w)) <? 10) with false
    by (symmetry; apply Nat.ltb_ge; lia).
  rewrite Hd. simpl.
  rewrite faultCount_faults. simpl.
  generalize (faults (lastn 20 (contents w))). intros k.
  case_decide as H3.
  - by destruct k as [|[|[|k]]]; [lia..|].
  - by destruct k as [|[|[|k]]]; [..|lia].
Qed.

(** The newest event of the history is the analysed one. *)
Lemma history_newest ad e :
  wf_window (window_of ad (MachineID e)) →
  history ad e !! (length (history ad e) - 1) = Some e ∧ 1 ≤ length (history ad e).
Proof.
  intros [_ Hc _ _].
  unfold history. set (w := window_of ad (MachineID e)) in *.
  destruct (maxSize w) as [|c]; [lia|].
  rewrite lastn_snoc, length_app. simpl.
  split; [|lia]. rewrite lookup_app_r by lia.
  by replace (_ - _) with 0 by lia.
Qed.

Lemma AnalyzeEvent_wf ad e ad' (alerts : list Alert) :
  wf_detector ad → AnalyzeEvent ad e = Some (ad', alerts) →
  wf_detector ad' ∧ alertCallback ad' = alertCallback ad ∧
  thresholds ad' = thresholds ad.
Proof.
  intros Hwf.
  destruct (Add_history ad e (window_of_wf _ _ Hwf)) as (w & Hadd & Hw & _).
  unfold AnalyzeEvent. fold (window_of ad (MachineID e)). rewrite Hadd. simpl.
  intros H. destruct (detectTrendAnomalies _ _ _); simplify_eq/=.
  destruct (detectPatternAnomalies _ _ _); simplify_eq/=.
  split; [|done]. intros id w' Hid. simpl in Hid.
  destruct (decide (MachineID e = id)) as [<-|Hne].
  - rewrite lookup_insert_eq in Hid. by simplify_eq.
  - rewrite lookup_insert_ne in Hid by done. by eapply Hwf.
Qed.

Lemma NewAnomalyDetector_wf (cb : bool) : wf_detector (NewAnomalyDetector cb).
Proof. intros id w H. simpl in H. by rewrite lookup_empty in H. Qed.

Lemma AnalyzeAll_wf (evs : list SensorEvent) ad ad' (alerts : list (list Alert)) :
  wf_detector ad → AnalyzeAll ad evs = Some (ad', alerts) →
  wf_detector ad' ∧ alertCallback ad' = alertCallback ad.
Proof.
  revert ad alerts. induction evs as [|e evs IH]; intros ad alerts Hwf; simpl.
  - intros. by simplify_eq.
  - destruct (AnalyzeEvent ad e) as [[ad1 a1]|] eqn:H1; simpl; [|done].
    destruct (AnalyzeEvent_wf _ _ _ _ Hwf H1) as (Hwf1 & Hcb1 & _).
    destruct (AnalyzeAll ad1 evs) as [[ad2 a2]|] eqn:H2; simpl; [|done].
    intros. simplify_eq. destruct (IH _ _ Hwf1 H2) as [? ?].
    split; [done | congruence].
Qed.
End detector.

Section stages.
Implicit Types (ad : AnomalyDetector) (e : SensorEvent) (w : SlidingWindow).

(** One analysis: the insertion succeeds, then the three checks run on the
    window that holds [history]; their alerts reach the callback in this
    order. *)
Lemma AnalyzeEvent_stages ad e :
  wf_window (window_of ad (MachineID e)) →
  ∃ w, wf_window w ∧ contents w = history ad e ∧
       AnalyzeEvent ad e
       = (sent2 ← detectTrendAnomalies (inserted ad e w) e w;
          sent3 ← detectPatternAnomalies (inserted ad e w) e w;
          Some (inserted ad e w, detectThresholdViolations ad e ++ sent2 ++ sent3)).
Proof.
  intros Hwf. destruct (Add_history ad e Hwf) as (w & Hadd & Hw & Hc).
  exists w. split; [done|]. split; [done|].
  unfold AnalyzeEvent. fold (window_of ad (MachineID e)). by rewrite Hadd.
Qed.

Lemma callback_inserted ad e w (a : Alert) :
  alertCallback ad = true → callback (inserted ad e w) a = [a].
Proof. unfold callback. simpl. by intros ->. Qed.

Lemma detector_after_wf (evs : list SensorEvent) :
  wf_detector (detector_after evs) ∧ alertCallback (detector_after evs) = true.
Proof.
  unfold detector_after.
  destruct (AnalyzeAll _ evs) as [[ad alerts]|] eqn:H; simpl.
  - by apply (AnalyzeAll_wf evs _ _ _ (NewAnomalyDetector_wf true)) in H.
  - split; [apply NewAnomalyDetector_wf | done].
Qed.

Lemma window_after_wf (evs : list SensorEvent) : wf_window (window_after evs).
Proof.
  unfold window_after.
  destruct (AddAll_held (NewSlidingWindow 50) evs) as (w & -> & Hw & _);
    [apply NewSlidingWindow_wf; lia | done].
Qed.

(** The pattern check raises nothing or one alert. *)
Lemma detectPatternAnomalies_total ad e w :
  wf_window w → alertCallback ad = true →
  ∃ pattern, detectPatternAnomalies (inserted ad e w) e w = Some pattern ∧
             (pattern = [] ∨ ∃ k, pattern = [repeated_faults k]).
Proof.
  intros Hw Hcb. destruct (decide (10 ≤ length (lastn 20 (contents w)))).
  - rewrite detectPatternAnomalies_run by done. eexists. split; [done|].
    case_decide; [|by left]. right. eexists. by apply callback_inserted.
  - rewrite detectPatternAnomalies_short by (done || lia). eexists. split; [done|].
    by left.
Qed.

Lemma lookup_oldest (l : list SensorEvent) :
  5 ≤ length l → ∃ oldest, l !! (length l - 5) = Some oldest.
Proof. intros H. apply lookup_lt_is_Some. lia. Qed.
End stages.

(** ** The trend check *)

(** C3, as the code has it. With at least 5 events of the machine held,
    the analysis of the newest event [e] succeeds and its trend check
    raises the medium-severity [rapid_temperature_change] alert exactly when
    the time span from the 4th-previous event to [e] is positive and the
    temperature difference divided by that span, in seconds, exceeds 2.0 in
    absolute value. The other alerts of the run are those of the threshold
    checks, at most one [speed_instability] and at most one
    [repeated_faults]. *)
Theorem rapid_temperature_change_raised (ad : AnomalyDetector) (e oldest : SensorEvent) :
  wf_detector ad →
  alertCallback ad = true →
  5 ≤ length (history ad e) →
  history ad e !! (length (history ad e) - 5) = Some oldest →
  let span := Seconds (Sub (Timestamp e) (Timestamp oldest)) in
  let rate := ((Temperature e - Temperature oldest) / span)%float in
  ∃ ad' instability pattern,
    AnalyzeEvent ad e
    = Some (ad',
            detectThresholdViolations ad e
            ++ ((if (0 <? span)%float && (2 <? abs rate)%float
                 then [rapid_temperature_change (MachineID e)] else [])
                ++ instability)
            ++ pattern) ∧
    (instability = [] ∨ instability = [speed_instability (MachineID e)]) ∧
    (pattern = [] ∨ ∃ k, pattern = [repeated_faults k]).
Proof.
  intros Hwf Hcb Hlen Hold span rate.
  pose proof (window_of_wf ad (MachineID e) Hwf) as Hw0.
  destruct (AnalyzeEvent_stages ad e Hw0) as (w & Hw & Hc & ->).
  destruct (history_newest ad e Hw0) as [Hnew _].
  rewrite <- Hc in Hlen, Hold, Hnew.
  rewrite (detectTrendAnomalies_run _ e w e oldest Hw Hlen Hnew Hold). simpl.
  destruct (detectPatternAnomalies_total ad e w Hw Hcb) as (pattern & -> & Hp).
  simpl. exists (inserted ad e w). eexists. exists pattern.
  rewrite !callback_inserted by done. fold span rate.
  split; [|split; [|done]].
  - destruct ((0 <? span)%float && (2 <? abs rate)%float); reflexivity.
  - destruct (detectSpeedInstability _); auto.
Qed.

Lemma rapid_temperature_change_raised_witness :
  (∃ ad' instability pattern,
      AnalyzeEvent (detector_after (rising4 500000000)) (rising5 500000000)
      = Some (ad',
              detectThresholdViolations (detector_after (rising4 500000000))
                                        (rising5 500000000)
              ++ ([rapid_temperature_change "m1"] ++ instability) ++ pattern) ∧
      (instability = [] ∨ instability = [speed_instability "m1"]) ∧
      (pattern = [] ∨ ∃ k, pattern = [repeated_faults k])) ∧
  (∃ ad' instability pattern,
      AnalyzeEvent (detector_after (rising4 15000000000)) (rising5 15000000000)
      = Some (ad',
              detectThresholdViolations (detector_after (rising4 15000000000))
                                        (rising5 15000000000)
              ++ ([] ++ instability) ++ pattern) ∧
      (instability = [] ∨ instability = [speed_instability "m1"]) ∧
      (pattern = [] ∨ ∃ k, pattern = [repeated_faults k])).
Proof.
  split.
  - apply (rapid_temperature_change_raised
             (detector_after (rising4 500000000)) (rising5 500000000)
             (reading 0 20 1 "ok")).
    + apply detector_after_wf.
    + apply detector_after_wf.
    + vm_compute. lia.
    + vm_compute. reflexivity.
  - apply (rapid_temperature_change_raised
             (detector_after (rising4 15000000000)) (rising5 15000000000)
             (reading 0 20 1 "ok")).
    + apply detector_after_wf.
    + apply detector_after_wf.
    + vm_compute. lia.
    + vm_compute. reflexivity.
Defined.

(** C3, as stated, fails: five events with the temperature rising from 20
    to 35 degrees and timestamps going back by 2 seconds in all. The rate
    is -7.5 degrees per second, above 2.0 in absolute value, and the
    analysis raises no alert at all. *)
Lemma rapid_temperature_change_counterexample :
  let oldest := reading 0 20 1 "ok" in
  let e := rising5 (-500000000) in
  let span := Seconds (Sub (Timestamp e) (Timestamp oldest)) in
  let rate := ((Temperature e - Temperature oldest) / span)%float in
  history (detector_after (rising4 (-500000000))) e
    = rising4 (-500000000) ++ [e] ∧
  (2 <? abs rate)%float = true ∧
  snd <$> AnalyzeEvent (detector_after (rising4 (-500000000))) e = Some [].
Proof. repeat split; vm_compute; reflexivity. Qed.

(** C10. With at least 5 events held and the newest not later than the
    4th-previous one, [detectRapidTemperatureChange] returns [false] without
    computing a rate, and the trend check raises no
    [rapid_temperature_change] alert: what it raises is the
    [speed_instability] alert or nothing. *)
Theorem rapid_check_needs_positive_span
    (ad : AnomalyDetector) (e : SensorEvent) (w : SlidingWindow)
    (newest oldest : SensorEvent) :
  wf_window w →
  5 ≤ length (contents w) →
  contents w !! (length (contents w) - 1) = Some newest →
  contents w !! (length (contents w) - 5) = Some oldest →
  (Timestamp newest ≤ Timestamp oldest)%Z →
  detectRapidTemperatureChange (lastn 10 (contents w)) = Some false ∧
  detectTrendAnomalies ad e w
  = Some (if detectSpeedInstability (lastn 10 (contents w))
          then callback ad (speed_instability (MachineID e)) else []).
Proof.
  intros Hw Hlen Hnew Hold Hts.
  pose proof (Seconds_nonpos _ (Sub_nonpos _ _ Hts)) as Hspan.
  split.
  - rewrite (detectRapidTemperatureChange_run _ newest oldest).
    + simpl. by rewrite Hspan.
    + rewrite length_lastn. lia.
    + by rewrite lookup_lastn by lia.
    + by rewrite lookup_lastn by lia.
  - rewrite (detectTrendAnomalies_run ad e w newest oldest Hw Hlen Hnew Hold).
    simpl. by rewrite Hspan.
Qed.

Lemma rapid_check_needs_positive_span_witness :
  detectRapidTemperatureChange
    (lastn 10 (contents (window_after (rising4 0 ++ [rising5 0])))) = Some false ∧
  detectTrendAnomalies (NewAnomalyDetector true) (rising5 0)
                       (window_after (rising4 0 ++ [rising5 0]))
  = Some (if detectSpeedInstability
               (lastn 10 (contents (window_after (rising4 0 ++ [rising5 0]))))
          then callback (NewAnomalyDetector true)
                        (speed_instability (MachineID (rising5 0)))
          else []).
Proof.
  apply (rapid_check_needs_positive_span
           (NewAnomalyDetector true) (rising5 0)
           (window_after (rising4 0 ++ [rising5 0]))
           (rising5 0) (reading 0 20 1 "ok")).
  - apply window_after_wf.
  - vm_compute. lia.
  - vm_compute. reflexivity.
  - vm_compute. reflexivity.
  - vm_compute. discriminate.
Defined.

(** ** The pattern check *)

(** C4. With at least 10 events in the last-20 tail of the machine's
    window, the analysis of the newest event succeeds and its pattern check
    raises exactly one high-severity [repeated_faults] alert when at least 3
    events of the tail have status [fault], and none when fewer do. The
    alerts before it are those of the threshold checks and of the trend
    check. *)
Theorem repeated_faults_raised (ad : AnomalyDetector) (e : SensorEvent) :
  wf_detector ad →
  alertCallback ad = true →
  10 ≤ length (lastn 20 (history ad e)) →
  ∃ ad' trend,
    AnalyzeEvent ad e
    = Some (ad',
            detectThresholdViolations ad e ++ trend
            ++ (if decide (3 ≤ faults (lastn 20 (history ad e)))
                then [repeated_faults (faults (lastn 20 (history ad e)))]
                else [])) ∧
    Severity (repeated_faults (faults (lastn 20 (history ad e)))) = "high" ∧
    Forall (λ a, a = rapid_temperature_change (MachineID e) ∨
                 a = speed_instability (MachineID e)) trend.
Proof.
  intros Hwf Hcb Hlen.
  pose proof (window_of_wf ad (MachineID e) Hwf) as Hw0.
  destruct (AnalyzeEvent_stages ad e Hw0) as (w & Hw & Hc & ->).
  destruct (history_newest ad e Hw0) as [Hnew _].
  rewrite <- Hc in Hlen, Hnew |- *.
  assert (Hlen5 : 5 ≤ length (contents w)) by (rewrite length_lastn in Hlen; lia).
  destruct (lookup_oldest _ Hlen5) as [oldest Hold].
  rewrite (detectTrendAnomalies_run _ e w e oldest Hw Hlen5 Hnew Hold). simpl.
  rewrite detectPatternAnomalies_run by done. simpl.
  rewrite !callback_inserted by done.
  exists (inserted ad e w).
  match goal with
  | |- context [detectThresholdViolations ad e ++ ?trend ++ _] => exists trend
  end.
  split; [|split; [done|]].
  - by case_decide.
  - apply Forall_app. split.
    + destruct (_ && _); [apply Forall_singleton; by left | constructor].
    + destruct (detectSpeedInstability _);
        [apply Forall_singleton; by right | constructor].
Qed.

Lemma repeated_faults_raised_witness :
  (∃ ad' trend,
      AnalyzeEvent (detector_after three_faults) twentieth
      = Some (ad',
              detectThresholdViolations (detector_after three_faults) twentieth
              ++ trend ++ [repeated_faults 3]) ∧
      Severity (repeated_faults 3) = "high" ∧
      Forall (λ a, a = rapid_temperature_change "m1" ∨
                   a = speed_instability "m1") trend) ∧
  (∃ ad' trend,
      AnalyzeEvent (detector_after two_faults) twentieth
      = Some (ad',
              detectThresholdViolations (detector_after two_faults) twentieth
              ++ trend ++ []) ∧
      Severity (repeated_faults 2) = "high" ∧
      Forall (λ a, a = rapid_temperature_change "m1" ∨
                   a = speed_instability "m1") trend).
Proof.
  split.
  - apply (repeated_faults_raised (detector_after three_faults) twentieth).
    + apply detector_after_wf.
    + apply detector_after_wf.
    + vm_compute. lia.
  - apply (repeated_faults_raised (detector_after two_faults) twentieth).
    + apply detector_after_wf.
    + apply detector_after_wf.
    + vm_compute. lia.
Defined.

(** ** Speed instability *)

Section instability.
Local Open Scope float_scope.

Lemma foldl_speeds (l : list SensorEvent) (acc : float * float) :
  foldl (λ (acc : float * float) event,
           (acc.1 + ConveyorSpeed event, acc.2 + ConveyorSpeed event * ConveyorSpeed event))
        acc l
  = foldl (λ (acc : float * float) v, (acc.1 + v, acc.2 + v * v))
          acc (ConveyorSpeed <$> l).
Proof. revert acc. induction l as [|x l IH]; intros acc; simpl; [done | apply IH]. Qed.

(** The test reads the conveyor speeds of its events and nothing else. *)
Lemma detectSpeedInstability_speeds (l1 l2 : list SensorEvent) :
  ConveyorSpeed <$> l1 = ConveyorSpeed <$> l2 →
  detectSpeedInstability l1 = detectSpeedInstability l2.
Proof.
  intros H. unfold detectSpeedInstability.
  assert (length l1 = length l2) as ->
    by (rewrite <- (length_fmap ConveyorSpeed l1), H; apply length_fmap).
  by rewrite !foldl_speeds, H.
Qed.
End instability.

(** C5, as the code has it. With at least 5 events of the machine held,
    the analysis of the newest event succeeds and its trend check raises
    one medium-severity [speed_instability] alert exactly when
    [detectSpeedInstability] holds of the last [min 10 size] events, the
    whole tail the trend check reads; that test depends on the conveyor
    speeds of these events only. *)
Theorem speed_instability_raised (ad : AnomalyDetector) (e : SensorEvent) :
  wf_detector ad →
  alertCallback ad = true →
  5 ≤ length (history ad e) →
  ∃ ad' rapid pattern,
    AnalyzeEvent ad e
    = Some (ad',
            detectThresholdViolations ad e
            ++ (rapid
                ++ (if detectSpeedInstability (lastn 10 (history ad e))
                    then [speed_instability (MachineID e)] else []))
            ++ pattern) ∧
    Severity (speed_instability (MachineID e)) = "medium" ∧
    (rapid = [] ∨ rapid = [rapid_temperature_change (MachineID e)]) ∧
    (pattern = [] ∨ ∃ k, pattern = [repeated_faults k]) ∧
    (∀ l : list SensorEvent,
        ConveyorSpeed <$> l = ConveyorSpeed <$> lastn 10 (history ad e) →
        detectSpeedInstability l = detectSpeedInstability (lastn 10 (history ad e))).
Proof.
  intros Hwf Hcb Hlen.
  pose proof (window_of_wf ad (MachineID e) Hwf) as Hw0.
  destruct (AnalyzeEvent_stages ad e Hw0) as (w & Hw & Hc & ->).
  destruct (history_newest ad e Hw0) as [Hnew _].
  rewrite <- Hc in Hlen, Hnew |- *.
  destruct (lookup_oldest _ Hlen) as [oldest Hold].
  rewrite (detectTrendAnomalies_run _ e w e oldest Hw Hlen Hnew Hold). simpl.
  destruct (detectPatternAnomalies_total ad e w Hw Hcb) as (pattern & -> & Hp).
  simpl. rewrite !callback_inserted by done.
  exists (inserted ad e w). eexists. exists pattern.
  split; [|split; [done|split; [|split; [done|]]]].
  - by destruct (detectSpeedInstability _).
  - destruct (_ && _); auto.
  - intros l. apply detectSpeedInstability_speeds.
Qed.

Lemma speed_instability_raised_witness :
  detectSpeedInstability
    (lastn 10 (history (detector_after (at_speed <$> [0; 0; 0; 0; 0; 3; 3; 3; 3]%float))
                       (at_speed 3))) = true ∧
  ∃ ad' rapid pattern,
    AnalyzeEvent (detector_after (at_speed <$> [0; 0; 0; 0; 0; 3; 3; 3; 3]%float))
                 (at_speed 3)
    = Some (ad',
            detectThresholdViolations
              (detector_after (at_speed <$> [0; 0; 0; 0; 0; 3; 3; 3; 3]%float))
              (at_speed 3)
            ++ (rapid
                ++ (if detectSpeedInstability
                         (lastn 10 (history
                                      (detector_after
                                         (at_speed <$> [0; 0; 0; 0; 0; 3; 3; 3; 3]%float))
                                      (at_speed 3)))
                    then [speed_instability (MachineID (at_speed 3))] else []))
            ++ pattern) ∧
    Severity (speed_instability (MachineID (at_speed 3))) = "medium" ∧
    (rapid = [] ∨ rapid = [rapid_temperature_change (MachineID (at_speed 3))]) ∧
    (pattern = [] ∨ ∃ k, pattern = [repeated_faults k]) ∧
    (∀ l : list SensorEvent,
        ConveyorSpeed <$> l
        = ConveyorSpeed <$>
            lastn 10 (history (detector_after
                                 (at_speed <$> [0; 0; 0; 0; 0; 3; 3; 3; 3]%float))
                              (at_speed 3)) →
        detectSpeedInstability l
        = detectSpeedInstability
            (lastn 10 (history (detector_after
                                  (at_speed <$> [0; 0; 0; 0; 0; 3; 3; 3; 3]%float))
                               (at_speed 3)))).
Proof.
  split; [vm_compute; reflexivity|].
  apply (speed_instability_raised
           (detector_after (at_speed <$> [0; 0; 0; 0; 0; 3; 3; 3; 3]%float))
           (at_speed 3)).
  - apply detector_after_wf.
  - apply detector_after_wf.
  - vm_compute. lia.
Defined.

(** C5, as stated, fails for every dispersion measure and every threshold:
    no function of the speeds of the last 5 events decides the alert. Two
    windows end with the same five speeds, all equal to 3 m/s; the first
    holds five slower events before them and raises the alert, the second
    holds these five only and does not. *)
Lemma speed_instability_counterexample :
  ¬ ∃ (measure : list float → float) (threshold : float),
      ∀ (ad : AnomalyDetector) (e : SensorEvent) ad' alerts,
        wf_detector ad → alertCallback ad = true →
        5 ≤ length (history ad e) →
        AnalyzeEvent ad e = Some (ad', alerts) →
        (speed_instability (MachineID e) ∈ alerts ↔
         (threshold <? measure (ConveyorSpeed <$> lastn 5 (history ad e)))%float = true).
Proof.
  intros (measure & threshold & H).
  set (ad1 := detector_after (at_speed <$> [0; 0; 0; 0; 0; 3; 3; 3; 3]%float)).
  set (ad2 := detector_after (at_speed <$> [3; 3; 3; 3]%float)).
  set (e := at_speed 3).
  destruct (AnalyzeEvent ad1 e) as [[ad1' alerts1]|] eqn:H1; [|by vm_compute in H1].
  destruct (AnalyzeEvent ad2 e) as [[ad2' alerts2]|] eqn:H2; [|by vm_compute in H2].
  assert (Hs : ConveyorSpeed <$> lastn 5 (history ad1 e)
               = ConveyorSpeed <$> lastn 5 (history ad2 e))
    by (vm_compute; reflexivity).
  assert (Hin : speed_instability (MachineID e) ∈ alerts1).
  { assert (alerts1 = [speed_instability "m1"]) as ->
      by (vm_compute in H1; injection H1 as _ <-; reflexivity).
    apply list_elem_of_singleton. reflexivity. }
  assert (Hout : speed_instability (MachineID e) ∉ alerts2).
  { assert (alerts2 = []) as ->
      by (vm_compute in H2; injection H2 as _ <-; reflexivity).
    apply not_elem_of_nil. }
  apply Hout.
  apply (H ad2 e ad2' alerts2); [apply detector_after_wf | apply detector_after_wf
                                | vm_compute; lia | done |].
  rewrite <- Hs.
  apply (H ad1 e ad1' alerts1); [apply detector_after_wf | apply detector_after_wf
                                | vm_compute; lia | done | done].
Qed.

(** ** The threshold checks *)

Section thresholds.
Local Open Scope float_scope.

Lemma ltb_asym (a b : float) : (a <? b) = true → (b <? a) = false.
Proof.
  rewrite !FloatAxioms.ltb_spec. unfold SFltb.
  rewrite (SFcompare_antisym (Prim2SF a) (Prim2SF b)).
  by destruct (SFcompare (Prim2SF a) (Prim2SF b)) as [[]|].
Qed.

Lemma flat_map_callback (ad : AnomalyDetector) (alerts : list Alert) :
  alertCallback ad = true → flat_map (callback ad) alerts = alerts.
Proof.
  intros Hcb. unfold callback. rewrite Hcb.
  induction alerts as [|a l IH]; simpl; [done | by f_equal].
Qed.

(** C1, as the code has it. Every quantity below its minimum or above its
    maximum raises exactly one threshold alert named after it:
    [conveyor_speed_low], [conveyor_speed_high] and [temperature_high] with
    severity high, [temperature_low] and [robot_angle_invalid] with severity
    medium. A quantity that is neither below its minimum nor above its
    maximum raises none: so it is for a quantity inside [min, max), and also
    for one equal to its maximum or not a number. The alerts come in the
    order speed, temperature, angle, and the status alert follows them: one
    alert with the event's own type, of severity high for the status
    [fault] and medium for [warning], and none for any other status. The
    four segments are fixed in every case, up to the text of the messages. *)
Theorem threshold_alerts (ad : AnomalyDetector) (e : SensorEvent) :
  alertCallback ad = true →
  ∃ speed temperature angle status,
    detectThresholdViolations ad e = speed ++ temperature ++ angle ++ status ∧
    (* conveyor speed *)
    ((ConveyorSpeed e <? ConveyorSpeedMin (thresholds ad)) = true →
     ∃ m, speed = [Build_Alert "conveyor_speed_low" "high" m]) ∧
    ((ConveyorSpeed e <? ConveyorSpeedMin (thresholds ad)) = false →
     (ConveyorSpeedMax (thresholds ad) <? ConveyorSpeed e) = true →
     ∃ m, speed = [Build_Alert "conveyor_speed_high" "high" m]) ∧
    ((ConveyorSpeed e <? ConveyorSpeedMin (thresholds ad)) = false →
     (ConveyorSpeedMax (thresholds ad) <? ConveyorSpeed e) = false →
     speed = []) ∧
    ((ConveyorSpeedMin (thresholds ad) <=? ConveyorSpeed e) = true →
     (ConveyorSpeed e <? ConveyorSpeedMax (thresholds ad)) = true →
     speed = []) ∧
    (* temperature *)
    ((Temperature e <? TemperatureMin (thresholds ad)) = true →
     ∃ m, temperature = [Build_Alert "temperature_low" "medium" m]) ∧
    ((Temperature e <? TemperatureMin (thresholds ad)) = false →
     (TemperatureMax (thresholds ad) <? Temperature e) = true →
     ∃ m, temperature = [Build_Alert "temperature_high" "high" m]) ∧
    ((Temperature e <? TemperatureMin (thresholds ad)) = false →
     (TemperatureMax (thresholds ad) <? Temperature e) = false →
     temperature = []) ∧
    ((TemperatureMin (thresholds ad) <=? Temperature e) = true →
     (Temperature e <? TemperatureMax (thresholds ad)) = true →
     temperature = []) ∧
    (* robot arm angle *)
    ((RobotArmAngle e <? RobotAngleMin (thresholds ad)) = true ∨
     (RobotAngleMax (thresholds ad) <? RobotArmAngle e) = true →
     ∃ m, angle = [Build_Alert "robot_angle_invalid" "medium" m]) ∧
    ((RobotArmAngle e <? RobotAngleMin (thresholds ad)) = false →
     (RobotAngleMax (thresholds ad) <? RobotArmAngle e) = false →
     angle = []) ∧
    ((RobotAngleMin (thresholds ad) <=? RobotArmAngle e) = true →
     (RobotArmAngle e <? RobotAngleMax (thresholds ad)) = true →
     angle = []) ∧
    (* status *)
    (Status e = "fault" →
     ∃ m, status = [Build_Alert (EventType e) "high" m]) ∧
    (Status e = "warning" →
     ∃ m, status = [Build_Alert (EventType e) "medium" m]) ∧
    (Status e ≠ "fault" → Status e ≠ "warning" → status = []) ∧
    Forall (λ a, AlertType a = EventType e) status.
Proof.
  intros Hcb. unfold detectThresholdViolations.
  rewrite (flat_map_callback ad _ Hcb).
  set (th := thresholds ad).
  eexists (if ConveyorSpeed e <? ConveyorSpeedMin th then [_]
           else if ConveyorSpeedMax th <? ConveyorSpeed e then [_] else []).
  eexists (if Temperature e <? TemperatureMin th then [_]
           else if TemperatureMax th <? Temperature e then [_] else []).
  eexists (if (RobotArmAngle e <? RobotAngleMin th)
              || (RobotAngleMax th <? RobotArmAngle e) then [_] else []).
  eexists (if String.eqb (Status e) "fault" then [_]
           else if String.eqb (Status e) "warning" then [_] else []).
  split.
  { destruct (ConveyorSpeed e <? ConveyorSpeedMin th),
             (ConveyorSpeedMax th <? ConveyorSpeed e),
             (Temperature e <? TemperatureMin th),
             (TemperatureMax th <? Temperature e),
             ((RobotArmAngle e <? RobotAngleMin th)
              || (RobotAngleMax th <? RobotArmAngle e)),
             (String.eqb (Status e) "fault"),
             (String.eqb (Status e) "warning"); reflexivity. }
  split; [intros ->; by eexists|].
  split; [intros -> ->; by eexists|].
  split; [by intros -> ->|].
  split; [intros H1%leb_ltb_false H2%ltb_asym; by rewrite H1, H2|].
  split; [intros ->; by eexists|].
  split; [intros -> ->; by eexists|].
  split; [by intros -> ->|].
  split; [intros H1%leb_ltb_false H2%ltb_asym; by rewrite H1, H2|].
  split; [intros [-> | ->]; rewrite ?orb_true_r; by eexists|].
  split; [by intros -> ->|].
  split; [intros H1%leb_ltb_false H2%ltb_asym; by rewrite H1, H2|].
  split; [intros ->; by eexists|].
  split; [intros ->; by eexists|].
  split.
  { intros Hf Hw.
    destruct (String.eqb_spec (Status e) "fault"); [done|].
    by destruct (String.eqb_spec (Status e) "warning"). }
  destruct (String.eqb (Status e) "fault");
    [|destruct (String.eqb (Status e) "warning")]; by repeat constructor.
Qed.

Lemma threshold_alerts_witness :
  ∃ speed temperature angle status,
    detectThresholdViolations (NewAnomalyDetector true) (reading 0 10 4 "ok")
    = speed ++ temperature ++ angle ++ status ∧
    ((4 <? 0.1) = true → ∃ m, speed = [Build_Alert "conveyor_speed_low" "high" m]) ∧
    ((4 <? 0.1) = false → (3.5 <? 4) = true →
     ∃ m, speed = [Build_Alert "conveyor_speed_high" "high" m]) ∧
    ((4 <? 0.1) = false → (3.5 <? 4) = false → speed = []) ∧
    ((0.1 <=? 4) = true → (4 <? 3.5) = true → speed = []) ∧
    ((10 <? 15) = true →
     ∃ m, temperature = [Build_Alert "temperature_low" "medium" m]) ∧
    ((10 <? 15) = false → (85 <? 10) = true →
     ∃ m, temperature = [Build_Alert "temperature_high" "high" m]) ∧
    ((10 <? 15) = false → (85 <? 10) = false → temperature = []) ∧
    ((15 <=? 10) = true → (10 <? 85) = true → temperature = []) ∧
    ((90 <? 0) = true ∨ (180 <? 90) = true →
     ∃ m, angle = [Build_Alert "robot_angle_invalid" "medium" m]) ∧
    ((90 <? 0) = false → (180 <? 90) = false → angle = []) ∧
    ((0 <=? 90) = true → (90 <? 180) = true → angle = []) ∧
    ("ok" = "fault" → ∃ m, status = [Build_Alert "reading" "high" m]) ∧
    ("ok" = "warning" → ∃ m, status = [Build_Alert "reading" "medium" m]) ∧
    ("ok" ≠ "fault" → "ok" ≠ "warning" → status = []) ∧
    Forall (λ a, AlertType a = "reading") status.
Proof. apply (threshold_alerts (NewAnomalyDetector true) (reading 0 10 4 "ok")). done. Defined.

(** C1, as stated, fails on the severity of a low temperature: at 10
    degrees, below the minimum of 15, the alert raised is
    [temperature_low] with severity medium, and no alert of that type has
    severity high. *)
Lemma threshold_alerts_counterexample :
  (Temperature (reading 0 10 1 "ok")
   <? TemperatureMin (thresholds (NewAnomalyDetector true))) = true ∧
  ¬ ∃ a, a ∈ detectThresholdViolations (NewAnomalyDetector true) (reading 0 10 1 "ok") ∧
         AlertType a = "temperature_low" ∧ Severity a = "high".
Proof.
  split; [reflexivity|]. intros (a & Ha & _ & Hs).
  vm_compute in Ha. apply list_elem_of_singleton in Ha. subst a. discriminate Hs.
Qed.
End thresholds.

(** ** One faulty event, end to end *)

(** C8. With the speed range [0.5, 3.0], 72 degrees and 90 degrees of
    angle in range and no window yet for machine m1, the analysis of the
    jammed-conveyor event raises exactly two alerts: [conveyor_speed_low]
    with severity high, then a high-severity alert of type [conveyor_jam]
    whose message carries the description of the event's additional data
    when that is a string, and the event type otherwise. *)
Theorem conveyor_jam_alerts (ad : AnomalyDetector) (ts : Time)
    (extra : gmap string JSONValue) :
  alertCallback ad = true →
  ConveyorSpeedMin (thresholds ad) = 0.5%float →
  ConveyorSpeedMax (thresholds ad) = 3.0%float →
  (72 <? TemperatureMin (thresholds ad))%float = false →
  (TemperatureMax (thresholds ad) <? 72)%float = false →
  (90 <? RobotAngleMin (thresholds ad))%float = false →
  (RobotAngleMax (thresholds ad) <? 90)%float = false →
  slidingWindow ad !! "m1" = None →
  ∃ ad',
    AnalyzeEvent ad {| Timestamp := ts; MachineID := "m1"; ConveyorSpeed := 0.0;
                       Temperature := 72; RobotArmAngle := 90; Status := "fault";
                       EventType := "conveyor_jam"; AdditionalData := extra |}
    = Some (ad',
            [ {| AlertType := "conveyor_speed_low"; Severity := "high";
                 AlertMessage :=
                   Sprintf "Conveyor speed below minimum threshold: %.2f m/s (min: %.2f)"
                           [ArgF 0.0; ArgF 0.5] |};
              {| AlertType := "conveyor_jam"; Severity := "high";
                 AlertMessage :=
                   match extra !! "description" with
                   | Some (JString faultDesc) =>
                       Sprintf "Machine fault: %s" [ArgS faultDesc]
                   | _ => Sprintf "Machine fault detected: %s" [ArgS "conveyor_jam"]
                   end |} ]).
Proof.
  intros Hcb Hmin Hmax Ht1 Ht2 Ha1 Ha2 Hnone.
  set (e := {| Timestamp := ts; MachineID := "m1" |}).
  assert (Hwin : window_of ad (MachineID e) = NewSlidingWindow 50)
    by (unfold window_of; simpl; by rewrite Hnone).
  assert (Hw0 : wf_window (window_of ad (MachineID e)))
    by (rewrite Hwin; apply NewSlidingWindow_wf; lia).
  destruct (AnalyzeEvent_stages ad e Hw0) as (w & Hw & Hc & ->).
  assert (Hh : contents w = [e]) by (rewrite Hc; unfold history; by rewrite Hwin).
  rewrite detectTrendAnomalies_short by (done || rewrite Hh; simpl; lia). simpl.
  rewrite detectPatternAnomalies_short
    by (done || rewrite Hh, length_lastn; simpl; lia).
  simpl. exists (inserted ad e w). do 2 f_equal.
  unfold detectThresholdViolations. rewrite (flat_map_callback ad _ Hcb).
  simpl. rewrite Hmin, Hmax, Ht1, Ht2, Ha1, Ha2. simpl.
  change (0 <? 0.5)%float with true. simpl.
  by destruct (extra !! "description") as [[]|].
Qed.

Lemma conveyor_jam_alerts_witness :
  ∃ ad',
    AnalyzeEvent {| thresholds := {| ConveyorSpeedMin := 0.5; ConveyorSpeedMax := 3.0;
                                     TemperatureMin := 15.0; TemperatureMax := 85.0;
                                     RobotAngleMin := 0.0; RobotAngleMax := 180.0 |};
                    slidingWindow := ∅; alertCallback := true |}
                 {| Timestamp := 0%Z; MachineID := "m1"; ConveyorSpeed := 0.0;
                    Temperature := 72; RobotArmAngle := 90; Status := "fault";
                    EventType := "conveyor_jam";
                    AdditionalData := {[ "description" := JString "belt blocked" ]} |}
    = Some (ad',
            [ {| AlertType := "conveyor_speed_low"; Severity := "high";
                 AlertMessage :=
                   Sprintf "Conveyor speed below minimum threshold: %.2f m/s (min: %.2f)"
                           [ArgF 0.0; ArgF 0.5] |};
              {| AlertType := "conveyor_jam"; Severity := "high";
                 AlertMessage :=
                   match ({[ "description" := JString "belt blocked" ]}
                            : gmap string JSONValue) !! "description" with
                   | Some (JString faultDesc) =>
                       Sprintf "Machine fault: %s" [ArgS faultDesc]
                   | _ => Sprintf "Machine fault detected: %s" [ArgS "conveyor_jam"]
                   end |} ]).
Proof.
  apply (conveyor_jam_alerts
           {| thresholds := {| ConveyorSpeedMin := 0.5; ConveyorSpeedMax := 3.0;
                               TemperatureMin := 15.0; TemperatureMax := 85.0;
                               RobotAngleMin := 0.0; RobotAngleMax := 180.0 |};
              slidingWindow := ∅; alertCallback := true |}
           0%Z {[ "description" := JString "belt blocked" ]});
    reflexivity.
Defined.

(** ** The consumer *)

Section consumer.
Local Open Scope float_scope.

Lemma validStatuses_spec (s : string) :
  default false (validStatuses !! s) = true ↔ s ∈ ["ok"; "warning"; "fault"].
Proof.
  unfold validStatuses. rewrite !lookup_insert, lookup_singleton.
  rewrite !elem_of_cons, elem_of_nil.
  repeat case_decide; simpl; naive_solver.
Qed.

Lemma in_range_within (lo hi v : float) :
  is_nan lo = false → is_nan hi = false → is_nan v = false →
  (v <? lo) || (hi <? v) = false ↔ within lo hi v.
Proof.
  intros Hlo Hhi Hv. unfold within.
  rewrite (leb_negb_ltb lo v Hlo Hv), (leb_negb_ltb v hi Hv Hhi).
  destruct (v <? lo), (hi <? v); simpl; naive_solver.
Qed.

Lemma trySend_offered {A} (ch : chan A) (v : A) :
  closed ch = false →
  (∃ ch', trySend ch v = Sent ch' ∧ offered ch v ch') ∨
  (trySend ch v = WouldBlock ∧ offered ch v ch).
Proof.
  intros Hc. unfold trySend, offered. rewrite Hc.
  destruct (Nat.ltb_spec (length (buf ch)) (cap ch)).
  - left. eexists. split; [done|]. split; [done | lia].
  - right. split; [done|]. split; [lia | done].
Qed.

Lemma validateEvent_valid (event : SensorEvent) :
  decoded_numbers event → validateEvent event = None ↔ valid_event event.
Proof.
  intros (Hs & Ht & Ha). unfold validateEvent, valid_event.
  pose proof (validStatuses_spec (Status event)) as Hst.
  pose proof (in_range_within 0 10 (ConveyorSpeed event) eq_refl eq_refl Hs) as Hr1.
  pose proof (in_range_within (-50) 200 (Temperature event) eq_refl eq_refl Ht) as Hr2.
  pose proof (in_range_within 0 360 (RobotArmAngle event) eq_refl eq_refl Ha) as Hr3.
  destruct (String.eqb_spec (MachineID event) ""); [naive_solver|].
  destruct (String.eqb_spec (Status event) "") as [He|?].
  { split; [done|]. intros (_ & _ & Hin & _). rewrite He in Hin.
    apply (validStatuses_spec "") in Hin. by vm_compute in Hin. }
  destruct (String.eqb_spec (EventType event) ""); [naive_solver|].
  destruct (default false (validStatuses !! Status event)); simpl; [|naive_solver].
  destruct ((ConveyorSpeed event <? 0) || (10 <? ConveyorSpeed event));
    [naive_solver|].
  destruct ((Temperature event <? -50) || (200 <? Temperature event));
    [naive_solver|].
  destruct ((RobotArmAngle event <? 0) || (360 <? RobotArmAngle event));
    naive_solver.
Qed.
End consumer.

(** C7, as the code has it. On a consumer whose channels are open,
    [processMessage] returns. A decoded event with JSON numbers passes
    [validateEvent] exactly when it is valid in the words of the
    specification. A message that fails decoding or validation never
    reaches the event channel, and its error is offered to the error
    channel: queued when that channel has room, dropped when it is full. A
    valid event leaves the error channel alone and is offered to the event
    channel in the same way. *)
Theorem processMessage_routes (json_Unmarshal : string → error + SensorEvent)
    (c : Consumer) (Value : string) :
  closed (eventChannel c) = false →
  closed (errorChannel c) = false →
  ∃ c', processMessage json_Unmarshal c Value = Some c' ∧
    match json_Unmarshal Value with
    | inl err =>
        eventChannel c' = eventChannel c ∧
        offered (errorChannel c) (Wrapf "failed to unmarshal message: %v" err)
                (errorChannel c')
    | inr event =>
        (decoded_numbers event → validateEvent event = None ↔ valid_event event) ∧
        match validateEvent event with
        | Some err =>
            eventChannel c' = eventChannel c ∧
            offered (errorChannel c) (Wrapf "invalid event: %v" err) (errorChannel c')
        | None =>
            errorChannel c' = errorChannel c ∧
            offered (eventChannel c) event (eventChannel c')
        end
    end.
Proof.
  intros Hev Her. unfold processMessage.
  destruct (json_Unmarshal Value) as [err|event].
  - destruct (trySend_offered (errorChannel c)
                (Wrapf "failed to unmarshal message: %v" err) Her)
      as [(ch & -> & Ho) | [-> Ho]]; eexists; by split.
  - pose proof (validateEvent_valid event) as Hvalid. revert Hvalid.
    destruct (validateEvent event) as [err|]; intros Hvalid.
    + destruct (trySend_offered (errorChannel c) (Wrapf "invalid event: %v" err) Her)
        as [(ch & -> & Ho) | [-> Ho]]; eexists;
        (split; [done|]); (split; [exact Hvalid|]); (split; [done | exact Ho]).
    + destruct (trySend_offered (eventChannel c) event Hev)
        as [(ch & -> & Ho) | [-> Ho]]; eexists;
        (split; [done|]); (split; [exact Hvalid|]); (split; [done | exact Ho]).
Qed.

Lemma processMessage_routes_witness :
  ∃ c', processMessage (λ _, inr e1)
                       {| eventChannel := Chan [] 100 false;
                          errorChannel := Chan [] 10 false |} "payload" = Some c' ∧
    ((decoded_numbers e1 → validateEvent e1 = None ↔ valid_event e1) ∧
     match validateEvent e1 with
     | Some err =>
         eventChannel c' = Chan [] 100 false ∧
         offered (Chan [] 10 false) (Wrapf "invalid event: %v" err) (errorChannel c')
     | None =>
         errorChannel c' = Chan [] 10 false ∧
         offered (Chan [] 100 false) e1 (eventChannel c')
     end).
Proof.
  apply (processMessage_routes (λ _, inr e1)
           {| eventChannel := Chan [] 100 false; errorChannel := Chan [] 10 false |}
           "payload"); reflexivity.
Defined.

(** A NaN reading passes every range test of [validateEvent]: the event
    is accepted although no quantity of it is within a range. *)
Example validateEvent_accepts_nan :
  validateEvent (reading 0 nan 1 "ok") = None ∧
  ¬ within (-50) 200 (Temperature (reading 0 nan 1 "ok")).
Proof. split; [vm_compute; reflexivity | by intros [H _]]. Qed.

(** C7, as stated, fails when a channel is full. With 100 events queued in
    the event channel, a valid event is not forwarded; with 10 errors
    queued in the error channel, a payload that does not decode is not
    reported. The consumer is left as it was in both cases. *)
Lemma processMessage_counterexample :
  validateEvent e1 = None ∧
  processMessage (λ _, inr e1)
    {| eventChannel := Chan (replicate 100 e2) 100 false;
       errorChannel := Chan [] 10 false |} "payload"
  = Some {| eventChannel := Chan (replicate 100 e2) 100 false;
            errorChannel := Chan [] 10 false |} ∧
  processMessage (λ _, inl (Errorf "unexpected end of JSON input" []))
    {| eventChannel := Chan [] 100 false;
       errorChannel := Chan (replicate 10 (Errorf "earlier" [])) 10 false |} "{"
  = Some {| eventChannel := Chan [] 100 false;
            errorChannel := Chan (replicate 10 (Errorf "earlier" [])) 10 false |}.
Proof. repeat split; vm_compute; reflexivity. Qed.

(** ** The hub *)

Section hub.
Implicit Types (h : Hub) (client : ClientPtr) (order : list ClientPtr).

Lemma deliver_registered (message : string) h client (registered : bool)
    (send : chan string) :
  clients h !! client = Some registered →
  mailboxes h !! client = Some send →
  closed send = false →
  ∃ h', deliver message h client = Some h' ∧ delivered message h h' client ∧
        ∀ other, other ≠ client →
                 clients h' !! other = clients h !! other ∧
                 mailboxes h' !! other = mailboxes h !! other.
Proof.
  intros Hc Hm Hopen. unfold deliver, delivered, trySend, close.
  rewrite Hc, Hm. simpl. rewrite Hopen.
  destruct (length (buf send) <? cap send); simpl; eexists; (split; [done|]); simpl.
  - rewrite lookup_insert_eq. split; [done|]. intros other Hne.
    by rewrite lookup_insert_ne.
  - rewrite lookup_delete_eq, lookup_insert_eq. split; [done|]. intros other Hne.
    by rewrite lookup_delete_ne, lookup_insert_ne.
Qed.

Lemma delivered_same (message : string) h1 h2 h1' h2' client :
  clients h1 !! client = clients h2 !! client →
  mailboxes h1 !! client = mailboxes h2 !! client →
  clients h1' !! client = clients h2' !! client →
  mailboxes h1' !! client = mailboxes h2' !! client →
  delivered message h1 h1' client → delivered message h2 h2' client.
Proof. unfold delivered. by intros -> -> -> ->. Qed.

(** The loop visits the clients of [order] one after the other; each is
    served as if it were alone, whatever the order. *)
Lemma broadcast_run (message : string) order h :
  NoDup order →
  (∀ client, client ∈ order →
     is_Some (clients h !! client) ∧
     ∃ send, mailboxes h !! client = Some send ∧ closed send = false) →
  ∃ h', broadcast message order h = Some h' ∧
        ∀ client,
          (client ∈ order → delivered message h h' client) ∧
          (client ∉ order →
           clients h' !! client = clients h !! client ∧
           mailboxes h' !! client = mailboxes h !! client).
Proof.
  revert h. induction order as [|c0 order IH]; intros h Hnd Hreg; simpl.
  - exists h. split; [done|]. intros client. split; [by intros ?%elem_of_nil | done].
  - apply NoDup_cons in Hnd as [Hc0 Hnd].
    destruct (Hreg c0) as ([registered Hc] & send & Hm & Hopen); [by left|].
    destruct (deliver_registered message h c0 registered send Hc Hm Hopen)
      as (h1 & -> & Hd0 & Hother). simpl.
    destruct (IH h1 Hnd) as (h' & -> & Hrest).
    { intros client Hin. assert (client ≠ c0) as Hne by (by intros ->).
      destruct (Hother client Hne) as [-> ->]. apply Hreg. by right. }
    exists h'. split; [done|]. intros client. split.
    + intros [->|Hin]%elem_of_cons.
      * destruct (Hrest c0) as [_ [Hc1 Hm1]]; [done|].
        by apply (delivered_same message h h h1 h').
      * assert (client ≠ c0) as Hne by (by intros ->).
        destruct (Hother client Hne) as [Hc1 Hm1].
        destruct (Hrest client) as [Hd _].
        by apply (delivered_same message h1 h h' h'); [..|apply Hd].
    + intros Hnin. apply not_elem_of_cons in Hnin as [Hne Hnin].
      destruct (Hother client Hne) as [<- <-]. by apply Hrest.
Qed.

Lemma hub_ok_range (h : Hub) order client :
  hub_ok h → range_order h order → client ∈ order →
  is_Some (clients h !! client) ∧
  ∃ send, mailboxes h !! client = Some send ∧ closed send = false.
Proof.
  intros Hok [_ Hr] Hin. apply Hr in Hin. split; [done | by apply Hok].
Qed.
End hub.

(** C6. One broadcast of [message] on a hub that satisfies its invariant,
    in whatever order the clients are visited: the loop returns; every
    registered client whose mailbox has room keeps its registration and has
    [message] queued last; every registered client whose mailbox is full is
    removed from the registry and its channel is closed; no other mailbox
    changes; the invariant holds again. With a second broadcast right after
    it, a registered client whose mailbox has capacity 1 is unregistered,
    while each client with room for two messages holds both, in publish
    order. *)
Theorem broadcast_delivers_or_drops (message : string) (order : list ClientPtr)
    (h : Hub) :
  hub_ok h →
  range_order h order →
  ∃ h', broadcast message order h = Some h' ∧
    hub_ok h' ∧
    (∀ client registered send,
        clients h !! client = Some registered →
        mailboxes h !! client = Some send →
        (length (buf send) < cap send →
         clients h' !! client = Some registered ∧
         mailboxes h' !! client
         = Some {| buf := buf send ++ [message]; cap := cap send; closed := false |}) ∧
        (cap send ≤ length (buf send) →
         clients h' !! client = None ∧
         mailboxes h' !! client
         = Some {| buf := buf send; cap := cap send; closed := true |})) ∧
    (∀ client, clients h !! client = None →
               clients h' !! client = None ∧
               mailboxes h' !! client = mailboxes h !! client) ∧
    (∀ (message2 : string) (order2 : list ClientPtr),
        range_order h' order2 →
        ∃ h'', broadcast message2 order2 h' = Some h'' ∧
          (∀ slow registered send,
              clients h !! slow = Some registered →
              mailboxes h !! slow = Some send →
              cap send = 1 →
              clients h'' !! slow = None) ∧
          (∀ client registered send,
              clients h !! client = Some registered →
              mailboxes h !! client = Some send →
              length (buf send) + 2 ≤ cap send →
              clients h'' !! client = Some registered ∧
              mailboxes h'' !! client
              = Some {| buf := buf send ++ [message; message2];
                        cap := cap send; closed := false |})).
Proof.
  intros Hok Hr.
  destruct (broadcast_run message order h (proj1 Hr)) as (h' & Hb & Heff).
  { intros client. by apply hub_ok_range. }
  assert (Hone : ∀ client registered send,
             clients h !! client = Some registered →
             mailboxes h !! client = Some send →
             (length (buf send) < cap send →
              clients h' !! client = Some registered ∧
              mailboxes h' !! client
              = Some {| buf := buf send ++ [message]; cap := cap send;
                        closed := false |}) ∧
             (cap send ≤ length (buf send) →
              clients h' !! client = None ∧
              mailboxes h' !! client
              = Some {| buf := buf send; cap := cap send; closed := true |})).
  { intros client registered send Hc Hm.
    destruct (Heff client) as [Hd _].
    assert (Hin : client ∈ order) by (apply Hr; by eexists).
    specialize (Hd Hin). unfold delivered in Hd. rewrite Hc, Hm in Hd.
    destruct (Nat.ltb_spec (length (buf send)) (cap send)); split; (done || lia). }
  assert (Hnone : ∀ client, clients h !! client = None →
                            clients h' !! client = None ∧
                            mailboxes h' !! client = mailboxes h !! client).
  { intros client Hc. destruct (Heff client) as [_ Hu].
    assert (Hnin : client ∉ order).
    { intros Hin%Hr. rewrite Hc in Hin. by destruct Hin. }
    destruct (Hu Hnin) as [-> ->]. by rewrite Hc. }
  assert (Hok' : hub_ok h').
  { intros client [registered' Hc'].
    destruct (clients h !! client) as [registered|] eqn:Hc;
      [|destruct (Hnone client Hc); congruence].
    destruct (Hok client) as (send & Hm & Hopen); [by eexists|].
    destruct (Hone client registered send Hc Hm) as [Hroom Hfull].
    destruct (Nat.lt_ge_cases (length (buf send)) (cap send)) as [Hlt|Hge].
    - destruct (Hroom Hlt) as [_ Hm']. eexists. by split.
    - destruct (Hfull Hge) as [Hgone _]. congruence. }
  exists h'. split; [done|]. split; [done|]. split; [done|]. split; [done|].
  intros message2 order2 Hr2.
  destruct (broadcast_run message2 order2 h' (proj1 Hr2)) as (h'' & Hb2 & Heff2).
  { intros client. by apply hub_ok_range. }
  exists h''. split; [done|]. split.
  - intros slow registered send Hc Hm Hcap.
    destruct (Hone slow registered send Hc Hm) as [Hroom Hfull].
    destruct (Nat.lt_ge_cases (length (buf send)) (cap send)) as [Hlt|Hge].
    + destruct (Hroom Hlt) as [Hc' Hm']. destruct (Heff2 slow) as [Hd _].
      assert (Hin : slow ∈ order2) by (apply Hr2; by eexists).
      specialize (Hd Hin). unfold delivered in Hd. rewrite Hc', Hm' in Hd.
      simpl in Hd. rewrite length_app in Hd. simpl in Hd.
      replace (length (buf send) + 1 <? cap send) with false in Hd
        by (symmetry; apply Nat.ltb_ge; lia).
      by destruct Hd.
    + destruct (Hfull Hge) as [Hgone _]. destruct (Heff2 slow) as [_ Hu].
      assert (Hnin : slow ∉ order2).
      { intros Hin%Hr2. rewrite Hgone in Hin. by destruct Hin. }
      destruct (Hu Hnin) as [-> _]. done.
  - intros client registered send Hc Hm Hcap.
    destruct (Hone client registered send Hc Hm) as [Hroom _].
    destruct Hroom as [Hc' Hm']; [lia|]. destruct (Heff2 client) as [Hd _].
    assert (Hin : client ∈ order2) by (apply Hr2; by eexists).
    specialize (Hd Hin). unfold delivered in Hd. rewrite Hc', Hm' in Hd.
    simpl in Hd. rewrite length_app in Hd. simpl in Hd.
    replace (length (buf send) + 1 <? cap send) with true in Hd
      by (symmetry; apply Nat.ltb_lt; lia).
    by rewrite <- app_assoc in Hd.
Qed.

Lemma three_subscribers_ok : hub_ok three_subscribers.
Proof.
  intros client [registered H]. unfold three_subscribers in *. simpl in *.
  apply lookup_insert_Some in H as [[<- _]|[_ H]]; [by eexists|].
  apply lookup_insert_Some in H as [[<- _]|[_ H]]; [by eexists|].
  apply lookup_singleton_Some in H as [<- _]. by eexists.
Qed.

Lemma three_subscribers_order : range_order three_subscribers [3; 1; 2].
Proof.
  split.
  - repeat (apply NoDup_cons; split; [set_solver|]). apply NoDup_nil_2.
  - intros client. unfold three_subscribers. simpl. split.
    + rewrite !elem_of_cons, elem_of_nil. intros [->|[->|[->|[]]]]; by eexists.
    + intros [registered H].
      apply lookup_insert_Some in H as [[<- _]|[_ H]]; [set_solver|].
      apply lookup_insert_Some in H as [[<- _]|[_ H]]; [set_solver|].
      apply lookup_singleton_Some in H as [<- _]. set_solver.
Qed.

Lemma broadcast_delivers_or_drops_witness :
  ∃ h', broadcast "tick" [3; 1; 2] three_subscribers = Some h' ∧ hub_ok h'.
Proof.
  destruct (broadcast_delivers_or_drops "tick" [3; 1; 2] three_subscribers
              three_subscribers_ok three_subscribers_order)
    as (h' & Hb & Hok & _).
  exists h'. by split.
Defined.

(** Two publishes to the three subscribers: the slow one takes the first
    message and is dropped by the second; the other two hold both. *)
Example slow_subscriber_dropped :
  (h' ← broadcast "first" [3; 1; 2] three_subscribers; broadcast "second" [2; 1; 3] h')
  = Some {| clients := {[ 2 := true; 3 := true ]};
            mailboxes := {[ 1 := Chan ["first"] 1 true;
                            2 := Chan ["first"; "second"] 256 false;
                            3 := Chan ["connected"; "first"; "second"] 256 false ]} |}.
Proof. vm_compute. reflexivity. Qed.

(** * Further properties of the code *)

(** ** The sliding window: tails and shared snapshots *)



Lemma AddAll_take (evs : list SensorEvent) (sw sw' : SlidingWindow) (k : nat) :
  AddAll sw evs = Some sw' →
  k ≤ position sw →
  position sw + length evs ≤ maxSize sw →
  take k (events sw') = take k (events sw).
Proof.
  revert sw. induction evs as [|e evs IH]; intros sw Hadd Hk Hroom; simpl in *.
  - by simplify_eq.
  - destruct (Add sw e) as [sw1|] eqn:H1; simpl in Hadd; [|done].
    unfold Add in H1.
    destruct (decide (position sw < length (events sw))); [|done].
    destruct (decide (maxSize sw = 0)); simplify_eq.
    destruct evs as [|e' evs].
    + simpl in Hadd. simplify_eq. simpl. by rewrite take_insert_ge.
    + simpl in Hroom.
      assert (Hpos : (position sw + 1) mod maxSize sw = position sw + 1)
        by (apply Nat.mod_small; lia).
      rewrite (IH _ Hadd); simpl; rewrite ?Hpos; [|lia..].
      by rewrite take_insert_ge.
Qed.

(** X2. The snapshot of a window below capacity stays as it was taken for as
    long as the window does not wrap around: the next [maxSize - position]
    calls of [Add] write behind it. *)
Theorem GetEvents_stable_until_wrap (sw : SlidingWindow) (evs : list SensorEvent) :
  wf_window sw →
  full sw = false →
  position sw + length evs ≤ maxSize sw →
  ∃ s sw', GetEvents sw = Some s ∧ AddAll sw evs = Some sw' ∧
           view sw' s = view sw s.
Proof.
  intros Hwf Hfull Hroom.
  destruct (AddAll_held sw evs Hwf) as (sw' & Hadd & _).
  destruct Hwf as [Hl _ Hp _].
  exists (Shared 0 (position sw)), sw'. unfold GetEvents. rewrite Hfull. simpl.
  rewrite decide_True by lia. split; [done|]. split; [done|].
  rewrite Nat.sub_0_r. by apply (AddAll_take evs).
Qed.

Lemma GetEvents_stable_until_wrap_witness :
  ∃ s sw', GetEvents (window_after [e1]) = Some s ∧
           AddAll (window_after [e1]) (replicate 49 e2) = Some sw' ∧
           view sw' s = view (window_after [e1]) s.
Proof.
  apply (GetEvents_stable_until_wrap (window_after [e1]) (replicate 49 e2)).
  - apply window_after_wf.
  - reflexivity.
  - vm_compute. lia.
Defined.

(** ** The detector: totality, windows per machine, silent callback *)

Section detector_runs.
Implicit Types (ad : AnomalyDetector) (e : SensorEvent) (w : SlidingWindow).

Lemma detectTrendAnomalies_callback ad1 ad2 e w :
  alertCallback ad1 = alertCallback ad2 →
  detectTrendAnomalies ad1 e w = detectTrendAnomalies ad2 e w.
Proof. unfold detectTrendAnomalies, callback. by intros ->. Qed.

Lemma detectPatternAnomalies_callback ad1 ad2 e w :
  alertCallback ad1 = alertCallback ad2 →
  detectPatternAnomalies ad1 e w = detectPatternAnomalies ad2 e w.
Proof. unfold detectPatternAnomalies, callback. by intros ->. Qed.

Lemma detectTrendAnomalies_Some ad e w :
  wf_window w → is_Some (detectTrendAnomalies ad e w).
Proof.
  intros Hw. destruct (decide (5 ≤ length (contents w))) as [Hlen|Hlen].
  - destruct (lookup_oldest _ Hlen) as [oldest Hold].
    destruct (lookup_lt_is_Some_2 (contents w) (length (contents w) - 1))
      as [newest Hnew]; [lia|].
    by rewrite (detectTrendAnomalies_run ad e w newest oldest).
  - by rewrite detectTrendAnomalies_short by (done || lia).
Qed.

Lemma detectPatternAnomalies_Some ad e w :
  wf_window w → is_Some (detectPatternAnomalies ad e w).
Proof.
  intros Hw. destruct (decide (10 ≤ length (lastn 20 (contents w)))).
  - by rewrite detectPatternAnomalies_run.
  - by rewrite detectPatternAnomalies_short by (done || lia).
Qed.

(** On a well-formed window of the machine the analysis returns, and the
    window it leaves has the capacity of the one it found. *)
Lemma AnalyzeEvent_Some ad e :
  wf_window (window_of ad (MachineID e)) →
  ∃ w alerts,
    AnalyzeEvent ad e = Some (inserted ad e w, alerts) ∧
    wf_window w ∧ contents w = history ad e ∧
    maxSize w = maxSize (window_of ad (MachineID e)).
Proof.
  intros Hw0.
  destruct (Add_held _ e Hw0) as (w & Hadd & Hw & Hmax & Hheld).
  destruct (Add_history ad e Hw0) as (w' & Hadd' & _ & Hc).
  assert (w' = w) as -> by congruence.
  destruct (detectTrendAnomalies_Some (inserted ad e w) e w Hw) as [t Ht].
  destruct (detectPatternAnomalies_Some (inserted ad e w) e w Hw) as [p Hp].
  exists w. eexists. split; [|done].
  unfold AnalyzeEvent. fold (window_of ad (MachineID e)). rewrite Hadd. simpl.
  fold (inserted ad e w). by rewrite Ht, Hp.
Qed.

Lemma holds_last_50_window ad (past : list SensorEvent) (id : string) :
  holds_last_50 ad past →
  wf_window (window_of ad id) ∧ maxSize (window_of ad id) = 50 ∧
  contents (window_of ad id) = lastn 50 (filter (λ ev, MachineID ev = id) past).
Proof.
  intros H. specialize (H id). unfold window_of.
  destruct (slidingWindow ad !! id) as [w|].
  - naive_solver.
  - rewrite H. split; [apply NewSlidingWindow_wf; lia | done].
Qed.

Lemma holds_last_50_step ad e (past : list SensorEvent) w :
  holds_last_50 ad past →
  wf_window w → maxSize w = 50 → contents w = history ad e →
  holds_last_50 (inserted ad e w) (past ++ [e]).
Proof.
  intros Hinv Hw Hmax Hc id. simpl.
  destruct (holds_last_50_window ad past (MachineID e) Hinv) as (_ & Hmax0 & Hc0).
  rewrite filter_app, filter_cons, filter_nil.
  destruct (decide (MachineID e = id)) as [<-|Hne].
  - rewrite lookup_insert_eq. split; [done|]. split; [done|].
    unfold history in Hc. rewrite Hmax0, Hc0, lastn_app_lastn in Hc.
    split; [done|].
    rewrite Hc. intros Hnil. apply (f_equal length) in Hnil.
    rewrite length_lastn, length_app in Hnil.
    change (length [e]) with 1 in Hnil. change (length []) with 0 in Hnil. lia.
  - rewrite lookup_insert_ne by done. rewrite app_nil_r. apply Hinv.
Qed.

Lemma AnalyzeAll_holds (evs past : list SensorEvent) ad :
  holds_last_50 ad past →
  ∃ ad' alerts,
    AnalyzeAll ad evs = Some (ad', alerts) ∧ length alerts = length evs ∧
    holds_last_50 ad' (past ++ evs) ∧
    thresholds ad' = thresholds ad ∧ alertCallback ad' = alertCallback ad.
Proof.
  revert ad past. induction evs as [|e evs IH]; intros ad past Hinv; simpl.
  - exists ad, []. by rewrite app_nil_r.
  - destruct (holds_last_50_window ad past (MachineID e) Hinv) as (Hw0 & Hmax0 & _).
    destruct (AnalyzeEvent_Some ad e Hw0) as (w & a & -> & Hw & Hc & Hmax). simpl.
    destruct (IH (inserted ad e w) (past ++ [e])) as (ad' & alerts & -> & Hlen & Hinv' & ? & ?).
    { apply holds_last_50_step; [done..|congruence|done]. }
    simpl. exists ad'. eexists. split; [done|]. simpl.
    rewrite <- app_assoc in Hinv'. by rewrite Hlen.
Qed.
End detector_runs.

(** X3. From a new detector, the analysis of any sequence of events returns,
    with one batch of alerts per event. No machine outside the sequence has
    a window; every other machine's window holds the last 50 events of that
    machine, in arrival order; thresholds and callback are untouched. *)
Theorem windows_hold_last_50_per_machine (cb : bool) (evs : list SensorEvent) :
  ∃ ad' alerts,
    AnalyzeAll (NewAnomalyDetector cb) evs = Some (ad', alerts) ∧
    length alerts = length evs ∧
    thresholds ad' = thresholds (NewAnomalyDetector cb) ∧
    alertCallback ad' = cb ∧
    ∀ id,
      match slidingWindow ad' !! id with
      | Some w =>
          contents w = lastn 50 (filter (λ ev, MachineID ev = id) evs) ∧
          1 ≤ length (contents w) ≤ 50
      | None => filter (λ ev, MachineID ev = id) evs = []
      end.
Proof.
  destruct (AnalyzeAll_holds evs [] (NewAnomalyDetector cb))
    as (ad' & alerts & Hrun & Hlen & Hinv & Hth & Hcb).
  { intros id. simpl. by rewrite lookup_empty. }
  exists ad', alerts. split; [done|]. split; [done|]. split; [done|].
  split; [done|]. intros id. specialize (Hinv id). simpl in Hinv.
  destruct (slidingWindow ad' !! id) as [w|]; [|done].
  destruct Hinv as (_ & _ & Hc & Hne). split; [done|].
  split.
  - destruct (contents w); [done | simpl; lia].
  - rewrite Hc, length_lastn. lia.
Qed.

(** X4. Without a callback ([alertCallback] is [nil]) the analysis raises no
    alert, and still records the event in its machine's window. *)
Theorem no_callback_no_alert (ad : AnomalyDetector) (e : SensorEvent) :
  wf_detector ad →
  alertCallback ad = false →
  ∃ ad' w, AnalyzeEvent ad e = Some (ad', []) ∧
           slidingWindow ad' !! MachineID e = Some w ∧
           contents w = history ad e.
Proof.
  intros Hwf Hcb.
  pose proof (window_of_wf ad (MachineID e) Hwf) as Hw0.
  destruct (AnalyzeEvent_stages ad e Hw0) as (w & Hw & Hc & ->).
  assert (Hsilent : ∀ a, callback (inserted ad e w) a = [])
    by (intros a; unfold callback; simpl; by rewrite Hcb).
  assert (Hthr : detectThresholdViolations ad e = []).
  { unfold detectThresholdViolations. generalize dependent (thresholds ad).
    intros th. match goal with |- flat_map _ ?l = [] => generalize l end.
    intros l. unfold callback. rewrite Hcb. by induction l. }
  rewrite Hthr.
  assert (Htrend : detectTrendAnomalies (inserted ad e w) e w = Some []).
  { destruct (decide (5 ≤ length (contents w))) as [Hlen|Hlen].
    - destruct (lookup_oldest _ Hlen) as [oldest Hold].
      destruct (lookup_lt_is_Some_2 (contents w) (length (contents w) - 1))
        as [newest Hnew]; [lia|].
      rewrite (detectTrendAnomalies_run _ e w newest oldest) by done.
      rewrite !Hsilent. simpl. by repeat case_match.
    - by rewrite detectTrendAnomalies_short by (done || lia). }
  assert (Hpat : detectPatternAnomalies (inserted ad e w) e w = Some []).
  { destruct (decide (10 ≤ length (lastn 20 (contents w)))).
    - rewrite detectPatternAnomalies_run by done. rewrite Hsilent. by case_decide.
    - by rewrite detectPatternAnomalies_short by (done || lia). }
  rewrite Htrend, Hpat. simpl. exists (inserted ad e w), w.
  split; [done|]. simpl. by rewrite lookup_insert_eq.
Qed.

Lemma no_callback_no_alert_witness :
  ∃ ad' w, AnalyzeEvent (NewAnomalyDetector false) faulty = Some (ad', []) ∧
           slidingWindow ad' !! MachineID faulty = Some w ∧
           contents w = history (NewAnomalyDetector false) faulty.
Proof.
  apply (no_callback_no_alert (NewAnomalyDetector false) faulty).
  - apply NewAnomalyDetector_wf.
  - reflexivity.
Defined.

(** X5. With fewer than 5 events of the machine held, the new one included,
    the trend and pattern checks stay silent: the alerts of the analysis
    are those of the threshold and status checks. *)
Theorem few_events_threshold_alerts_only (ad : AnomalyDetector) (e : SensorEvent) :
  wf_detector ad →
  length (history ad e) < 5 →
  ∃ ad', AnalyzeEvent ad e = Some (ad', detectThresholdViolations ad e).
Proof.
  intros Hwf Hlen.
  pose proof (window_of_wf ad (MachineID e) Hwf) as Hw0.
  destruct (AnalyzeEvent_stages ad e Hw0) as (w & Hw & Hc & ->).
  rewrite <- Hc in Hlen.
  rewrite detectTrendAnomalies_short by done. simpl.
  rewrite detectPatternAnomalies_short by (done || rewrite length_lastn; lia).
  simpl. rewrite app_nil_r. by eexists.
Qed.

Lemma few_events_threshold_alerts_only_witness :
  ∃ ad', AnalyzeEvent (detector_after [e1; e2]) faulty
         = Some (ad', detectThresholdViolations (detector_after [e1; e2]) faulty).
Proof.
  apply (few_events_threshold_alerts_only (detector_after [e1; e2]) faulty).
  - apply detector_after_wf.
  - vm_compute. lia.
Defined.

(** ** The detector: quiet events, fault counts, thresholds, statistics *)

(** X6. With a callback installed, the threshold and status checks raise
    nothing exactly when no quantity is below its minimum or above its
    maximum and the status is neither [fault] nor [warning]. *)
Theorem quiet_event_iff (ad : AnomalyDetector) (e : SensorEvent) :
  alertCallback ad = true →
  detectThresholdViolations ad e = [] ↔
  (ConveyorSpeed e <? ConveyorSpeedMin (thresholds ad))%float = false ∧
  (ConveyorSpeedMax (thresholds ad) <? ConveyorSpeed e)%float = false ∧
  (Temperature e <? TemperatureMin (thresholds ad))%float = false ∧
  (TemperatureMax (thresholds ad) <? Temperature e)%float = false ∧
  (RobotArmAngle e <? RobotAngleMin (thresholds ad))%float = false ∧
  (RobotAngleMax (thresholds ad) <? RobotArmAngle e)%float = false ∧
  Status e ≠ "fault" ∧ Status e ≠ "warning".
Proof.
  intros Hcb. unfold detectThresholdViolations.
  rewrite (flat_map_callback ad _ Hcb).
  destruct (ConveyorSpeed e <? ConveyorSpeedMin (thresholds ad))%float,
           (ConveyorSpeedMax (thresholds ad) <? ConveyorSpeed e)%float,
           (Temperature e <? TemperatureMin (thresholds ad))%float,
           (TemperatureMax (thresholds ad) <? Temperature e)%float,
           (RobotArmAngle e <? RobotAngleMin (thresholds ad))%float,
           (RobotAngleMax (thresholds ad) <? RobotArmAngle e)%float,
           (String.eqb_spec (Status e) "fault"),
           (String.eqb_spec (Status e) "warning");
    simpl; split; try done; try (intros (? & ? & ? & ? & ? & ? & ? & ?); done);
    try (intros H; by apply app_nil in H as [_ ?]).
Qed.

Lemma quiet_event_iff_witness :
  detectThresholdViolations (NewAnomalyDetector true) e1 = [] ↔
  (ConveyorSpeed e1 <? ConveyorSpeedMin (thresholds (NewAnomalyDetector true)))%float
  = false ∧
  (ConveyorSpeedMax (thresholds (NewAnomalyDetector true)) <? ConveyorSpeed e1)%float
  = false ∧
  (Temperature e1 <? TemperatureMin (thresholds (NewAnomalyDetector true)))%float
  = false ∧
  (TemperatureMax (thresholds (NewAnomalyDetector true)) <? Temperature e1)%float
  = false ∧
  (RobotArmAngle e1 <? RobotAngleMin (thresholds (NewAnomalyDetector true)))%float
  = false ∧
  (RobotAngleMax (thresholds (NewAnomalyDetector true)) <? RobotArmAngle e1)%float
  = false ∧
  Status e1 ≠ "fault" ∧ Status e1 ≠ "warning".
Proof. apply (quiet_event_iff (NewAnomalyDetector true) e1). reflexivity. Defined.

Lemma faults_le_length (l : list SensorEvent) : faults l ≤ length l.
Proof. unfold faults. apply length_filter. Qed.

(** X7. Whatever the pattern check raises is one [repeated_faults] alert, and
    the number of faults its message reports lies between 3 and 20. *)
Theorem repeated_faults_count_bounds (ad : AnomalyDetector) (e : SensorEvent)
    (w : SlidingWindow) :
  wf_window w →
  ∃ alerts, detectPatternAnomalies ad e w = Some alerts ∧
            length alerts ≤ 1 ∧
            ∀ a, a ∈ alerts → ∃ k, a = repeated_faults k ∧ 3 ≤ k ≤ 20.
Proof.
  intros Hw. destruct (decide (10 ≤ length (lastn 20 (contents w)))) as [Hlen|Hlen].
  - rewrite detectPatternAnomalies_run by done. eexists. split; [done|].
    pose proof (faults_le_length (lastn 20 (contents w))) as Hle.
    rewrite length_lastn in Hle.
    case_decide as H3; [|split; [simpl; lia | by intros a ?%elem_of_nil]].
    unfold callback. destruct (alertCallback ad);
      [|split; [simpl; lia | by intros a ?%elem_of_nil]].
    split; [simpl; lia|]. intros a ->%list_elem_of_singleton.
    eexists. split; [done | lia].
  - rewrite detectPatternAnomalies_short by (done || lia). exists [].
    split; [done|]. split; [simpl; lia | by intros a ?%elem_of_nil].
Qed.

Lemma repeated_faults_count_bounds_witness :
  ∃ alerts, detectPatternAnomalies (NewAnomalyDetector true) twentieth
              (window_after (three_faults ++ [twentieth])) = Some alerts ∧
            length alerts ≤ 1 ∧
            ∀ a, a ∈ alerts → ∃ k, a = repeated_faults k ∧ 3 ≤ k ≤ 20.
Proof.
  apply (repeated_faults_count_bounds (NewAnomalyDetector true) twentieth
           (window_after (three_faults ++ [twentieth]))).
  apply window_after_wf.
Defined.

(** X8. New thresholds change the threshold alerts only. An analysis after
    [UpdateThresholds] leaves the same windows and raises the same trend and
    pattern alerts as it would have before; its threshold alerts are those
    of the new thresholds, which [GetThresholds] returns from then on. *)
Theorem UpdateThresholds_frame (ad : AnomalyDetector) (th : AnomalyThresholds)
    (e : SensorEvent) :
  wf_detector ad →
  ∃ ad' rest,
    AnalyzeEvent ad e = Some (ad', detectThresholdViolations ad e ++ rest) ∧
    AnalyzeEvent (UpdateThresholds ad th) e
    = Some (UpdateThresholds ad' th,
            detectThresholdViolations (UpdateThresholds ad th) e ++ rest) ∧
    GetThresholds (UpdateThresholds ad' th) = th ∧
    slidingWindow (UpdateThresholds ad' th) = slidingWindow ad'.
Proof.
  intros Hwf.
  pose proof (window_of_wf ad (MachineID e) Hwf) as Hw0.
  destruct (Add_history ad e Hw0) as (w & Hadd & Hw & _).
  destruct (detectTrendAnomalies_Some (inserted ad e w) e w Hw) as [t Ht].
  destruct (detectPatternAnomalies_Some (inserted ad e w) e w Hw) as [p Hp].
  exists (inserted ad e w), (t ++ p).
  split; [|split; [|done]].
  - unfold AnalyzeEvent. fold (window_of ad (MachineID e)). rewrite Hadd. simpl.
    fold (inserted ad e w). by rewrite Ht, Hp.
  - unfold AnalyzeEvent. simpl. fold (window_of ad (MachineID e)).
    rewrite Hadd. simpl.
    rewrite (detectTrendAnomalies_callback _ (inserted ad e w)) by done.
    rewrite (detectPatternAnomalies_callback _ (inserted ad e w)) by done.
    by rewrite Ht, Hp.
Qed.

Lemma UpdateThresholds_frame_witness :
  ∃ ad' rest,
    AnalyzeEvent (detector_after three_faults) twentieth
    = Some (ad', detectThresholdViolations (detector_after three_faults) twentieth
                 ++ rest) ∧
    AnalyzeEvent (UpdateThresholds (detector_after three_faults)
                    (thresholds (NewAnomalyDetector true))) twentieth
    = Some (UpdateThresholds ad' (thresholds (NewAnomalyDetector true)),
            detectThresholdViolations
              (UpdateThresholds (detector_after three_faults)
                 (thresholds (NewAnomalyDetector true))) twentieth ++ rest) ∧
    GetThresholds (UpdateThresholds ad' (thresholds (NewAnomalyDetector true)))
    = thresholds (NewAnomalyDetector true) ∧
    slidingWindow (UpdateThresholds ad' (thresholds (NewAnomalyDetector true)))
    = slidingWindow ad'.
Proof.
  apply (UpdateThresholds_frame (detector_after three_faults)
           (thresholds (NewAnomalyDetector true)) twentieth).
  apply detector_after_wf.
Defined.

Lemma stats_faultCount (l : list SensorEvent) (s : StatsSums) :
  faultCount
    (foldl (λ (s : StatsSums) event,
              {| avgTemp := (avgTemp s + Temperature event)%float;
                 avgSpeed := (avgSpeed s + ConveyorSpeed event)%float;
                 avgAngle := (avgAngle s + RobotArmAngle event)%float;
                 faultCount := if String.eqb (Status event) "fault"
                               then faultCount s + 1 else faultCount s |}) s l)
  = faultCount s + faults l.
Proof.
  unfold faults. revert s. induction l as [|x l IH]; intros s; simpl; [lia|].
  rewrite IH, filter_cons. simpl.
  destruct (String.eqb_spec (Status x) "fault") as [Heq|Hne].
  - rewrite decide_True by done. simpl. lia.
  - rewrite decide_False by done. lia.
Qed.

(** X9. [GetMachineStats] around an analysis. For a machine without window it
    returns [nil]. Right after an event [e] is analysed, the statistics of
    its machine exist: they count the events held, at least one; the last
    event time is that of [e]; the fault rate is the number of held events
    with status [fault] divided by the number held. The statistics of every
    other machine are what they were. *)
Theorem GetMachineStats_after_analysis (ad : AnomalyDetector) (e : SensorEvent) :
  wf_detector ad →
  ∃ ad' alerts stats,
    AnalyzeEvent ad e = Some (ad', alerts) ∧
    GetMachineStats ad' (MachineID e) = Some (Some stats) ∧
    event_count stats = length (history ad e) ∧
    1 ≤ event_count stats ∧
    last_event_time stats = Timestamp e ∧
    fault_rate stats
    = (of_int64 (Z.of_nat (faults (history ad e)))
       / of_int64 (Z.of_nat (length (history ad e))))%float ∧
    (∀ id, id ≠ MachineID e → GetMachineStats ad' id = GetMachineStats ad id) ∧
    (∀ id, slidingWindow ad !! id = None → GetMachineStats ad id = Some None).
Proof.
  intros Hwf.
  pose proof (window_of_wf ad (MachineID e) Hwf) as Hw0.
  destruct (AnalyzeEvent_Some ad e Hw0) as (w & alerts & Hrun & Hw & Hc & _).
  destruct (history_newest ad e Hw0) as [Hnew Hlen].
  destruct (GetEvents_view w Hw) as (s & Hs & Hv & Hls).
  rewrite (held_contents w Hw) in Hv, Hls. rewrite length_fmap in Hls.
  rewrite Hc in Hv, Hls.
  exists (inserted ad e w), alerts. eexists. split; [done|].
  split; [|split; [|split; [|split; [|split; [|split]]]]].
  - unfold GetMachineStats. simpl. rewrite lookup_insert_eq, Hs. simpl.
    replace (len s =? 0) with false by (symmetry; apply Nat.eqb_neq; lia).
    rewrite Hv, deref_Some. simpl. rewrite Hnew. simpl. reflexivity.
  - done.
  - simpl. lia.
  - done.
  - simpl. by rewrite stats_faultCount.
  - intros id Hne. unfold GetMachineStats. simpl. by rewrite lookup_insert_ne.
  - intros id Hid. unfold GetMachineStats. by rewrite Hid.
Qed.

Lemma GetMachineStats_after_analysis_witness :
  ∃ ad' alerts stats,
    AnalyzeEvent (detector_after three_faults) twentieth = Some (ad', alerts) ∧
    GetMachineStats ad' (MachineID twentieth) = Some (Some stats) ∧
    event_count stats = length (history (detector_after three_faults) twentieth) ∧
    1 ≤ event_count stats ∧
    last_event_time stats = Timestamp twentieth ∧
    fault_rate stats
    = (of_int64 (Z.of_nat (faults (history (detector_after three_faults) twentieth)))
       / of_int64 (Z.of_nat (length (history (detector_after three_faults)
                                            twentieth))))%float ∧
    (∀ id, id ≠ MachineID twentieth →
           GetMachineStats ad' id = GetMachineStats (detector_after three_faults) id) ∧
    (∀ id, slidingWindow (detector_after three_faults) !! id = None →
           GetMachineStats (detector_after three_faults) id = Some None).
Proof.
  apply (GetMachineStats_after_analysis (detector_after three_faults) twentieth).
  apply detector_after_wf.
Defined.

(** ** The hub: every case of [Run] *)

Section hub_cases.
Implicit Types (h : Hub) (client : ClientPtr) (order : list ClientPtr).

Lemma NewHub_inv : hub_inv NewHub.
Proof.
  split; [|split].
  - intros client [b H]. simpl in H. by rewrite lookup_empty in H.
  - intros client send H. simpl in H. by rewrite lookup_empty in H.
  - intros client send H. simpl in H. by rewrite lookup_empty in H.
Qed.

Lemma HandleWebSocket_run (welcome : option string) h client :
  HandleWebSocket welcome h client
  = Some {| clients := <[client:=true]> (clients h);
            mailboxes :=
              <[client:=Chan (match welcome with Some msg => [msg] | None => [] end)
                             256 false]> (mailboxes h) |}.
Proof.
  unfold HandleWebSocket, register. destruct welcome as [msg|]; [|done].
  cbn [mailboxes clients].
  assert (Hbox : <[client:=Chan [] 256 false]> (mailboxes h) !! client
                 = Some (Chan [] 256 false)) by apply lookup_insert_eq.
  rewrite Hbox. cbn [mbind option_bind]. unfold trySend. cbn [closed buf cap length].
  change (0 <? 256) with true. cbn iota. by rewrite insert_insert_eq.
Qed.

Lemma HandleWebSocket_inv (welcome : option string) h client :
  hub_inv h →
  mailboxes h !! client = None →
  ∃ h', HandleWebSocket welcome h client = Some h' ∧ hub_inv h' ∧
        clients h' !! client = Some true ∧
        mailboxes h' !! client
        = Some (Chan (match welcome with Some msg => [msg] | None => [] end)
                     256 false) ∧
        ∀ other, other ≠ client →
                 clients h' !! other = clients h !! other ∧
                 mailboxes h' !! other = mailboxes h !! other.
Proof.
  intros (Hok & Hcl & Hb) Hfresh. rewrite HandleWebSocket_run.
  set (box := Chan (match welcome with Some msg => [msg] | None => [] end) 256 false).
  eexists. split; [done|]. cbn [clients mailboxes].
  rewrite !lookup_insert_eq.
  split; [|split; [done|split; [done|]]].
  - split; [|split]; cbn [clients mailboxes].
    + intros other Hreg. cbn [clients mailboxes] in *.
      destruct (decide (other = client)) as [->|Hne].
      * rewrite lookup_insert_eq. by eexists.
      * rewrite lookup_insert_ne in Hreg by done. rewrite lookup_insert_ne by done.
        by apply Hok.
    + intros other send Hm Hc. cbn [clients mailboxes] in *.
      destruct (decide (other = client)) as [->|Hne].
      * by rewrite lookup_insert_eq in Hc.
      * rewrite lookup_insert_ne in Hm by done.
        rewrite lookup_insert_ne in Hc by done. by eapply Hcl.
    + intros other send Hm. cbn [clients mailboxes] in *.
      destruct (decide (other = client)) as [->|Hne].
      * rewrite lookup_insert_eq in Hm. simplify_eq.
        destruct welcome; cbn [buf cap length]; lia.
      * rewrite lookup_insert_ne in Hm by done. by eapply Hb.
  - intros other Hne. cbn [clients mailboxes]. by rewrite !lookup_insert_ne.
Qed.

Lemma unregister_inv h client :
  hub_inv h →
  ∃ h', unregister h client = Some h' ∧ hub_inv h' ∧
        clients h' !! client = None ∧
        ∀ other, other ≠ client →
                 clients h' !! other = clients h !! other ∧
                 mailboxes h' !! other = mailboxes h !! other.
Proof.
  intros (Hok & Hcl & Hb). unfold unregister.
  destruct (clients h !! client) as [b|] eqn:Hreg.
  - destruct (Hok client) as (send & Hm & Hopen); [by eexists|].
    rewrite Hm. unfold close. simpl. rewrite Hopen. simpl.
    eexists. split; [done|]. cbn [clients mailboxes]. rewrite lookup_delete_eq.
    split; [|split; [done|]].
    + split; [|split].
      * intros other Ho. cbn [clients mailboxes] in *. destruct (decide (other = client)) as [->|Hne].
        { rewrite lookup_delete_eq in Ho. by destruct Ho. }
        rewrite lookup_delete_ne in Ho by done. rewrite lookup_insert_ne by done.
        by apply Hok.
      * intros other s Hs Hc. cbn [clients mailboxes] in *. destruct (decide (other = client)) as [->|Hne].
        { rewrite lookup_insert_eq in Hs. by simplify_eq. }
        rewrite lookup_insert_ne in Hs by done.
        rewrite lookup_delete_ne in Hc by done. by eapply Hcl.
      * intros other s Hs. cbn [clients mailboxes] in *. destruct (decide (other = client)) as [->|Hne].
        { rewrite lookup_insert_eq in Hs. simplify_eq. simpl. by eapply Hb. }
        rewrite lookup_insert_ne in Hs by done. by eapply Hb.
    + intros other Hne. cbn [clients mailboxes].
      by rewrite lookup_delete_ne, lookup_insert_ne.
  - exists h. by repeat split.
Qed.

Lemma broadcast_inv (message : string) order h :
  hub_inv h → range_order h order →
  ∃ h', broadcast message order h = Some h' ∧ hub_inv h' ∧
        ∀ client, (client ∈ order → delivered message h h' client) ∧
                  (client ∉ order →
                   clients h' !! client = clients h !! client ∧
                   mailboxes h' !! client = mailboxes h !! client).
Proof.
  intros (Hok & Hcl & Hb) Hr.
  destruct (broadcast_run message order h (proj1 Hr)) as (h' & Hrun & Heff).
  { intros client. by apply hub_ok_range. }
  exists h'. split; [done|]. split; [|done].
  assert (Hcase : ∀ client,
             (clients h' !! client = clients h !! client ∧
              mailboxes h' !! client = mailboxes h !! client) ∨
             (∃ b send, clients h !! client = Some b ∧
                        mailboxes h !! client = Some send ∧ closed send = false ∧
                        ((length (buf send) < cap send ∧
                          clients h' !! client = Some b ∧
                          mailboxes h' !! client
                          = Some {| buf := buf send ++ [message]; cap := cap send;
                                    closed := false |}) ∨
                         (clients h' !! client = None ∧
                          mailboxes h' !! client
                          = Some {| buf := buf send; cap := cap send;
                                    closed := true |})))).
  { intros client. destruct (Heff client) as [Hin Hout].
    destruct (decide (client ∈ order)) as [Ho|Ho]; [|left; by apply Hout].
    right. specialize (Hin Ho).
    destruct (hub_ok_range h order client Hok Hr Ho) as ([b Hreg] & send & Hm & Hopen).
    exists b, send. split; [done|]. split; [done|]. split; [done|].
    unfold delivered in Hin. rewrite Hreg, Hm in Hin.
    destruct (Nat.ltb_spec (length (buf send)) (cap send)); [left | right]; naive_solver. }
  split; [|split].
  - intros client [b' Hreg'].
    destruct (Hcase client) as [[Hc Hm] | (b & send & Hreg & Hm & Hopen & [(Hlt & Hc' & Hm') | [Hc' Hm']])].
    + rewrite Hm. apply Hok. rewrite <- Hc. by eexists.
    + eexists. by split.
    + congruence.
  - intros client s Hs Hnone.
    destruct (Hcase client) as [[Hc Hm] | (b & send & Hreg & Hm & Hopen & [(Hlt & Hc' & Hm') | [Hc' Hm']])].
    + rewrite Hm in Hs. rewrite Hc in Hnone. by eapply Hcl.
    + congruence.
    + by simplify_eq.
  - intros client s Hs.
    destruct (Hcase client) as [[Hc Hm] | (b & send & Hreg & Hm & Hopen & [(Hlt & Hc' & Hm') | [Hc' Hm']])].
    + rewrite Hm in Hs. by eapply Hb.
    + simplify_eq. simpl. rewrite length_app. simpl. lia.
    + simplify_eq. simpl. by eapply Hb.
Qed.

Lemma receive_inv h client (message : string) h' :
  hub_inv h → receive h client = Some (message, h') → hub_inv h'.
Proof.
  intros (Hok & Hcl & Hb). unfold receive.
  destruct (mailboxes h !! client) as [send|] eqn:Hm; simpl; [|done].
  destruct (buf send) as [|m rest] eqn:Hbuf; [done|]. intros ?; simplify_eq.
  split; [|split].
  - intros other Hreg. cbn [clients mailboxes] in *. destruct (decide (other = client)) as [->|Hne].
    + rewrite lookup_insert_eq. destruct (Hok client Hreg) as (s & Hs & Hopen).
      simplify_eq. eexists. by split.
    + rewrite lookup_insert_ne by done. by apply Hok.
  - intros other s Hs Hc. cbn [clients mailboxes] in *. destruct (decide (other = client)) as [->|Hne].
    + rewrite lookup_insert_eq in Hs. simplify_eq. simpl. by eapply Hcl.
    + rewrite lookup_insert_ne in Hs by done. by eapply Hcl.
  - intros other s Hs. cbn [clients mailboxes] in *. destruct (decide (other = client)) as [->|Hne].
    + rewrite lookup_insert_eq in Hs. simplify_eq. simpl.
      specialize (Hb client send Hm). rewrite Hbuf in Hb. simpl in Hb. lia.
    + rewrite lookup_insert_ne in Hs by done. by eapply Hb.
Qed.

Lemma handleMessage_inv (json_Unmarshal : string → error + (string * string))
    (json_Unmarshal_Topics : string → error + list string) (pong : error + string)
    h client (subscribed subscribed' : gmap string bool) (message : string) h' :
  hub_inv h →
  handleMessage json_Unmarshal json_Unmarshal_Topics pong h client subscribed message
  = Some (h', subscribed') →
  hub_inv h'.
Proof.
  intros Hinv. unfold handleMessage.
  destruct (json_Unmarshal message) as [err|[msgType msgData]];
    [by intros ?; simplify_eq|].
  destruct (String.eqb msgType "subscribe");
    [destruct (json_Unmarshal_Topics msgData); by intros ?; simplify_eq|].
  destruct (String.eqb msgType "unsubscribe");
    [destruct (json_Unmarshal_Topics msgData); by intros ?; simplify_eq|].
  destruct (String.eqb msgType "ping"); [|by intros ?; simplify_eq].
  destruct pong as [err|pongBytes]; [by intros ?; simplify_eq|].
  destruct (mailboxes h !! client) as [send|] eqn:Hm; simpl; [|done].
  unfold trySend. destruct (closed send) eqn:Hopen; [done|].
  destruct (length (buf send) <? cap send) eqn:Hroom; [|by intros ?; simplify_eq].
  apply Nat.ltb_lt in Hroom. intros ?; simplify_eq.
  destruct Hinv as (Hok & Hcl & Hb). split; [|split].
  - intros other Hreg. cbn [clients mailboxes] in *.
    destruct (decide (other = client)) as [->|Hne].
    + rewrite lookup_insert_eq. eexists. by split.
    + rewrite lookup_insert_ne by done. by apply Hok.
  - intros other s Hs Hc. cbn [clients mailboxes] in *.
    destruct (decide (other = client)) as [->|Hne].
    + rewrite (Hcl client send Hm Hc) in Hopen. done.
    + rewrite lookup_insert_ne in Hs by done. by eapply Hcl.
  - intros other s Hs. cbn [clients mailboxes] in *.
    destruct (decide (other = client)) as [->|Hne].
    + rewrite lookup_insert_eq in Hs. simplify_eq. simpl.
      rewrite length_app. simpl. lia.
    + rewrite lookup_insert_ne in Hs by done. by eapply Hb.
Qed.

Lemma hub_step_inv h h' : hub_inv h → hub_step h h' → hub_inv h'.
Proof.
  intros Hinv Hstep. destruct Hstep as [h client welcome h' Hfresh Hrun
                                       | h client h' Hrun
                                       | h message order h' Hr Hrun
                                       | h client message h' Hrun
                                       | h client unm unt pong subscribed message h'
                                           subscribed' Hrun];
    [| | | |by eapply handleMessage_inv].
  - destruct (HandleWebSocket_inv welcome h client Hinv Hfresh) as (h2 & ? & ? & _).
    by simplify_eq.
  - destruct (unregister_inv h client Hinv) as (h2 & ? & ? & _). by simplify_eq.
  - destruct (broadcast_inv message order h Hinv Hr) as (h2 & ? & ? & _).
    by simplify_eq.
  - by eapply receive_inv.
Qed.
End hub_cases.

(** X10. The hub never panics. Whatever connections, unregistrations,
    broadcasts, receptions and client messages happened since [NewHub], the
    invariant holds
    (a mailbox is open exactly while its client is registered, and holds no
    more than its capacity), and the next unregistration, the next broadcast
    and the next connection return: no send on a closed channel, no channel
    closed twice. *)
Theorem hub_never_panics (h : Hub) :
  rtc hub_step NewHub h →
  hub_inv h ∧
  (∀ client, is_Some (unregister h client)) ∧
  (∀ message order, range_order h order → is_Some (broadcast message order h)) ∧
  (∀ welcome client, mailboxes h !! client = None →
                     is_Some (HandleWebSocket welcome h client)).
Proof.
  intros Hreach.
  assert (Hinv : hub_inv h).
  { revert h Hreach. apply rtc_ind_r; [apply NewHub_inv|].
    intros h1 h2 _ Hstep Hinv. by eapply hub_step_inv. }
  split; [done|]. split; [|split].
  - intros client. destruct (unregister_inv h client Hinv) as (h' & -> & _). done.
  - intros message order Hr.
    destruct (broadcast_inv message order h Hinv Hr) as (h' & -> & _). done.
  - intros welcome client Hfresh.
    destruct (HandleWebSocket_inv welcome h client Hinv Hfresh) as (h' & -> & _). done.
Qed.

Lemma hub_never_panics_witness :
  hub_inv {| clients := {[ 7 := true ]};
             mailboxes := {[ 7 := Chan ["connected"] 256 false ]} |} ∧
  (∀ client, is_Some (unregister
                        {| clients := {[ 7 := true ]};
                           mailboxes := {[ 7 := Chan ["connected"] 256 false ]} |}
                        client)) ∧
  (∀ message order,
      range_order {| clients := {[ 7 := true ]};
                     mailboxes := {[ 7 := Chan ["connected"] 256 false ]} |} order →
      is_Some (broadcast message order
                 {| clients := {[ 7 := true ]};
                    mailboxes := {[ 7 := Chan ["connected"] 256 false ]} |})) ∧
  (∀ welcome client,
      mailboxes {| clients := {[ 7 := true ]};
                   mailboxes := {[ 7 := Chan ["connected"] 256 false ]} |} !! client
      = None →
      is_Some (HandleWebSocket welcome
                 {| clients := {[ 7 := true ]};
                    mailboxes := {[ 7 := Chan ["connected"] 256 false ]} |} client)).
Proof.
  apply (hub_never_panics
           {| clients := {[ 7 := true ]};
              mailboxes := {[ 7 := Chan ["connected"] 256 false ]} |}).
  apply rtc_once. apply (step_connect NewHub 7 (Some "connected")).
  - reflexivity.
  - vm_compute. reflexivity.
Defined.

(** X11. A new subscriber is registered with the welcome notice as the first
    message of its mailbox, whatever the hub holds apart from it; the first
    broadcast after that queues its message right behind the notice. *)
Theorem welcome_before_broadcasts (welcome : string) (h : Hub) (client : ClientPtr) :
  hub_inv h →
  mailboxes h !! client = None →
  ∃ h', HandleWebSocket (Some welcome) h client = Some h' ∧
        clients h' !! client = Some true ∧
        mailboxes h' !! client = Some (Chan [welcome] 256 false) ∧
        ∀ message order,
          range_order h' order →
          ∃ h'', broadcast message order h' = Some h'' ∧
                 clients h'' !! client = Some true ∧
                 mailboxes h'' !! client = Some (Chan [welcome; message] 256 false).
Proof.
  intros Hinv Hfresh.
  destruct (HandleWebSocket_inv (Some welcome) h client Hinv Hfresh)
    as (h' & Hrun & Hinv' & Hc & Hm & _).
  exists h'. split; [done|]. split; [done|]. split; [done|].
  intros message order Hr.
  destruct (broadcast_inv message order h' Hinv' Hr) as (h'' & Hb & _ & Heff).
  exists h''. split; [done|].
  destruct (Heff client) as [Hd _].
  assert (Hin : client ∈ order) by (apply Hr; by eexists).
  specialize (Hd Hin). unfold delivered in Hd. rewrite Hc, Hm in Hd.
  exact Hd.
Qed.

Lemma welcome_before_broadcasts_witness :
  ∃ h', HandleWebSocket (Some "connected") NewHub 7 = Some h' ∧
        clients h' !! 7 = Some true ∧
        mailboxes h' !! 7 = Some (Chan ["connected"] 256 false) ∧
        ∀ message order,
          range_order h' order →
          ∃ h'', broadcast message order h' = Some h'' ∧
                 clients h'' !! 7 = Some true ∧
                 mailboxes h'' !! 7 = Some (Chan ["connected"; message] 256 false).
Proof.
  apply (welcome_before_broadcasts "connected" NewHub 7).
  - apply NewHub_inv.
  - reflexivity.
Defined.

(** X12. A subscriber the broadcast dropped is unregistered already: when its
    [readPump] asks for the unregistration later, the hub changes nothing
    and does not close the channel a second time. *)
Theorem unregister_after_drop (message : string) (order : list ClientPtr) (h : Hub)
    (client : ClientPtr) (registered : bool) (send : chan string) :
  hub_inv h →
  range_order h order →
  clients h !! client = Some registered →
  mailboxes h !! client = Some send →
  cap send ≤ length (buf send) →
  ∃ h', broadcast message order h = Some h' ∧
        clients h' !! client = None ∧
        mailboxes h' !! client
        = Some {| buf := buf send; cap := cap send; closed := true |} ∧
        unregister h' client = Some h'.
Proof.
  intros Hinv Hr Hc Hm Hfull.
  destruct (broadcast_inv message order h Hinv Hr) as (h' & Hb & _ & Heff).
  exists h'. split; [done|].
  destruct (Heff client) as [Hd _].
  assert (Hin : client ∈ order) by (apply Hr; by eexists).
  specialize (Hd Hin). unfold delivered in Hd. rewrite Hc, Hm in Hd.
  replace (length (buf send) <? cap send) with false in Hd
    by (symmetry; apply Nat.ltb_ge; lia).
  destruct Hd as [Hc' Hm']. split; [done|]. split; [done|].
  unfold unregister. by rewrite Hc'.
Qed.

Lemma unregister_after_drop_witness :
  ∃ h', broadcast "tick" [7]
          {| clients := {[ 7 := true ]};
             mailboxes := {[ 7 := Chan ["connected"] 1 false ]} |} = Some h' ∧
        clients h' !! 7 = None ∧
        mailboxes h' !! 7 = Some {| buf := ["connected"]; cap := 1; closed := true |} ∧
        unregister h' 7 = Some h'.
Proof.
  apply (unregister_after_drop "tick" [7]
           {| clients := {[ 7 := true ]};
              mailboxes := {[ 7 := Chan ["connected"] 1 false ]} |}
           7 true (Chan ["connected"] 1 false)).
  - split; [|split].
    + intros c [b H]. cbn [clients mailboxes] in *.
      apply lookup_singleton_Some in H as [<- _]. by eexists.
    + intros c s Hs Hc. cbn [clients mailboxes] in *.
      apply lookup_singleton_Some in Hs as [<- _]. by rewrite lookup_singleton_eq in Hc.
    + intros c s Hs. cbn [clients mailboxes] in *.
      apply lookup_singleton_Some in Hs as [_ <-]. simpl. lia.
  - split; [apply NoDup_singleton|]. intros c. cbn [clients]. split.
    + intros ->%list_elem_of_singleton. by eexists.
    + intros [b H]. apply lookup_singleton_Some in H as [<- _].
      by apply list_elem_of_singleton.
  - reflexivity.
  - reflexivity.
  - simpl. lia.
Defined.

(** X13. A broadcast registers nobody: the clients left are those whose mailbox
    had room, and [GetClientCount] does not grow. *)
Theorem broadcast_client_count (message : string) (order : list ClientPtr) (h : Hub) :
  hub_inv h →
  range_order h order →
  ∃ h', broadcast message order h = Some h' ∧
        (∀ client,
            clients h' !! client
            = match mailboxes h !! client with
              | Some send =>
                  if length (buf send) <? cap send then clients h !! client else None
              | None => None
              end) ∧
        GetClientCount h' ≤ GetClientCount h.
Proof.
  intros Hinv Hr.
  destruct (broadcast_inv message order h Hinv Hr) as (h' & Hb & _ & Heff).
  exists h'. split; [done|].
  assert (Hclients : ∀ client,
             clients h' !! client
             = match mailboxes h !! client with
               | Some send =>
                   if length (buf send) <? cap send then clients h !! client else None
               | None => None
               end).
  { intros client. destruct (Heff client) as [Hin Hout].
    destruct (decide (client ∈ order)) as [Ho|Ho].
    - specialize (Hin Ho).
      destruct (hub_ok_range h order client (proj1 Hinv) Hr Ho)
        as ([b Hreg] & send & Hm & _).
      unfold delivered in Hin. rewrite Hreg, Hm in Hin. rewrite Hm, Hreg.
      destruct (length (buf send) <? cap send); by destruct Hin.
    - destruct (Hout Ho) as [-> _].
      assert (Hnone : clients h !! client = None).
      { destruct (clients h !! client) eqn:Hc; [|done].
        exfalso. apply Ho, Hr. by eexists. }
      rewrite Hnone. by repeat case_match. }
  split; [done|]. unfold GetClientCount. apply map_subseteq_size.
  apply map_subseteq_spec. intros client b. rewrite Hclients.
  repeat case_match; by intros ?.
Qed.

Lemma one_subscriber_inv : hub_inv one_subscriber.
Proof.
  unfold one_subscriber. split; [|split].
  - intros c [b H]. cbn [clients mailboxes] in *.
    apply lookup_singleton_Some in H as [<- _]. by eexists.
  - intros c s Hs Hc. cbn [clients mailboxes] in *.
    apply lookup_singleton_Some in Hs as [<- _]. by rewrite lookup_singleton_eq in Hc.
  - intros c s Hs. cbn [clients mailboxes] in *.
    apply lookup_singleton_Some in Hs as [_ <-]. simpl. lia.
Qed.

Lemma one_subscriber_order : range_order one_subscriber [7].
Proof.
  split; [apply NoDup_singleton|]. intros c. unfold one_subscriber. cbn [clients]. split.
  - intros ->%list_elem_of_singleton. by eexists.
  - intros [b H]. apply lookup_singleton_Some in H as [<- _].
    by apply list_elem_of_singleton.
Qed.

Lemma broadcast_client_count_witness :
  ∃ h', broadcast "tick" [7] one_subscriber = Some h' ∧
        (∀ client,
            clients h' !! client
            = match mailboxes one_subscriber !! client with
              | Some send =>
                  if length (buf send) <? cap send
                  then clients one_subscriber !! client else None
              | None => None
              end) ∧
        GetClientCount h' ≤ GetClientCount one_subscriber.
Proof.
  apply (broadcast_client_count "tick" [7] one_subscriber).
  - apply one_subscriber_inv.
  - apply one_subscriber_order.
Defined.

(** ** Subscriptions of a client *)

Lemma isSubscribed_insert (subscribed : gmap string bool) (topic t : string) :
  isSubscribed (<[topic := true]> subscribed) t
  = bool_decide (t = topic) || isSubscribed subscribed t.
Proof.
  unfold isSubscribed. destruct (decide (t = topic)) as [->|Hne].
  - by rewrite lookup_insert_eq, bool_decide_eq_true_2.
  - by rewrite lookup_insert_ne, bool_decide_eq_false_2.
Qed.

Lemma isSubscribed_delete (subscribed : gmap string bool) (topic t : string) :
  isSubscribed (delete topic subscribed) t
  = negb (bool_decide (t = topic)) && isSubscribed subscribed t.
Proof.
  unfold isSubscribed. destruct (decide (t = topic)) as [->|Hne].
  - by rewrite lookup_delete_eq, bool_decide_eq_true_2.
  - by rewrite lookup_delete_ne, bool_decide_eq_false_2.
Qed.

Lemma isSubscribed_subscribe (subscribed : gmap string bool) (topics : list string)
    (t : string) :
  isSubscribed (subscribe subscribed topics) t
  = bool_decide (t ∈ topics) || isSubscribed subscribed t.
Proof.
  unfold subscribe. revert subscribed.
  induction topics as [|x ts IH]; intros m; cbn [foldl].
  - by rewrite bool_decide_eq_false_2 by apply not_elem_of_nil.
  - rewrite IH, isSubscribed_insert.
    destruct (decide (t = x)) as [->|Hne].
    + rewrite (bool_decide_eq_true_2 (x = x)) by done.
      rewrite (bool_decide_eq_true_2 (x ∈ x :: ts)) by left.
      by rewrite orb_true_r.
    + rewrite (bool_decide_eq_false_2 (t = x)) by done.
      by rewrite (bool_decide_ext (t ∈ x :: ts) (t ∈ ts))
        by (rewrite elem_of_cons; naive_solver).
Qed.

Lemma isSubscribed_unsubscribe (subscribed : gmap string bool) (topics : list string)
    (t : string) :
  isSubscribed (unsubscribe subscribed topics) t
  = negb (bool_decide (t ∈ topics)) && isSubscribed subscribed t.
Proof.
  unfold unsubscribe. revert subscribed.
  induction topics as [|x ts IH]; intros m; cbn [foldl].
  - by rewrite bool_decide_eq_false_2 by apply not_elem_of_nil.
  - rewrite IH, isSubscribed_delete.
    destruct (decide (t = x)) as [->|Hne].
    + rewrite (bool_decide_eq_true_2 (x = x)) by done.
      rewrite (bool_decide_eq_true_2 (x ∈ x :: ts)) by left.
      by rewrite andb_false_r.
    + rewrite (bool_decide_eq_false_2 (t = x)) by done.
      by rewrite (bool_decide_ext (t ∈ x :: ts) (t ∈ ts))
        by (rewrite elem_of_cons; naive_solver).
Qed.

(** X14. After [subscribe] a topic is subscribed when it is among the topics
    given or was subscribed before; after [unsubscribe] when it was
    subscribed and is not among them; unsubscribing what was just
    subscribed leaves none of these topics subscribed, and the others as
    they were. *)
Theorem subscriptions (subscribed : gmap string bool) (topics : list string)
    (t : string) :
  isSubscribed (subscribe subscribed topics) t
  = bool_decide (t ∈ topics) || isSubscribed subscribed t ∧
  isSubscribed (unsubscribe subscribed topics) t
  = negb (bool_decide (t ∈ topics)) && isSubscribed subscribed t ∧
  isSubscribed (unsubscribe (subscribe subscribed topics) topics) t
  = negb (bool_decide (t ∈ topics)) && isSubscribed subscribed t.
Proof.
  split; [apply isSubscribed_subscribe|]. split; [apply isSubscribed_unsubscribe|].
  rewrite isSubscribed_unsubscribe, isSubscribed_subscribe.
  by destruct (bool_decide (t ∈ topics)).
Qed.

(** ** The consumer's validation against the detector's default thresholds *)

Lemma SFcompare_lt_trans (x y z : spec_float) :
  SFcompare x y = Some Lt → SFcompare y z = Some Lt → SFcompare x z = Some Lt.
Proof.
  destruct x as [sx|sx| |sx mx ex], y as [sy|sy| |sy my ey], z as [sz|sz| |sz mz ez];
    simpl; try done;
    try (by destruct sx); try (by destruct sy); try (by destruct sz);
    try (by destruct sx, sy); try (by destruct sy, sz); try (by destruct sx, sz);
    try (by destruct sx, sy, sz).
  change (Pos.compare_cont Eq mx my) with (mx ?= my)%positive.
  change (Pos.compare_cont Eq my mz) with (my ?= mz)%positive.
  change (Pos.compare_cont Eq mx mz) with (mx ?= mz)%positive.
  destruct sx, sy, sz; try done;
    destruct (Z.compare_spec ex ey), (Z.compare_spec ey ez), (Z.compare_spec ex ez);
    try lia; try done;
    destruct (Pos.compare_spec mx my), (Pos.compare_spec my mz),
             (Pos.compare_spec mx mz); simpl; try lia; try done.
Qed.

Lemma ltb_trans (a b c : float) :
  (a <? b)%float = true → (b <? c)%float = true → (a <? c)%float = true.
Proof.
  rewrite !FloatAxioms.ltb_spec. unfold SFltb.
  destruct (SFcompare (Prim2SF a) (Prim2SF b)) as [[]|] eqn:H1; try done.
  destruct (SFcompare (Prim2SF b) (Prim2SF c)) as [[]|] eqn:H2; try done.
  by rewrite (SFcompare_lt_trans _ _ _ H1 H2).
Qed.

(** [v] is not below [lo'] when it is not below a larger [lo]. *)
Lemma not_below (v lo lo' : float) :
  (lo' <? lo)%float = true → (v <? lo)%float = false → (v <? lo')%float = false.
Proof.
  intros Hlo Hv. destruct (v <? lo')%float eqn:H; [|done].
  by rewrite (ltb_trans v lo' lo H Hlo) in Hv.
Qed.

Lemma not_above (v hi hi' : float) :
  (hi <? hi')%float = true → (hi <? v)%float = false → (hi' <? v)%float = false.
Proof.
  intros Hhi Hv. destruct (hi' <? v)%float eqn:H; [|done].
  by rewrite (ltb_trans hi hi' v Hhi H) in Hv.
Qed.

(** A detector with a callback that raises no threshold alert for an event
    found each quantity of the event within its range. *)
Lemma quiet_event_in_range (ad : AnomalyDetector) (e : SensorEvent) :
  alertCallback ad = true →
  detectThresholdViolations ad e = [] →
  (ConveyorSpeed e <? ConveyorSpeedMin (thresholds ad))%float = false ∧
  (ConveyorSpeedMax (thresholds ad) <? ConveyorSpeed e)%float = false ∧
  (Temperature e <? TemperatureMin (thresholds ad))%float = false ∧
  (TemperatureMax (thresholds ad) <? Temperature e)%float = false ∧
  (RobotArmAngle e <? RobotAngleMin (thresholds ad))%float = false ∧
  (RobotAngleMax (thresholds ad) <? RobotArmAngle e)%float = false.
Proof.
  intros Hcb. unfold detectThresholdViolations.
  rewrite (flat_map_callback ad _ Hcb). cbv zeta.
  destruct (ConveyorSpeed e <? ConveyorSpeedMin (thresholds ad))%float,
           (ConveyorSpeedMax (thresholds ad) <? ConveyorSpeed e)%float,
           (Temperature e <? TemperatureMin (thresholds ad))%float,
           (TemperatureMax (thresholds ad) <? Temperature e)%float,
           (RobotArmAngle e <? RobotAngleMin (thresholds ad))%float,
           (RobotAngleMax (thresholds ad) <? RobotArmAngle e)%float;
    cbn [orb]; intros H; try done;
    repeat match type of H with
           | (if ?c then _ else _) = [] => destruct c
           end;
    exfalso; revert H; rewrite <- ?app_assoc; simpl; done.
Qed.

(** X15. The ranges [validateEvent] accepts contain the normal ranges of the
    default thresholds: an event with a machine, an event type and status
    [ok] for which a detector with the default thresholds raises no
    threshold alert passes the consumer's validation. A reading the
    consumer rejects as out of range is therefore outside the detector's
    normal range as well. *)
Theorem quiet_event_passes_validation (e : SensorEvent) :
  MachineID e ≠ "" →
  EventType e ≠ "" →
  Status e = "ok" →
  detectThresholdViolations (NewAnomalyDetector true) e = [] →
  validateEvent e = None.
Proof.
  intros Hid Hty Hst Hquiet.
  apply (quiet_event_in_range (NewAnomalyDetector true) e eq_refl) in Hquiet.
  destruct Hquiet as (Hs1 & Hs2 & Ht1 & Ht2 & Ha1 & Ha2).
  cbn [thresholds NewAnomalyDetector ConveyorSpeedMin ConveyorSpeedMax
       TemperatureMin TemperatureMax RobotAngleMin RobotAngleMax] in *.
  unfold validateEvent.
  destruct (String.eqb_spec (MachineID e) ""); [done|].
  destruct (String.eqb_spec (EventType e) ""); [done|].
  rewrite Hst. change (("ok" =? "")%string) with false. cbv iota.
  change (negb (default false (validStatuses !! "ok"))) with false. cbv iota.
  rewrite (not_below _ 0.1 0 eq_refl Hs1), (not_above _ 3.5 10 eq_refl Hs2).
  rewrite (not_below _ 15 (-50) eq_refl Ht1), (not_above _ 85 200 eq_refl Ht2).
  rewrite Ha1, (not_above _ 180 360 eq_refl Ha2).
  reflexivity.
Qed.

Lemma quiet_event_passes_validation_witness : validateEvent e1 = None.
Proof.
  apply (quiet_event_passes_validation e1).
  - simpl. done.
  - simpl. done.
  - reflexivity.
  - vm_compute. reflexivity.
Defined.

(** ** From [ReadMessage] to the loop of [main] *)

Section consumer_pipeline.
Variable json_Unmarshal : string → error + SensorEvent.
Implicit Types (p : pipeline) (c : Consumer) (r : readResult).

(** A non-blocking send on an open channel within its capacity. *)
Lemma trySend_open {A} (ch : chan A) (v : A) :
  closed ch = false → length (buf ch) ≤ cap ch →
  (trySend ch v = Sent {| buf := buf ch ++ [v]; cap := cap ch; closed := false |}
   ∧ length (buf ch ++ [v]) ≤ cap ch)
  ∨ trySend ch v = WouldBlock.
Proof.
  intros Hopen Hlen. unfold trySend. rewrite Hopen.
  destruct (length (buf ch) <? cap ch) eqn:Hroom; [left|by right].
  apply Nat.ltb_lt in Hroom. split; [done|]. rewrite length_app. simpl. lia.
Qed.

Lemma accepted_snoc (rs : list readResult) r :
  accepted json_Unmarshal (rs ++ [r])
  = accepted json_Unmarshal rs ++ accepted json_Unmarshal [r].
Proof. unfold accepted. by rewrite omap_app. Qed.

Lemma accepted_one r :
  accepted json_Unmarshal [r]
  = match r with
    | KafkaMessage Value =>
        match json_Unmarshal Value with
        | inr event =>
            match validateEvent event with
            | None => [event]
            | Some _ => []
            end
        | inl _ => []
        end
    | _ => []
    end.
Proof.
  unfold accepted. destruct r as [|err|Value]; [done..|]. cbn -[validateEvent].
  destruct (json_Unmarshal Value) as [err|event]; [done|].
  by destruct (validateEvent event).
Qed.

Lemma accepted_valid (rs : list readResult) :
  Forall (λ event, validateEvent event = None) (accepted json_Unmarshal rs).
Proof.
  induction rs as [|r rs IH] using rev_ind; [constructor|].
  rewrite accepted_snoc. apply Forall_app. split; [done|].
  rewrite accepted_one. destruct r as [|err|Value]; try constructor.
  destruct (json_Unmarshal Value) as [err|event]; [constructor|].
  destruct (validateEvent event) eqn:Hv; [constructor|].
  by apply Forall_singleton.
Qed.

Lemma pipeline_step_inv p p' :
  pipeline_step json_Unmarshal p p' →
  (closed (eventChannel (consumer p)) = false ∧
   closed (errorChannel (consumer p)) = false ∧
   cap (eventChannel (consumer p)) = 100 ∧ cap (errorChannel (consumer p)) = 10 ∧
   length (buf (eventChannel (consumer p))) ≤ 100 ∧
   length (buf (errorChannel (consumer p))) ≤ 10 ∧
   sublist (taken p ++ buf (eventChannel (consumer p)))
           (accepted json_Unmarshal (polled p))) →
  closed (eventChannel (consumer p')) = false ∧
  closed (errorChannel (consumer p')) = false ∧
  cap (eventChannel (consumer p')) = 100 ∧ cap (errorChannel (consumer p')) = 10 ∧
  length (buf (eventChannel (consumer p'))) ≤ 100 ∧
  length (buf (errorChannel (consumer p'))) ≤ 10 ∧
  sublist (taken p' ++ buf (eventChannel (consumer p')))
          (accepted json_Unmarshal (polled p')).
Proof.
  intros Hstep (Hev & Her & Hcev & Hcer & Hlev & Hler & Hsub).
  destruct Hstep as [p r c' Hpoll|p event rest Hbuf|p err rest Hbuf];
    cbn [polled consumer taken eventChannel errorChannel buf cap closed].
  - rewrite accepted_snoc, accepted_one.
    assert (Herr : ∀ e,
               match trySend (errorChannel (consumer p)) e with
               | Sent ch =>
                   Some {| eventChannel := eventChannel (consumer p);
                           errorChannel := ch |}
               | WouldBlock => Some (consumer p)
               | SendPanic => None
               end = Some c' →
               closed (eventChannel c') = false ∧ closed (errorChannel c') = false ∧
               cap (eventChannel c') = 100 ∧ cap (errorChannel c') = 10 ∧
               length (buf (eventChannel c')) ≤ 100 ∧
               length (buf (errorChannel c')) ≤ 10 ∧
               sublist (taken p ++ buf (eventChannel c'))
                       (accepted json_Unmarshal (polled p) ++ [])).
    { intros e He. rewrite app_nil_r.
      destruct (trySend_open (errorChannel (consumer p)) e Her) as [[Hs Hl]| Hs];
        [lia| |]; rewrite Hs in He; injection He as <-; simpl; [|done].
      rewrite Hcer in Hl. done. }
    destruct r as [|err|Value]; cbn [poll] in Hpoll.
    + injection Hpoll as <-. by rewrite app_nil_r.
    + by apply (Herr _ Hpoll).
    + unfold processMessage in Hpoll.
      destruct (json_Unmarshal Value) as [err|event]; [by apply (Herr _ Hpoll)|].
      destruct (validateEvent event) as [err|]; [by apply (Herr _ Hpoll)|].
      destruct (trySend_open (eventChannel (consumer p)) event Hev) as [[Hs Hl]| Hs];
        [lia| |]; rewrite Hs in Hpoll; injection Hpoll as <-; simpl.
      * rewrite Hcev in Hl. split; [done|]. split; [done|]. split; [done|].
        split; [done|]. split; [done|]. split; [done|].
        rewrite app_assoc. by apply sublist_app.
      * split; [done|]. split; [done|]. split; [done|].
        split; [done|]. split; [done|]. split; [done|].
        by apply sublist_inserts_r.
  - rewrite Hbuf in Hlev, Hsub. simpl in Hlev.
    split; [done|]. split; [done|]. split; [done|]. split; [done|].
    split; [lia|]. split; [done|]. by rewrite <- app_assoc.
  - rewrite Hbuf in Hler. simpl in Hler.
    split; [done|]. split; [done|]. split; [done|]. split; [done|].
    split; [done|]. split; [lia|]. done.
Qed.

Lemma poll_open c r :
  closed (eventChannel c) = false → closed (errorChannel c) = false →
  is_Some (poll json_Unmarshal c r).
Proof.
  intros Hev Her.
  assert (Herr : ∀ e,
             is_Some match trySend (errorChannel c) e with
                     | Sent ch => Some {| eventChannel := eventChannel c;
                                          errorChannel := ch |}
                     | WouldBlock => Some c
                     | SendPanic => None
                     end).
  { intros e. unfold trySend. rewrite Her.
    destruct (length (buf (errorChannel c)) <? cap (errorChannel c)); by eexists. }
  destruct r as [|err|Value]; cbn [poll]; [by eexists|apply Herr|].
  unfold processMessage.
  destruct (json_Unmarshal Value) as [err|event]; [apply Herr|].
  destruct (validateEvent event) as [err|]; [apply Herr|].
  unfold trySend. rewrite Hev.
  destruct (length (buf (eventChannel c)) <? cap (eventChannel c)); by eexists.
Qed.
End consumer_pipeline.

Lemma Forall_sublist {A} (P : A → Prop) (l k : list A) :
  sublist l k → Forall P k → Forall P l.
Proof.
  induction 1 as [|x l k _ IH|x l k _ IH]; intros Hk; [done|..].
  - apply Forall_cons in Hk as [? ?]. constructor; auto.
  - apply Forall_cons in Hk as [? ?]. auto.
Qed.

(** X16. From a new consumer, whatever [ReadMessage] returns and whenever the
    loop of [main] receives: the events received and those still queued
    are, in arrival order and each at most once, events that decoded and
    passed [validateEvent]; the channels never hold more than 100 events
    and 10 errors; and the next turn of the loop of [Start] returns: it
    sends on no closed channel. *)
Theorem events_taken_in_order (json_Unmarshal : string → error + SensorEvent)
    (p : pipeline) :
  rtc (pipeline_step json_Unmarshal)
      {| polled := []; consumer := NewConsumer; taken := [] |} p →
  sublist (taken p ++ buf (eventChannel (consumer p)))
          (accepted json_Unmarshal (polled p)) ∧
  Forall (λ event, validateEvent event = None)
         (taken p ++ buf (eventChannel (consumer p))) ∧
  length (buf (eventChannel (consumer p))) ≤ 100 ∧
  length (buf (errorChannel (consumer p))) ≤ 10 ∧
  ∀ r, is_Some (poll json_Unmarshal (consumer p) r).
Proof.
  intros Hreach.
  assert (Hinv : closed (eventChannel (consumer p)) = false ∧
                 closed (errorChannel (consumer p)) = false ∧
                 cap (eventChannel (consumer p)) = 100 ∧
                 cap (errorChannel (consumer p)) = 10 ∧
                 length (buf (eventChannel (consumer p))) ≤ 100 ∧
                 length (buf (errorChannel (consumer p))) ≤ 10 ∧
                 sublist (taken p ++ buf (eventChannel (consumer p)))
                         (accepted json_Unmarshal (polled p))).
  { revert p Hreach. apply rtc_ind_r.
    - simpl. repeat (split; [done || lia|]). constructor.
    - intros p1 p2 _ Hstep IH. by apply (pipeline_step_inv json_Unmarshal p1 p2). }
  destruct Hinv as (Hev & Her & _ & _ & Hlev & Hler & Hsub).
  split; [done|]. split.
  - apply (Forall_sublist _ _ _ Hsub), accepted_valid.
  - split; [done|]. split; [done|]. intros r. by apply poll_open.
Qed.

Lemma events_taken_in_order_witness :
  sublist ([] ++ [e1]) (accepted (λ _, inr e1) [KafkaMessage "payload"]) ∧
  Forall (λ event, validateEvent event = None) ([] ++ [e1]) ∧
  length [e1] ≤ 100 ∧
  length ([] : list error) ≤ 10 ∧
  ∀ r, is_Some (poll (λ _, inr e1)
                     {| eventChannel := Chan [e1] 100 false;
                        errorChannel := Chan [] 10 false |} r).
Proof.
  apply (events_taken_in_order (λ _, inr e1)
           {| polled := [KafkaMessage "payload"];
              consumer := {| eventChannel := Chan [e1] 100 false;
                             errorChannel := Chan [] 10 false |};
              taken := [] |}).
  apply rtc_once.
  apply (step_poll (λ _, inr e1) {| polled := []; consumer := NewConsumer; taken := [] |}
           (KafkaMessage "payload")).
  vm_compute. reflexivity.
Defined.

(** ** The loop of [main] *)

Lemma main_alertCallback_calls (alerts : list Alert) :
  broadcast_alerts (flat_map main_alertCallback alerts) = alerts ∧
  inserted_alerts (flat_map main_alertCallback alerts) = alerts ∧
  broadcast_events (flat_map main_alertCallback alerts) = [].
Proof.
  unfold broadcast_alerts, inserted_alerts, broadcast_events.
  induction alerts as [|a alerts (IH1 & IH2 & IH3)]; [done|].
  cbn. by rewrite IH1, IH2, IH3.
Qed.

Lemma handleEvent_calls (alerts : list Alert) (event : SensorEvent) (calls : list call) :
  broadcast_alerts (([InsertEvent event] ++ flat_map main_alertCallback alerts
                     ++ [BroadcastEvent event]) ++ calls)
  = alerts ++ broadcast_alerts calls ∧
  inserted_alerts (([InsertEvent event] ++ flat_map main_alertCallback alerts
                    ++ [BroadcastEvent event]) ++ calls)
  = alerts ++ inserted_alerts calls ∧
  broadcast_events (([InsertEvent event] ++ flat_map main_alertCallback alerts
                     ++ [BroadcastEvent event]) ++ calls)
  = event :: broadcast_events calls.
Proof.
  destruct (main_alertCallback_calls alerts) as (H1 & H2 & H3).
  unfold broadcast_alerts, inserted_alerts, broadcast_events in *.
  rewrite !omap_app, H1, H2, H3. cbn. by rewrite !app_nil_r.
Qed.

Lemma processEvents_run (received : list (option SensorEvent * bool))
    (ad : AnomalyDetector) (past : list SensorEvent) :
  holds_last_50 ad past →
  ∃ ad' calls alerts,
    processEvents ad received = Some (ad', calls) ∧
    AnalyzeAll ad (stored_events received) = Some (ad', alerts) ∧
    holds_last_50 ad' (past ++ stored_events received) ∧
    broadcast_alerts calls = concat alerts ∧
    inserted_alerts calls = concat alerts ∧
    broadcast_events calls = stored_events received.
Proof.
  revert ad past.
  induction received as [|[[event|] stored] received IH]; intros ad past Hinv.
  - exists ad, [], []. by rewrite app_nil_r.
  - destruct stored.
    + change (stored_events ((Some event, true) :: received))
        with (event :: stored_events received).
      destruct (holds_last_50_window ad past (MachineID event) Hinv)
        as (Hw0 & Hmax0 & _).
      destruct (AnalyzeEvent_Some ad event Hw0) as (w & a & Hrun & Hw & Hc & Hmax).
      destruct (IH (inserted ad event w) (past ++ [event]))
        as (ad' & calls & alerts & Hp & Ha & Hinv' & Hba & Hia & Hbe).
      { apply holds_last_50_step; [done..|congruence|done]. }
      exists ad'. eexists. exists (a :: alerts).
      cbn [processEvents handleEvent AnalyzeAll]. rewrite Hrun. cbn [mbind option_bind].
      cbn [fst snd]. rewrite Hp, Ha. cbn [mbind option_bind fst snd].
      split; [done|]. split; [done|].
      rewrite <- app_assoc in Hinv'. split; [done|].
      destruct (handleEvent_calls a event calls) as (-> & -> & ->).
      rewrite Hba, Hia, Hbe. done.
    + change (stored_events ((Some event, false) :: received))
        with (stored_events received).
      destruct (IH ad past Hinv)
        as (ad' & calls & alerts & Hp & Ha & Hinv' & Hba & Hia & Hbe).
      exists ad', ([InsertEvent event] ++ calls), alerts.
      cbn [processEvents handleEvent]. cbn [mbind option_bind fst snd].
      rewrite Hp. by cbn.
  - assert (Hs : stored_events ((None, stored) :: received) = stored_events received)
      by (by destruct stored).
    rewrite Hs.
    destruct (IH ad past Hinv)
      as (ad' & calls & alerts & Hp & Ha & Hinv' & Hba & Hia & Hbe).
    exists ad', calls, alerts.
    cbn [processEvents handleEvent]. cbn [mbind option_bind fst snd].
    rewrite Hp. by cbn.
Qed.

(** X17. The loop of [main] with a new detector, for any values received and
    any outcomes of [db.InsertEvent], returns. The detector ends in the
    state that analysing the stored events alone gives: an event the
    database refused is not analysed, and each machine's window holds the
    last 50 stored events of the machine. [BroadcastEvent] is called for
    the stored events and no other, in the order received; [BroadcastAlert]
    and [InsertAlert] are called for the alerts of the analyses, in
    order. *)
Theorem main_loop_stored_events (received : list (option SensorEvent * bool)) :
  ∃ ad calls alerts,
    processEvents (NewAnomalyDetector true) received = Some (ad, calls) ∧
    AnalyzeAll (NewAnomalyDetector true) (stored_events received) = Some (ad, alerts) ∧
    holds_last_50 ad (stored_events received) ∧
    broadcast_alerts calls = concat alerts ∧
    inserted_alerts calls = concat alerts ∧
    broadcast_events calls = stored_events received.
Proof.
  apply (processEvents_run received (NewAnomalyDetector true) []).
  intros id. simpl. by rewrite lookup_empty.
Qed.

(** ** The handlers *)

(** X18. Whatever the query parameters and whatever [Atoi] makes of them,
    [Handler.GetEvents] asks the database for between 1 and 1000 events
    from an offset that is not negative; a limit other than the default 50
    and an offset other than the default 0 are the numbers given. *)
Theorem GetEvents_paging_bounds (Atoi : string → option Z) (l o : string) :
  (1 ≤ (GetEvents_paging Atoi l o).1 ≤ 1000)%Z ∧
  (0 ≤ (GetEvents_paging Atoi l o).2)%Z ∧
  ((GetEvents_paging Atoi l o).1 = 50%Z
   ∨ l ≠ "" ∧ Atoi l = Some (GetEvents_paging Atoi l o).1) ∧
  ((GetEvents_paging Atoi l o).2 = 0%Z
   ∨ o ≠ "" ∧ Atoi o = Some (GetEvents_paging Atoi l o).2).
Proof.
  unfold GetEvents_paging. cbn [fst snd].
  destruct (String.eqb_spec l "") as [Hl|Hl], (String.eqb_spec o "") as [Ho|Ho];
    cbn [negb];
    destruct (Atoi l) as [parsedLimit|] eqn:HAl, (Atoi o) as [parsedOffset|] eqn:HAo;
    try destruct (Z.ltb_spec 0 parsedLimit); try destruct (Z.leb_spec parsedLimit 1000);
    try destruct (Z.leb_spec 0 parsedOffset);
    cbn [andb]; repeat split; try lia; auto.
Qed.

(** X19. [Handler.GetSystemHealth] when the statistics query fails panics: the
    error is discarded and the missing statistics are read. When the query
    finds no event in the last hour, the uptime stays 0 and the system is
    reported unhealthy; otherwise the uptime is the share of events that
    are no faults, in percent, and the status is unhealthy below 90,
    degraded below 95 and healthy from there. *)
Theorem GetSystemHealth_report (h : Hub) (ad : AnomalyDetector)
    (scan : error + statsRow) :
  match scan with
  | inl _ => GetSystemHealth h ad scan = None
  | inr (total_events, fault_events, warning_events, _, _, _) =>
      ∃ report,
        GetSystemHealth h ad scan = Some report ∧
        total_events_1h report = total_events ∧
        fault_events_1h report = fault_events ∧
        warning_events_1h report = warning_events ∧
        connected_clients report = size (clients h) ∧
        health_thresholds report = thresholds ad ∧
        if (total_events <=? 0)%Z then
          uptime_percent report = 0%float ∧ health_status report = "unhealthy"
        else
          uptime_percent report
          = (float64 (int64 (total_events - fault_events)) / float64 total_events
             * 100)%float ∧
          health_status report
          = if (uptime_percent report <? 90)%float then "unhealthy"
            else if (uptime_percent report <? 95)%float then "degraded"
            else "healthy"
  end.
Proof.
  destruct scan as [err|[[[[[total_events fault_events] warning_events] avgT] avgS] last]];
    [done|].
  unfold GetSystemHealth, DB_GetEventStats. cbn [TotalEvents].
  destruct (Z.ltb_spec 0 total_events) as [Hpos|Hle]; cbn [mbind option_bind].
  - eexists. split; [done|].
    cbn [total_events_1h fault_events_1h warning_events_1h connected_clients
         health_thresholds uptime_percent health_status TotalEvents FaultEvents
         WarningEvents UptimePercent].
    repeat (split; [done|]).
    destruct (Z.leb_spec total_events 0); [lia|]. split; [done|].
    reflexivity.
  - eexists. split; [done|].
    cbn [total_events_1h fault_events_1h warning_events_1h connected_clients
         health_thresholds uptime_percent health_status TotalEvents FaultEvents
         WarningEvents UptimePercent].
    repeat (split; [done|]).
    destruct (Z.leb_spec total_events 0); [|lia]. done.
Qed.

(** X20. Away from NaN, the checks of [Handler.UpdateAnomalyThresholds] accept a
    request exactly when the speed bounds satisfy [0 <= min < max] and the
    temperature bounds [min < max]; the angle bounds are not looked at. An
    accepted request installs its thresholds and leaves the windows as
    they are; a refused one leaves the detector untouched. *)
Theorem UpdateAnomalyThresholds_checks
    (ShouldBindJSON : string → error + AnomalyThresholds)
    (ad : AnomalyDetector) (request : string) (th : AnomalyThresholds) :
  ShouldBindJSON request = inr th →
  is_nan (ConveyorSpeedMin th) = false →
  is_nan (ConveyorSpeedMax th) = false →
  is_nan (TemperatureMin th) = false →
  is_nan (TemperatureMax th) = false →
  if ((0 <=? ConveyorSpeedMin th) && (ConveyorSpeedMin th <? ConveyorSpeedMax th)
      && (TemperatureMin th <? TemperatureMax th))%float
  then
    UpdateAnomalyThresholds ShouldBindJSON ad request
    = (UpdateThresholds ad th,
       StatusOK "Anomaly thresholds updated successfully" th) ∧
    GetThresholds (UpdateAnomalyThresholds ShouldBindJSON ad request).1 = th ∧
    slidingWindow (UpdateAnomalyThresholds ShouldBindJSON ad request).1
    = slidingWindow ad
  else
    ∃ message,
      UpdateAnomalyThresholds ShouldBindJSON ad request
      = (ad, StatusBadRequest message None).
Proof.
  intros Hbind Hs1 Hs2 Ht1 Ht2. unfold UpdateAnomalyThresholds. rewrite Hbind.
  assert (Hzero : is_nan 0 = false) by reflexivity.
  rewrite (leb_negb_ltb 0 (ConveyorSpeedMin th) Hzero Hs1).
  rewrite (leb_negb_ltb (ConveyorSpeedMax th) (ConveyorSpeedMin th) Hs2 Hs1).
  rewrite (leb_negb_ltb (TemperatureMax th) (TemperatureMin th) Ht2 Ht1).
  destruct (ConveyorSpeedMin th <? 0)%float; cbn [negb andb orb]; [by eexists|].
  destruct (ConveyorSpeedMin th <? ConveyorSpeedMax th)%float; cbn [negb andb orb];
    [|by eexists].
  destruct (TemperatureMin th <? TemperatureMax th)%float; cbn [negb andb orb];
    [done|by eexists].
Qed.

Lemma UpdateAnomalyThresholds_checks_witness :
  UpdateAnomalyThresholds (λ _, inr (thresholds (NewAnomalyDetector true)))
                          (detector_after three_faults) "{}"
  = (UpdateThresholds (detector_after three_faults)
                      (thresholds (NewAnomalyDetector true)),
     StatusOK "Anomaly thresholds updated successfully"
              (thresholds (NewAnomalyDetector true))) ∧
  GetThresholds (UpdateAnomalyThresholds
                   (λ _, inr (thresholds (NewAnomalyDetector true)))
                   (detector_after three_faults) "{}").1
  = thresholds (NewAnomalyDetector true) ∧
  slidingWindow (UpdateAnomalyThresholds
                   (λ _, inr (thresholds (NewAnomalyDetector true)))
                   (detector_after three_faults) "{}").1
  = slidingWindow (detector_after three_faults).
Proof.
  apply (UpdateAnomalyThresholds_checks
           (λ _, inr (thresholds (NewAnomalyDetector true)))
           (detector_after three_faults) "{}" (thresholds (NewAnomalyDetector true)));
    reflexivity.
Defined.

Lemma SFcompare_cotrans (x y a : spec_float) :
  a ≠ S754_nan →
  SFcompare x y = Some Lt →
  SFcompare a y = Some Lt ∨ SFcompare x a = Some Lt.
Proof.
  intros Ha.
  destruct x as [sx|sx| |sx mx ex], y as [sy|sy| |sy my ey], a as [sa|sa| |sa ma ea];
    try done; try destruct sx; try destruct sy; try destruct sa;
    simpl; try done; try (by left); try (by right).
  all: change (Pos.compare_cont Eq mx my) with (mx ?= my)%positive.
  all: change (Pos.compare_cont Eq ma my) with (ma ?= my)%positive.
  all: change (Pos.compare_cont Eq mx ma) with (mx ?= ma)%positive.
  all: destruct (Z.compare_spec ex ey), (Z.compare_spec ea ey), (Z.compare_spec ex ea);
    try lia; try done; try (by left); try (by right);
    destruct (Pos.compare_spec mx my), (Pos.compare_spec ma my),
             (Pos.compare_spec mx ma); simpl; try lia; try done;
    try (by left); try (by right).
Qed.

(** A number lies below the larger or above the smaller of two ordered
    numbers. *)
Lemma ltb_cotrans (x y a : float) :
  is_nan a = false → (x <? y)%float = true →
  (a <? y)%float = true ∨ (x <? a)%float = true.
Proof.
  intros Ha%is_nan_false. rewrite !FloatAxioms.ltb_spec. unfold SFltb.
  destruct (SFcompare (Prim2SF x) (Prim2SF y)) as [[]|] eqn:Hxy; try done.
  intros _. destruct (SFcompare_cotrans _ _ _ Ha Hxy) as [-> | ->]; auto.
Qed.

(** X21. [Handler.UpdateAnomalyThresholds] installs the angle bounds of a
    request that passes its speed and temperature checks as they are. With
    a maximum below the minimum, every event whose angle is a number then
    raises [robot_angle_invalid]. *)
Theorem angle_bounds_installed_unchecked
    (ShouldBindJSON : string → error + AnomalyThresholds)
    (ad : AnomalyDetector) (request : string) (th : AnomalyThresholds)
    (e : SensorEvent) :
  ShouldBindJSON request = inr th →
  (ConveyorSpeedMin th <? 0)%float = false →
  (ConveyorSpeedMax th <=? ConveyorSpeedMin th)%float = false →
  (TemperatureMax th <=? TemperatureMin th)%float = false →
  (RobotAngleMax th <? RobotAngleMin th)%float = true →
  alertCallback ad = true →
  is_nan (RobotArmAngle e) = false →
  UpdateAnomalyThresholds ShouldBindJSON ad request
  = (UpdateThresholds ad th, StatusOK "Anomaly thresholds updated successfully" th) ∧
  Exists (λ alert, AlertType alert = "robot_angle_invalid")
         (detectThresholdViolations (UpdateThresholds ad th) e).
Proof.
  intros Hbind Hs1 Hs2 Ht Hangle Hcb Hnum. split.
  - unfold UpdateAnomalyThresholds. by rewrite Hbind, Hs1, Hs2, Ht.
  - assert (Hout : (RobotArmAngle e <? RobotAngleMin th)%float
                   || (RobotAngleMax th <? RobotArmAngle e)%float = true).
    { destruct (ltb_cotrans _ _ (RobotArmAngle e) Hnum Hangle) as [-> | ->];
        [done|by rewrite orb_true_r]. }
    unfold detectThresholdViolations.
    rewrite (flat_map_callback (UpdateThresholds ad th) _ Hcb).
    cbn [thresholds UpdateThresholds]. rewrite Hout.
    destruct (ConveyorSpeed e <? ConveyorSpeedMin th)%float,
             (ConveyorSpeedMax th <? ConveyorSpeed e)%float,
             (Temperature e <? TemperatureMin th)%float,
             (TemperatureMax th <? Temperature e)%float,
             (String.eqb (Status e) "fault"),
             (String.eqb (Status e) "warning");
      cbv zeta; rewrite ?Exists_app, ?Exists_cons; cbn [AlertType]; tauto.
Qed.

Lemma angle_bounds_installed_unchecked_witness :
  UpdateAnomalyThresholds (λ _, inr exchanged_angles) (NewAnomalyDetector true) "{}"
  = (UpdateThresholds (NewAnomalyDetector true) exchanged_angles,
     StatusOK "Anomaly thresholds updated successfully" exchanged_angles) ∧
  Exists (λ alert, AlertType alert = "robot_angle_invalid")
         (detectThresholdViolations
            (UpdateThresholds (NewAnomalyDetector true) exchanged_angles) e1).
Proof.
  apply (angle_bounds_installed_unchecked (λ _, inr exchanged_angles)
           (NewAnomalyDetector true) "{}" exchanged_angles e1);
    reflexivity.
Defined.

(** ** The dashboard *)

Lemma take_app_take {A} (n : nat) (l k : list A) :
  take n (l ++ take n k) = take n (l ++ k).
Proof.
  rewrite !take_app, take_take. f_equal. f_equal. lia.
Qed.

Lemma keep_recent_run {A} (n : nat) (f : list A → A → list A) :
  (∀ prev x, f prev x = take n (x :: prev)) →
  ∀ arrivals init,
    length init ≤ n →
    foldl f init arrivals = reverse (lastn n (reverse init ++ arrivals)).
Proof.
  intros Hf arrivals init Hinit.
  assert (Hrun : foldl f init arrivals = take n (reverse arrivals ++ init)).
  { revert init Hinit. induction arrivals as [|a arrivals IH]; intros init Hinit.
    - simpl. by rewrite take_ge.
    - cbn [foldl]. rewrite IH by (rewrite Hf, length_take; lia).
      rewrite Hf, take_app_take, reverse_cons. by rewrite <- app_assoc. }
  rewrite Hrun. unfold lastn.
  rewrite <- (reverse_involutive init) at 1. rewrite <- reverse_app.
  by rewrite take_reverse.
Qed.

Lemma filter_all {A} (P : A → Prop) `{!∀ x, Decision (P x)} (l : list A) :
  (∀ x, P x) → filter P l = l.
Proof.
  intros HP. induction l as [|x l IH]; [done|].
  rewrite filter_cons, decide_True by done. by rewrite IH.
Qed.

(** X22. The dashboard starts from at most 100 events, newest first, and puts
    each event that arrives in front. It then holds the 100 most recent
    events, newest first. The chart shows, oldest first, the 50 most recent
    of those that belong to the selected machine (all of them when none is
    selected), and the latest event is the most recent of them. Of the
    alerts that arrived it holds the 5 most recent, newest first. *)
Theorem dashboard_shows_recent {Alert : Type}
    (init arrivals : list Dashboard.SensorEvent)
    (selectedMachine : string) (alerts : list Alert) :
  length init ≤ 100 →
  foldl Dashboard.handleNewEvent init arrivals
  = reverse (lastn 100 (reverse init ++ arrivals)) ∧
  Dashboard.chartData (foldl Dashboard.handleNewEvent init arrivals) selectedMachine
  = Dashboard.point
      <$> lastn 50 (filter (Dashboard.selected selectedMachine)
                           (lastn 100 (reverse init ++ arrivals))) ∧
  Dashboard.latestEvent (foldl Dashboard.handleNewEvent init arrivals) selectedMachine
  = last (filter (Dashboard.selected selectedMachine)
                 (lastn 100 (reverse init ++ arrivals))) ∧
  foldl Dashboard.handleNewAlert [] alerts = reverse (lastn 5 alerts).
Proof.
  intros Hinit.
  assert (Hrun : foldl Dashboard.handleNewEvent init arrivals
                 = reverse (lastn 100 (reverse init ++ arrivals)))
    by (by apply keep_recent_run).
  split; [done|]. rewrite Hrun.
  set (recent := lastn 100 (reverse init ++ arrivals)).
  split; [|split].
  - unfold Dashboard.chartData.
    rewrite filter_reverse, fmap_reverse, take_reverse, reverse_involutive.
    by rewrite length_fmap, <- fmap_drop.
  - unfold Dashboard.latestEvent.
    rewrite <- head_lookup, <- head_reverse, filter_reverse. f_equal.
    case_bool_decide as Hsel.
    + f_equal. symmetry. apply filter_all. intros x. by left.
    + f_equal. apply list_filter_iff. intros x. unfold Dashboard.selected.
      naive_solver.
  - apply (keep_recent_run 5 Dashboard.handleNewAlert); [done|simpl; lia].
Qed.

Lemma dashboard_shows_recent_witness :
  foldl Dashboard.handleNewEvent [] [shown; shown]
  = reverse (lastn 100 (reverse [] ++ [shown; shown])) ∧
  Dashboard.chartData (foldl Dashboard.handleNewEvent [] [shown; shown]) "m1"
  = Dashboard.point
      <$> lastn 50 (filter (Dashboard.selected "m1")
                           (lastn 100 (reverse [] ++ [shown; shown]))) ∧
  Dashboard.latestEvent (foldl Dashboard.handleNewEvent [] [shown; shown]) "m1"
  = last (filter (Dashboard.selected "m1")
                 (lastn 100 (reverse [] ++ [shown; shown]))) ∧
  foldl Dashboard.handleNewAlert [] ["a1"; "a2"] = reverse (lastn 5 ["a1"; "a2"]).
Proof.
  apply (dashboard_shows_recent [] [shown; shown] "m1" ["a1"; "a2"]). simpl. lia.
Defined.

(** ** Messages of a client *)

(** X23. A ping of a client, in a hub that keeps its invariant. While the
    client is registered its mailbox is open: the pong is queued last, or
    dropped when the mailbox is full. Once the hub has unregistered or
    dropped the client its mailbox is closed, and answering the ping sends
    on the closed channel: [handleMessage] panics. Neither case changes the
    subscriptions or the registered clients. *)
Theorem ping_answered_while_registered
    (json_Unmarshal : string → error + (string * string))
    (json_Unmarshal_Topics : string → error + list string)
    (pongBytes Data message : string)
    (h : Hub) (client : ClientPtr) (send : chan string)
    (subscribed : gmap string bool) :
  hub_inv h →
  mailboxes h !! client = Some send →
  json_Unmarshal message = inr ("ping", Data) →
  match clients h !! client with
  | Some _ =>
      ∃ send',
        handleMessage json_Unmarshal json_Unmarshal_Topics (inr pongBytes)
                      h client subscribed message
        = Some ({| clients := clients h;
                   mailboxes := <[client := send']> (mailboxes h) |}, subscribed) ∧
        offered send pongBytes send'
  | None =>
      handleMessage json_Unmarshal json_Unmarshal_Topics (inr pongBytes)
                    h client subscribed message
      = None
  end.
Proof.
  intros (Hok & Hclosed & Hcap) Hsend Hping.
  unfold handleMessage. rewrite Hping. cbn. rewrite Hsend. cbn.
  destruct (clients h !! client) as [registered|] eqn:Hc.
  - destruct (Hok client) as (send0 & Hsend0 & Hopen); [by eexists|].
    assert (send0 = send) as -> by congruence.
    unfold trySend. rewrite Hopen.
    destruct (length (buf send) <? cap send) eqn:Hroom.
    + eexists. split; [done|]. apply Nat.ltb_lt in Hroom. split; [|lia].
      intros _. by rewrite Hopen.
    + exists send. apply Nat.ltb_ge in Hroom. split.
      * f_equal. f_equal. destruct h as [cs ms]. cbn in *. f_equal.
        by rewrite insert_id.
      * split; [lia|done].
  - unfold trySend. by rewrite (Hclosed client send Hsend Hc).
Qed.

Lemma ping_answered_while_registered_witness :
  ∃ send',
    handleMessage (λ _, inr ("ping", "{}")) (λ _, inr []) (inr "pong")
                  one_subscriber 7 ∅ "{}"
    = Some ({| clients := clients one_subscriber;
               mailboxes := <[7 := send']> (mailboxes one_subscriber) |}, ∅) ∧
    offered (Chan ["connected"] 256 false) "pong" send'.
Proof.
  apply (ping_answered_while_registered (λ _, inr ("ping", "{}")) (λ _, inr [])
           "pong" "{}" "{}" one_subscriber 7 (Chan ["connected"] 256 false) ∅).
  - apply one_subscriber_inv.
  - reflexivity.
  - reflexivity.
Defined.
